(** * Neurodriver axon-hillock components: a shallow embedding

    This development embeds, as Rocq functions, the component contract
    implemented by

      - [neurokernel/LPU/NDComponents/AxonHillockModels/BaseAxonHillockModel.py]
        (constructor, [pre_run], [run_step]), and
      - [neurokernel/LPU/NDComponents/AxonHillockModels/Wilson.py]
        (class attributes, the CUDA [update] kernel, [run_step]),

    and proves properties of the sub-step count, the seeding of state,
    the order of input reduction and kernel launch, the stores the
    kernel performs and the propagation of exceptions.

    Conventions.
      - Host floating point ([np.double]) is binary64: Rocq's primitive
        [float].  Device floating point ([FLOATTYPE], a macro of the
        CUDA source) is a parameter: the class [FloatType].
      - Device memory is a finite map from element addresses to cells.
        A pointer is an integer, as [int(update_pointers['V'])] is in
        the source; [p + i] addresses the [i]-th element after [p].
      - Python code runs in a state-and-exception monad over the device
        state; an exception leaves the state as it was when raised. *)

From Stdlib Require Import ZArith Lia List QArith Qround.
From Stdlib Require Import Floats.PrimFloat Floats.SpecFloat Floats.FloatOps.
From stdpp Require Import gmap strings list.

Set Warnings "-inexact-float".
Local Open Scope Z_scope.

(** ** Python exceptions and outcomes *)

Module Py.

(** A dictionary key as it appears in a [KeyError]: class attribute
    tables are indexed by strings, [self.params[0]] by an integer. *)
Inductive key :=
| StrKey (s : string)
| IntKey (n : Z).

Inductive exn :=
| KeyError (k : key)
| IndexError
| AttributeError (attr : string)
| TypeError
| ValueError
| OverflowError
| CudaError
| OtherError (tag : string).

Inductive outcome (A : Type) :=
| Val (a : A)
| Exn (e : exn).
Arguments Val {A} a.
Arguments Exn {A} e.

(** [int(x)] on a Python float: truncation toward zero;
    [OverflowError] on an infinity, [ValueError] on a NaN. *)
Definition int_of_float (x : float) : outcome Z :=
  match Prim2SF x with
  | S754_zero _ => Val 0
  | S754_infinity _ => Exn OverflowError
  | S754_nan => Exn ValueError
  | S754_finite sgn m e =>
      let a := Z.shiftl (Z.pos m) e in
      Val (if sgn then - a else a)
  end.

(** The rational value of a finite binary64 number. *)
Definition Q_of_float (x : float) : option Q :=
  match Prim2SF x with
  | S754_zero _ => Some 0%Q
  | S754_finite sgn m e =>
      let a := if 0 <=? e then inject_Z (Z.pos m * 2 ^ e)
               else Qmake (Z.pos m) (Z.to_pos (2 ^ (- e))) in
      Some (if sgn then Qopp a else a)
  | _ => None
  end.

(** [np.int32(n)] on a Python integer, as NumPy 1.x does it: the
    integer passes through a C [long] ([OverflowError] beyond 64
    bits) and is then narrowed to 32 bits with wrap-around. *)
Definition wrap32 (n : Z) : Z := (n + 2 ^ 31) mod 2 ^ 32 - 2 ^ 31.

Definition np_int32 (n : Z) : outcome Z :=
  if (- 2 ^ 63 <=? n) && (n <? 2 ^ 63) then Val (wrap32 n)
  else Exn OverflowError.

End Py.
Export Py.

(** ** Device floating point

    [FLOATTYPE] is [float] or [double] according to a macro of the
    CUDA source; its arithmetic (rounding, contraction of multiply-add)
    is the device compiler's.  The embedding is parametric in it. *)

Class FloatType := {
  F : Type;
  of_double : float -> F;
  fadd : F -> F -> F;
  fsub : F -> F -> F;
  fmul : F -> F -> F;
  fdiv : F -> F -> F;
  fle : F -> F -> bool;
  fge : F -> F -> bool;
  fgt : F -> F -> bool;
}.

(** The instance of a [USE_DOUBLE] build without contraction. *)
Definition double_FloatType : FloatType := {|
  F := float;
  of_double := fun x => x;
  fadd := PrimFloat.add;
  fsub := PrimFloat.sub;
  fmul := PrimFloat.mul;
  fdiv := PrimFloat.div;
  fle := PrimFloat.leb;
  fge := fun a b => PrimFloat.leb b a;
  fgt := fun a b => PrimFloat.ltb b a;
|}.

Declare Scope fl_scope.
Delimit Scope fl_scope with fl.
Infix "+" := fadd : fl_scope.
Infix "-" := fsub : fl_scope.
Infix "*" := fmul : fl_scope.
Infix "/" := fdiv : fl_scope.

(** ** Device memory and the host monad *)

Module Dev.
Section Device.
Context {FT : FloatType}.

(** One element of device memory: a [FLOATTYPE], an [INTTYPE], or the
    content of a [garray.empty] allocation that nothing has written. *)
Inductive cell :=
| CF (x : F)
| CI (n : Z)
| CU.

(** [mem]: the mapped addresses and their content.  [wlog]: every store
    to a mapped address, in program order (a ghost trace: nothing reads
    it).  [brk]: the next address an allocation returns. *)
Record dstate := {
  mem : gmap Z cell;
  wlog : list (Z * cell);
  brk : Z;
}.

(** A load of a [FLOATTYPE].  A cell that holds no [FLOATTYPE] value
    (nothing has written it, or it holds an integer) gives the kernel
    an indeterminate value: the embedding gives such a load, like one
    from an unmapped address, no result, so that what is proved of a
    returning launch is proved of launches that read initialised
    values only. *)
Definition loadF (s : dstate) (a : Z) : option F :=
  match mem s !! a with
  | Some (CF x) => Some x
  | _ => None
  end.

(** A store to an unmapped address is a fault. *)
Definition store (a : Z) (c : cell) (s : dstate) : option dstate :=
  match mem s !! a with
  | Some _ => Some {| mem := <[a := c]> (mem s);
                      wlog := wlog s ++ [(a, c)];
                      brk := brk s |}
  | None => None
  end.

(** Host code: state passing with exceptions. *)
Definition M (A : Type) : Type := dstate -> outcome A * dstate.

Definition ret {A} (a : A) : M A := fun s => (Val a, s).

Definition raise {A} (e : exn) : M A := fun s => (Exn e, s).

Definition bind {A B} (c : M A) (k : A -> M B) : M B :=
  fun s => match c s with
           | (Val a, s') => k a s'
           | (Exn e, s') => (Exn e, s')
           end.

Definition lift {A} (o : outcome A) : M A := fun s => (o, s).

(** [d[k]] on a dictionary with string keys. *)
Definition getitem {A} (d : gmap string A) (k : string) : M A :=
  match d !! k with
  | Some v => ret v
  | None => raise (KeyError (StrKey k))
  end.

(** A [for] loop over a list, and a list comprehension. *)
Fixpoint for_each {A} (l : list A) (body : A -> M unit) : M unit :=
  match l with
  | [] => ret tt
  | x :: l' => bind (body x) (fun _ => for_each l' body)
  end.

Fixpoint comprehension {A B} (l : list A) (f : A -> M B) : M (list B) :=
  match l with
  | [] => ret []
  | x :: l' => bind (f x) (fun y =>
               bind (comprehension l' f) (fun ys => ret (y :: ys)))
  end.

(** A device fault ends the call with a [CudaError]; the state is the
    one before the call. *)
Definition device_call (k : dstate -> option dstate) : M unit :=
  fun s => match k s with
           | Some s' => (Val tt, s')
           | None => (Exn CudaError, s)
           end.

(** [pycuda.gpuarray.GPUArray]: the attributes the code reads. *)
Inductive dtype := float32 | float64 | int32 | int64.

Record garray := {
  gpudata : Z;
  size : nat;
  dtype_of : dtype;
}.

(** A fresh array holding the cells [l]. *)
Fixpoint fill (m : gmap Z cell) (p : Z) (l : list cell) : gmap Z cell :=
  match l with
  | [] => m
  | c :: l' => <[p := c]> (fill m (p + 1) l')
  end.

Definition alloc (l : list cell) (dt : dtype) : M garray :=
  fun s => (Val {| gpudata := brk s; size := length l; dtype_of := dt |},
            {| mem := fill (mem s) (brk s) l;
               wlog := wlog s;
               brk := brk s + Z.of_nat (length l) |}).

(** [cuda.memcpy_dtod(dest, src, nbytes)] for [nbytes] covering [n]
    elements: the source is read, then the destination written; an
    unmapped address on either side is a fault. *)
Fixpoint load_range (s : dstate) (p : Z) (n : nat) : option (list cell) :=
  match n with
  | O => Some []
  | S n' => c ← mem s !! p; cs ← load_range s (p + 1) n'; Some (c :: cs)
  end.

Fixpoint store_range (p : Z) (l : list cell) (s : dstate) : option dstate :=
  match l with
  | [] => Some s
  | c :: l' => s' ← store p c s; store_range (p + 1) l' s'
  end.

Definition memcpy_dtod (dest src : Z) (n : nat) : M unit :=
  device_call (fun s => cs ← load_range s src n; store_range dest cs s).

(** [garray.zeros(n, dtype)] and [array + scalar] (a new array), for
    the floating dtypes the models use. *)
Definition garray_zeros (n : nat) (dt : dtype) : M garray :=
  alloc (replicate n (CF (of_double 0))) dt.

Definition add_scalar (v : float) (c : cell) : cell :=
  match c with
  | CF x => CF (x + of_double v)%fl
  | _ => c
  end.

Definition garray_add (a : garray) (v : float) : M garray :=
  fun s => match load_range s (gpudata a) (size a) with
           | Some cs => alloc (map (add_scalar v) cs) (dtype_of a) s
           | None => (Exn CudaError, s)
           end.

(** A compiled and prepared kernel with its launch configuration.
    [prepared_async_call] passes [num_comps], a [FLOATTYPE] step, the
    sub-step count and the device pointers. *)
Record launch := {
  l_num_comps : Z;
  l_dt : F;
  l_nsteps : Z;
  l_ptrs : list Z;
}.

Record func := {
  f_grid : Z;
  f_block : Z;
  prepared_async_call : Z -> Z -> launch -> M unit;
}.

End Device.
End Dev.
Export Dev.

Notation "x <- c ;; k" := (bind c (fun x => k))
  (at level 100, c at next level, right associativity).
Notation "c ;;; k" := (bind c (fun _ => k))
  (at level 100, right associativity).

(** ** Ordered dictionaries

    [self.inputs] and [self.internal_states] are built by dictionary
    comprehensions and iterated; their order is the order of first
    insertion, and a repeated key replaces the value in place. *)

Module ODict.

Definition t (A : Type) : Type := list (string * A).

Fixpoint get {A} (d : t A) (k : string) : option A :=
  match d with
  | [] => None
  | (k', v) :: d' => if decide (k' = k) then Some v else get d' k
  end.

Fixpoint set {A} (d : t A) (k : string) (v : A) : t A :=
  match d with
  | [] => [(k, v)]
  | (k', v') :: d' =>
      if decide (k' = k) then (k, v) :: d' else (k', v') :: set d' k v
  end.

Definition keys {A} (d : t A) : list string := map fst d.

End ODict.

(** ** BaseAxonHillockModel *)

Module Base.
Section BaseAxonHillockModel.
Context {FT : FloatType}.

(** [cuda.Context.get_device().MULTIPROCESSOR_COUNT]. *)
Variable MULTIPROCESSOR_COUNT : Z.

(** The class attribute [params]: a list of names, which the base
    class indexes with [self.params[0]], or (as in [Wilson]) an
    [OrderedDict] from names to default values. *)
Inductive params_decl :=
| ParamList (l : list string)
| ParamODict (d : ODict.t float).

(** [self.params[0]]. *)
Definition params_first (p : params_decl) : outcome string :=
  match p with
  | ParamList [] => Exn IndexError
  | ParamList (k :: _) => Val k
  | ParamODict _ => Exn (KeyError (IntKey 0))
  end.

(** [for k in self.params]. *)
Definition params_keys (p : params_decl) : list string :=
  match p with
  | ParamList l => l
  | ParamODict d => ODict.keys d
  end.

(** A value held by an attribute table of a class. *)
Inductive pyval :=
| PyFloat (x : float)
| PyStr (s : string)
| PyArr (a : garray).

(** The attributes of a model class that the base class and [Wilson]
    read.  [internals] is [None] for a class that does not define it.
    [get_update_func] is the method as the class resolves it. *)
Record model := {
  accesses : list string;
  updates : list string;
  params : params_decl;
  internals : option (ODict.t float);
  states : ODict.t pyval;
  max_dt : option float;
  get_update_func : list (string * dtype) -> Z -> M func;
}.

(** The instance attributes. *)
Record component := {
  cls : model;
  num_comps : Z;
  params_dict : gmap string garray;
  access_buffers : gmap string garray;
  dtype_self : dtype;
  dt : float;
  ddt : float;
  steps : Z;
  internal_states : ODict.t garray;
  inputs : ODict.t garray;
  self_states : ODict.t pyval;
  update_func : func;
}.

(** [BaseAxonHillockModel.get_update_func].  The CUDA compiler is
    outside the embedding: [template] stands for what
    [SourceModule(...).get_function("update")] gives for the template of
    the class, the kernel or ([None]) an exception.  What the method
    sets on the kernel, the block and the grid, is embedded here; the
    signature it prepares is [prepare_format] below. *)
Definition base_get_update_func
    (template : option (Z -> Z -> launch -> dstate -> option dstate))
    (dtypes : list (string * dtype)) (n : Z) : M func :=
  match template with
  | None => raise CudaError
  | Some k =>
      ret {| f_block := 128;
             f_grid := Z.min (6 * MULTIPROCESSOR_COUNT) ((n - 1) / 128 + 1);
             prepared_async_call := fun g b l => device_call (k g b l) |}
  end.

(** A dictionary comprehension [{k: f(k) for k in l}]. *)
Fixpoint dict_comprehension {A} (l : list string) (f : string -> M A)
    (acc : ODict.t A) : M (ODict.t A) :=
  match l with
  | [] => ret acc
  | k :: l' => v <- f k ;; dict_comprehension l' f (ODict.set acc k v)
  end.

Definition odict_getitem {A} (d : ODict.t A) (k : string) : M A :=
  match ODict.get d k with
  | Some v => ret v
  | None => raise (KeyError (StrKey k))
  end.

(** [BaseAxonHillockModel.__init__]. *)
Definition init (m : model) (params_dict : gmap string garray)
    (access_buffers : gmap string garray) (dt : float) : M component :=
  p0 <- lift (params_first (params m)) ;;
  a0 <- getitem params_dict p0 ;;
  let num_comps := Z.of_nat (size a0) in
  let dtype := dtype_of a0 in
  let ddt := 1e-6%float in
  q <- lift (int_of_float (dt / ddt)%float) ;;
  steps <- lift (np_int32 (Z.max q 1)) ;;
  ints <- match internals m with
          | Some d => ret d
          | None => raise (AttributeError "internals")
          end ;;
  internal_states <-
    dict_comprehension (ODict.keys ints)
      (fun c =>
         z <- garray_zeros (size a0) dtype ;;
         v <- odict_getitem ints c ;;
         garray_add z v)
      [] ;;
  inputs <-
    dict_comprehension (accesses m)
      (fun k =>
         b <- getitem access_buffers k ;;
         alloc (replicate (size a0) CU) (dtype_of b))
      [] ;;
  d_in <- comprehension (accesses m)
            (fun k => a <- odict_getitem inputs k ;; ret (k, dtype_of a)) ;;
  d_par <- comprehension (params_keys (params m))
             (fun k => a <- getitem params_dict k ;; ret (k, dtype_of a)) ;;
  d_int <- comprehension (ODict.keys ints)
             (fun k => a <- odict_getitem internal_states k ;;
                       ret (k, dtype_of a)) ;;
  let d_upd := map (fun k => (k, dtype)) (updates m) in
  let dtypes := ("dt"%string, dtype) :: d_in ++ d_par ++ d_int ++ d_upd in
  f <- get_update_func m dtypes num_comps ;;
  ret {| cls := m;
         num_comps := num_comps;
         params_dict := params_dict;
         access_buffers := access_buffers;
         dtype_self := dtype;
         dt := dt;
         ddt := ddt;
         steps := steps;
         internal_states := internal_states;
         inputs := inputs;
         self_states := states m;
         update_func := f |}.

(** [BaseAxonHillockModel.pre_run]. *)
Definition pre_run (self : component) (update_pointers : gmap string Z)
    : M unit :=
  match params_dict self !! "initV"%string with
  | Some initV =>
      pV <- getitem update_pointers "V" ;;
      (memcpy_dtod pV (gpudata initV) (size initV) ;;;
       iv <- odict_getitem (internal_states self) "internalV" ;;
       memcpy_dtod (gpudata iv) (gpudata initV) (size initV))
  | None => ret tt
  end.

(** [BaseAxonHillockModel.add_initializer]. *)
Definition add_initializer (self : component) (var_a var_b : string)
    (update_pointers : gmap string Z) : M unit :=
  match params_dict self !! var_a with
  | Some pa =>
      (match ODict.get (internal_states self) var_b with
       | Some iv => memcpy_dtod (gpudata iv) (gpudata pa) (size pa)
       | None => ret tt
       end) ;;;
      match update_pointers !! var_b with
      | Some p => memcpy_dtod p (gpudata pa) (size pa)
      | None => ret tt
      end
  | None => ret tt
  end.

(** The signature [get_update_func] prepares the kernel with.  A
    dictionary built by [update] calls keeps one entry per name, the
    last value given. *)
Fixpoint as_dict {A} (l : list (string * A)) (acc : ODict.t A) : ODict.t A :=
  match l with
  | [] => acc
  | kv :: l' => as_dict l' (ODict.set acc kv.1 kv.2)
  end.

(** [dtype_to_ctype] and [np.dtype(d).char]. *)
Definition dtype_to_ctype (d : dtype) : string :=
  match d with
  | float32 => "float"
  | float64 => "double"
  | int32 => "int"
  | int64 => "long"
  end.

Definition dtype_char (d : dtype) : string :=
  match d with
  | float32 => "f"
  | float64 => "d"
  | int32 => "i"
  | int64 => "l"
  end.

(** [type_dict] of [get_update_func]: the C type of every entry of
    [dtypes], and the entry ['fletter']. *)
Definition type_dict (dtypes : ODict.t dtype) (p0 : string)
    : M (ODict.t string) :=
  let td := map (fun kv => (kv.1, dtype_to_ctype kv.2)) dtypes in
  c0 <- odict_getitem td p0 ;;
  ret (ODict.set td "fletter"
         (if decide (c0 = "float"%string) then "f"%string else ""%string)).

Fixpoint repeat_string (s : string) (n : nat) : string :=
  match n with
  | O => ""
  | S n' => s ++ repeat_string s n'
  end.

(** ['i' + np.dtype(dtypes['dt']).char + 'i' + 'P' * (len(type_dict) - 2)];
    a string times a negative number is empty. *)
Definition prepare_format (dtypes : ODict.t dtype) (p0 : string) : M string :=
  td <- type_dict dtypes p0 ;;
  d <- odict_getitem dtypes "dt" ;;
  ret ("i" ++ dtype_char d ++ "i" ++ repeat_string "P" (length td - 2))%string.

(** [NDComponent.sum_in_variable(var, garr, st)] is inherited from a
    class whose source is not part of the development: a parameter. *)
Variable sum_in_variable : component -> string -> garray -> M unit.

(** The loop that opens both [run_step] methods.  A dictionary holds
    each key once, so the [self.inputs[k]] of the loop body is the array
    that [k] is paired with. *)
Definition reduce_inputs (self : component) : M unit :=
  for_each (inputs self) (fun '(k, garr) => sum_in_variable self k garr).

(** The pointer lists that both [run_step] methods pass. *)
Definition input_pointers (self : component) : M (list Z) :=
  comprehension (accesses (cls self))
    (fun k => a <- odict_getitem (inputs self) k ;; ret (gpudata a)).

Definition param_pointers (self : component) : M (list Z) :=
  comprehension (params_keys (params (cls self)))
    (fun k => a <- getitem (params_dict self) k ;; ret (gpudata a)).

Definition update_pointer_list (self : component)
    (update_pointers : gmap string Z) : M (list Z) :=
  comprehension (updates (cls self)) (fun k => getitem update_pointers k).

(** The arguments [BaseAxonHillockModel.run_step] launches with. *)
Definition launch_args (self : component) (update_pointers : gmap string Z)
    : M launch :=
  p_in <- input_pointers self ;;
  p_par <- param_pointers self ;;
  ints <- match internals (cls self) with
          | Some d => ret d
          | None => raise (AttributeError "internals")
          end ;;
  p_int <- comprehension (ODict.keys ints)
             (fun k => a <- odict_getitem (internal_states self) k ;;
                       ret (gpudata a)) ;;
  p_upd <- update_pointer_list self update_pointers ;;
  ret {| l_num_comps := num_comps self;
         l_dt := of_double (ddt self);
         l_nsteps := steps self;
         l_ptrs := p_in ++ p_par ++ p_int ++ p_upd |}.

(** [BaseAxonHillockModel.run_step].  The stream [st] orders the
    reductions and the kernel one after the other; the embedding runs
    them in that order. *)
Definition run_step (self : component) (update_pointers : gmap string Z)
    : M unit :=
  reduce_inputs self ;;;
  l <- launch_args self update_pointers ;;
  prepared_async_call (update_func self)
    (f_grid (update_func self)) (f_block (update_func self)) l.

End BaseAxonHillockModel.
End Base.

(** ** Wilson *)

Module Wilson.
Section Wilson.
Context {FT : FloatType}.
Variable MULTIPROCESSOR_COUNT : Z.

(** *** The CUDA kernel [update] *)

(** The kernel's pointer parameters, in the order of its signature. *)
Record kargs := {
  num_comps : Z;
  dt : F;
  nsteps : Z;
  g_I : Z;
  g_R : Z;
  g_internalV : Z;
  g_internalVprev1 : Z;
  g_internalVprev2 : Z;
  g_spike_state : Z;
  g_V : Z;
}.

(** The per-thread variables that live across the inner loop. *)
Record regs := {
  r_V : F;
  r_Vprev1 : F;
  r_Vprev2 : F;
  r_R : F;
  r_spike : Z;
}.

(** The test that increments [spike]; [V] is the updated voltage. *)
Definition spike_test (Vprev2 Vprev1 V : F) : bool :=
  fle Vprev2 Vprev1 && fge Vprev1 V && fgt Vprev1 (of_double 20).

(** One pass through the body of the inner loop. *)
Definition substep (dt I : F) (r : regs) : regs :=
  let V := r_V r in
  let R := r_R r in
  let R_infty := (of_double 0.0135 * V + of_double 1.03)%fl in
  let dR := (R_infty / of_double 1.9 - R / of_double 1.9)%fl in
  let dV :=
    (of_double 1.0 / of_double 0.8 *
       (I - of_double 1.0 *
              (of_double 17.81 + of_double 0.4771 * V
                 + of_double 0.003263 * V * V)
              * (V - of_double 55.0)
          - of_double 26.0 * R * (V + of_double 92.0)))%fl in
  let V' := (V + dt * dV)%fl in
  let R' := (R + dt * dR)%fl in
  let spike' :=
    r_spike r + (if spike_test (r_Vprev2 r) (r_Vprev1 r) V' then 1 else 0) in
  {| r_V := V';
     r_Vprev1 := V';
     r_Vprev2 := r_Vprev1 r;
     r_R := R';
     r_spike := spike' |}.

(** [for (int j = 0; j < nsteps; ++j)]: [n] passes. *)
Fixpoint inner_loop (n : nat) (dt I : F) (r : regs) : regs :=
  match n with
  | O => r
  | S n' => inner_loop n' dt I (substep dt I r)
  end.

Definition storeF (a : Z) (x : F) (s : dstate) : option dstate :=
  store a (CF x) s.

Definition storeI (a : Z) (n : Z) (s : dstate) : option dstate :=
  store a (CI n) s.

(** The body of the outer loop at component index [i]. *)
Definition update_at (a : kargs) (i : Z) (s : dstate) : option dstate :=
  I ← loadF s (g_I a + i);
  V ← loadF s (g_internalV a + i);
  Vprev1 ← loadF s (g_internalVprev1 a + i);
  Vprev2 ← loadF s (g_internalVprev2 a + i);
  R ← loadF s (g_R a + i);
  let r := inner_loop (Z.to_nat (nsteps a)) (dt a) I
             {| r_V := V; r_Vprev1 := Vprev1; r_Vprev2 := Vprev2;
                r_R := R; r_spike := 0 |} in
  s ← storeF (g_V a + i) (r_V r) s;
  s ← storeF (g_R a + i) (r_R r) s;
  s ← storeF (g_internalV a + i) (r_V r) s;
  s ← storeF (g_internalVprev1 a + i) (r_Vprev1 r) s;
  s ← storeF (g_internalVprev2 a + i) (r_Vprev2 r) s;
  storeI (g_spike_state a + i) (if 0 <? r_spike r then 1 else 0) s.

(** [tid], [total_threads] and [i] are [int]s.  A value outside the
    range of a 32-bit [int] is no thread count (the conversion of
    [gridDim.x * blockDim.x]) and no index (the signed overflow of
    [i += total_threads] is undefined): the embedding gives a launch in
    which one arises no result. *)
Definition to_int (x : Z) : option Z :=
  if (- 2 ^ 31 <=? x) && (x <? 2 ^ 31) then Some x else None.

(** One thread: [for (int i = tid; i < num_comps; i += total_threads)].
    The loop runs at most [num_comps] times when [total_threads] is
    positive; [fuel] bounds the passes. *)
Fixpoint thread_loop (a : kargs) (total_threads : Z) (fuel : nat) (i : Z)
    (s : dstate) : option dstate :=
  if i <? num_comps a then
    match fuel with
    | O => None
    | S fuel' =>
        s' ← update_at a i s;
        i' ← to_int (i + total_threads);
        thread_loop a total_threads fuel' i' s'
    end
  else Some s.

(** The threads of the grid, one after the other in the order of
    their [tid]. *)
Fixpoint run_threads (a : kargs) (total_threads : Z) (tids : list Z)
    (s : dstate) : option dstate :=
  match tids with
  | [] => Some s
  | tid :: tids' =>
      s' ← thread_loop a total_threads (Z.to_nat (num_comps a)) tid s;
      run_threads a total_threads tids' s'
  end.

(** A launch of [update] on a grid of [gridDim] blocks of [blockDim]
    threads.  An empty grid, or a pointer list that does not match the
    signature, fails the launch. *)
Definition kargs_of_launch (l : launch) : option kargs :=
  match l_ptrs l with
  | [pI; pR; pV; pV1; pV2; pS; pO] =>
      Some {| num_comps := l_num_comps l;
              dt := l_dt l;
              nsteps := l_nsteps l;
              g_I := pI; g_R := pR; g_internalV := pV;
              g_internalVprev1 := pV1; g_internalVprev2 := pV2;
              g_spike_state := pS; g_V := pO |}
  | _ => None
  end.

Definition update_kernel (gridDim blockDim : Z) (a : kargs) (s : dstate)
    : option dstate :=
  if (0 <? gridDim) && (0 <? blockDim) then
    total_threads ← to_int (gridDim * blockDim);
    run_threads a total_threads (seqZ 0 total_threads) s
  else None.

Definition update (gridDim blockDim : Z) (l : launch) (s : dstate)
    : option dstate :=
  a ← kargs_of_launch l; update_kernel gridDim blockDim a s.

(** *** The class *)

(** [Wilson.get_update_func(self)]: the kernel compiled from
    [cuda_src], with its block and grid ([/] on integers is the floor
    division of the Python 2 the file is written in). *)
Definition wilson_update_func (n : Z) : func :=
  {| f_block := 128;
     f_grid := Z.min (6 * MULTIPROCESSOR_COUNT) ((n - 1) / 128 + 1);
     prepared_async_call := fun g b l => device_call (update g b l) |}.

(** The class attributes.  [Wilson] defines [states] and no
    [internals]; its [get_update_func] takes no [dtypes], so the call
    [self.get_update_func(dtypes)] of the inherited constructor is a
    [TypeError]. *)
Definition Wilson : Base.model := {|
  Base.accesses := ["I"%string];
  Base.updates := ["spike_state"%string; "V"%string];
  Base.params := Base.ParamODict [];
  Base.internals := None;
  Base.states := [("R"%string, Base.PyFloat 0.088);
                  ("V"%string, Base.PyFloat (-70.0));
                  ("Vprev1"%string, Base.PyStr "V");
                  ("Vprev2"%string, Base.PyStr "V")];
  Base.max_dt := Some 1e-5%float;
  Base.get_update_func := fun _ _ => raise TypeError;
|}.

Variable sum_in_variable : Base.component -> string -> garray -> M unit.

(** [self.states[k].gpudata]. *)
Definition gpudata_of (v : Base.pyval) : M Z :=
  match v with
  | Base.PyArr a => ret (gpudata a)
  | _ => raise (AttributeError "gpudata")
  end.

(** The arguments [Wilson.run_step] launches with. *)
Definition launch_args (self : Base.component)
    (update_pointers : gmap string Z) : M launch :=
  p_in <- Base.input_pointers self ;;
  p_par <- Base.param_pointers self ;;
  p_st <- comprehension (ODict.keys (Base.self_states self))
            (fun k => v <- Base.odict_getitem (Base.self_states self) k ;;
                      gpudata_of v) ;;
  p_upd <- Base.update_pointer_list self update_pointers ;;
  ret {| l_num_comps := Base.num_comps self;
         l_dt := of_double (1000.0 * Base.dt self)%float;
         l_nsteps := Base.steps self;
         l_ptrs := p_in ++ p_par ++ p_st ++ p_upd |}.

(** [Wilson.run_step]. *)
Definition run_step (self : Base.component)
    (update_pointers : gmap string Z) : M unit :=
  Base.reduce_inputs sum_in_variable self ;;;
  l <- launch_args self update_pointers ;;
  prepared_async_call (Base.update_func self)
    (f_grid (Base.update_func self)) (f_block (Base.update_func self)) l.

End Wilson.
End Wilson.

(** ** NDComponent.sum_in_variable *)

Module NDComponent.
Section NDComponent.
Context {FT : FloatType}.

(** The connectivity the LPU configured: [incoming var i] lists the
    addresses, in the LPU's buffer of variable [var], of the values
    that the connections into port [i] deliver. *)
Variable incoming : string -> Z -> list Z.

(** The sum of the values at [srcs], added to [acc] from the left. *)
Fixpoint port_sum (s : dstate) (acc : F) (srcs : list Z) : option F :=
  match srcs with
  | [] => Some acc
  | a :: srcs' => x ← loadF s a; port_sum s (acc + x)%fl srcs'
  end.

Fixpoint port_sums (s : dstate) (var : string) (i : Z) (n : nat)
    : option (list cell) :=
  match n with
  | O => Some []
  | S n' =>
      x ← port_sum s (of_double 0) (incoming var i);
      xs ← port_sums s var (i + 1) n';
      Some (CF x :: xs)
  end.

(** Modelled from the spec: [NDComponent.sum_in_variable(var, garr)],
    whose source is not among the files of the development.  The
    specification fixes its reduction policy: "multiple incoming
    connections to one input port are summed".  Every port [i] of
    [garr] receives the sum of the values its incoming connections
    deliver (zero when it has none). *)
Definition sum_in_variable (self : Base.component) (var : string)
    (garr : garray) : M unit :=
  device_call (fun s =>
    cs ← port_sums s var 0 (size garr);
    store_range (gpudata garr) cs s).

End NDComponent.
End NDComponent.

(** * Properties *)

(** Membership in a list that is written out. *)
Ltac in_list :=
  repeat first [apply list_elem_of_here | apply list_elem_of_further].

(** ** Stores and the trace of stores *)

Module StoreFacts.
Section StoreFacts.
Context {FT : FloatType}.

(** The memory after a list of stores, oldest first. *)
Definition apply_writes (m : gmap Z cell) (ws : list (Z * cell))
    : gmap Z cell :=
  foldl (fun m w => <[w.1 := w.2]> m) m ws.

Fixpoint store_list (ws : list (Z * cell)) (s : dstate) : option dstate :=
  match ws with
  | [] => Some s
  | w :: ws' => s' ← store w.1 w.2 s; store_list ws' s'
  end.

Lemma store_Some a c s s' :
  store a c s = Some s' ->
  is_Some (mem s !! a) /\
  mem s' = <[a := c]> (mem s) /\ wlog s' = wlog s ++ [(a, c)] /\
  brk s' = brk s.
Proof.
  unfold store. destruct (mem s !! a) eqn:E; [|discriminate].
  intros [= <-]. simpl. eauto.
Qed.

Lemma store_is_Some a c s :
  is_Some (mem s !! a) -> is_Some (store a c s).
Proof. unfold store. intros [x ->]. eauto. Qed.

Lemma apply_writes_app m ws1 ws2 :
  apply_writes m (ws1 ++ ws2) = apply_writes (apply_writes m ws1) ws2.
Proof. apply foldl_app. Qed.

Lemma lookup_apply_writes_notin m ws a :
  a ∉ ws.*1 -> apply_writes m ws !! a = m !! a.
Proof.
  revert m. induction ws as [|[b c] ws IH]; intros m Hn; [done|].
  simpl in *. rewrite not_elem_of_cons in Hn. destruct Hn as [Hab Hn].
  rewrite IH by done. by rewrite lookup_insert_ne.
Qed.

Lemma lookup_apply_writes_in m ws a c :
  NoDup ws.*1 -> (a, c) ∈ ws -> apply_writes m ws !! a = Some c.
Proof.
  revert m. induction ws as [|[b d] ws IH]; intros m Hnd Hin.
  - by apply elem_of_nil in Hin.
  - simpl in *. apply NoDup_cons in Hnd as [Hb Hnd].
    apply elem_of_cons in Hin as [[= -> ->]|Hin].
    + rewrite lookup_apply_writes_notin by done. apply lookup_insert_eq.
    + by apply IH.
Qed.

Lemma apply_writes_mapped m ws a :
  is_Some (m !! a) -> is_Some (apply_writes m ws !! a).
Proof.
  revert m. induction ws as [|[b c] ws IH]; intros m Hm; [done|].
  simpl. apply IH. rewrite lookup_insert. case_decide; eauto.
Qed.

Lemma apply_writes_mapped_inv m ws a :
  Forall (fun w => is_Some (m !! w.1)) ws ->
  is_Some (apply_writes m ws !! a) -> is_Some (m !! a).
Proof.
  revert m. induction ws as [|[b c] ws IH]; intros m Hall Hm; [done|].
  simpl in *. apply Forall_cons in Hall as [Hb Hall].
  apply IH in Hm.
  - rewrite lookup_insert in Hm. case_decide; by subst.
  - eapply Forall_impl; [exact Hall|]. intros [x y] Hx. simpl in *.
    rewrite lookup_insert. case_decide; eauto.
Qed.

Lemma store_list_Some ws s s' :
  store_list ws s = Some s' ->
  Forall (fun w => is_Some (mem s !! w.1)) ws /\
  mem s' = apply_writes (mem s) ws /\ wlog s' = wlog s ++ ws /\
  brk s' = brk s.
Proof.
  revert s. induction ws as [|[a c] ws IH]; intros s H; simpl in *.
  - injection H as <-. by rewrite app_nil_r.
  - destruct (store a c s) as [s1|] eqn:E; [|discriminate]. simpl in H.
    apply store_Some in E as (Ha & Hm & Hl & Hb).
    apply IH in H as (Hall & Hm' & Hl' & Hb').
    rewrite Hm', Hl', Hb', Hm, Hl, Hb, <- app_assoc. split_and!; try done.
    constructor; [done|].
    eapply Forall_impl; [exact Hall|]. intros [x y]. simpl.
    rewrite Hm, lookup_insert. case_decide; by subst.
Qed.

Lemma store_list_is_Some ws s :
  Forall (fun w => is_Some (mem s !! w.1)) ws -> is_Some (store_list ws s).
Proof.
  revert s. induction ws as [|[a c] ws IH]; intros s Hall; simpl; [eauto|].
  apply Forall_cons in Hall as [Ha Hall]. simpl in Ha.
  destruct (store_is_Some a c s Ha) as [s1 E]. rewrite E. simpl.
  apply IH. apply store_Some in E as (_ & Hm & _).
  eapply Forall_impl; [exact Hall|]. intros [x y]. simpl.
  rewrite Hm, lookup_insert. case_decide; eauto.
Qed.

End StoreFacts.
End StoreFacts.

(** ** The kernel as a list of component indices *)

Module KernelFacts.
Import StoreFacts Wilson.
Section KernelFacts.
Context {FT : FloatType}.

(** The seven pointer parameters by name. *)
Inductive slot := sI | sR | sV | sV1 | sV2 | sS | sO.

#[export] Instance slot_eq_dec : EqDecision slot.
Proof. solve_decision. Defined.

Definition ptr (a : kargs) (p : slot) : Z :=
  match p with
  | sI => g_I a
  | sR => g_R a
  | sV => g_internalV a
  | sV1 => g_internalVprev1 a
  | sV2 => g_internalVprev2 a
  | sS => g_spike_state a
  | sO => g_V a
  end.

(** The seven arrays of [num_comps] elements do not overlap. *)
Definition separated (a : kargs) : Prop :=
  forall p q, p <> q ->
    ptr a p + num_comps a <= ptr a q \/ ptr a q + num_comps a <= ptr a p.

(** The variables a thread holds at index [i] when it enters the inner
    loop, and when it leaves it. *)
Definition load_regs (a : kargs) (s : dstate) (i : Z) : option (F * regs) :=
  I ← loadF s (g_I a + i);
  V ← loadF s (g_internalV a + i);
  Vprev1 ← loadF s (g_internalVprev1 a + i);
  Vprev2 ← loadF s (g_internalVprev2 a + i);
  R ← loadF s (g_R a + i);
  Some (I, {| r_V := V; r_Vprev1 := Vprev1; r_Vprev2 := Vprev2;
              r_R := R; r_spike := 0 |}).

Definition final_regs (a : kargs) (s : dstate) (i : Z) : option regs :=
  Ir ← load_regs a s i;
  Some (inner_loop (Z.to_nat (nsteps a)) (dt a) Ir.1 Ir.2).

(** The stores of one pass of the outer loop, in program order. *)
Definition spike_flag (r : regs) : Z := if 0 <? r_spike r then 1 else 0.

Definition cells_written (a : kargs) (i : Z) (r : regs) : list (Z * cell) :=
  [(g_V a + i, CF (r_V r));
   (g_R a + i, CF (r_R r));
   (g_internalV a + i, CF (r_V r));
   (g_internalVprev1 a + i, CF (r_Vprev1 r));
   (g_internalVprev2 a + i, CF (r_Vprev2 r));
   (g_spike_state a + i, CI (spike_flag r))].

Definition written_slots : list slot := [sO; sR; sV; sV1; sV2; sS].
Definition read_slots : list slot := [sI; sV; sV1; sV2; sR].

Definition stores_at (a : kargs) (s : dstate) (i : Z) : list (Z * cell) :=
  match final_regs a s i with
  | Some r => cells_written a i r
  | None => []
  end.

Fixpoint run_indices (a : kargs) (L : list Z) (s : dstate)
    : option dstate :=
  match L with
  | [] => Some s
  | i :: L' => s' ← update_at a i s; run_indices a L' s'
  end.

(** The indices one thread visits, in order. *)
Fixpoint thread_indices (n T : Z) (fuel : nat) (i : Z) : list Z :=
  if i <? n then
    match fuel with
    | O => []
    | S fuel' => i :: thread_indices n T fuel' (i + T)
    end
  else [].

(** The indices the grid visits, thread after thread. *)
Definition grid_indices (n T : Z) : list Z :=
  seqZ 0 T ≫= thread_indices n T (Z.to_nat n).

Lemma update_at_eq a i s :
  update_at a i s = r ← final_regs a s i; store_list (cells_written a i r) s.
Proof.
  unfold update_at, final_regs, load_regs.
  destruct (loadF s (g_I a + i)); [|done].
  destruct (loadF s (g_internalV a + i)); [|done].
  destruct (loadF s (g_internalVprev1 a + i)); [|done].
  destruct (loadF s (g_internalVprev2 a + i)); [|done].
  destruct (loadF s (g_R a + i)); [|done].
  simpl. unfold storeF, storeI, spike_flag.
  repeat (match goal with
          | |- context [store ?x ?c ?t] =>
              destruct (store x c t); simpl; [|done]
          end).
  done.
Qed.

Lemma run_indices_app a L1 L2 s :
  run_indices a (L1 ++ L2) s = s' ← run_indices a L1 s; run_indices a L2 s'.
Proof.
  revert s. induction L1 as [|i L1 IH]; intros s; simpl; [done|].
  destruct (update_at a i s); simpl; [apply IH|done].
Qed.

Lemma to_int_Some x y : to_int x = Some y <-> y = x /\ - 2 ^ 31 <= x < 2 ^ 31.
Proof.
  unfold to_int. destruct (Z.leb_spec (- 2 ^ 31) x);
    destruct (Z.ltb_spec x (2 ^ 31)); simpl; split;
    try (intros [= <-]; lia); try (intros [-> ?]; done); try lia; done.
Qed.

(** The launches of [T] threads over [n] indices whose thread count
    and indices are [int]s. *)
Definition int_launch (n T : Z) : Prop :=
  T < 2 ^ 31 /\ (n <= 0 \/ n + T <= 2 ^ 31).

Lemma thread_loop_indices a T fuel i s :
  0 < T -> 0 <= i -> num_comps a <= 0 \/ num_comps a + T <= 2 ^ 31 ->
  (Z.to_nat (num_comps a - i) <= fuel)%nat ->
  thread_loop a T fuel i s
  = run_indices a (thread_indices (num_comps a) T fuel i) s.
Proof.
  intros HT Hi Hn. revert i s Hi.
  induction fuel as [|fuel IH]; intros i s Hi Hf; simpl.
  - destruct (i <? num_comps a) eqn:E; [|done].
    apply Z.ltb_lt in E. lia.
  - destruct (i <? num_comps a) eqn:E; [|done]. simpl.
    apply Z.ltb_lt in E.
    destruct (update_at a i s); simpl; [|done].
    assert (to_int (i + T) = Some (i + T)) as ->
      by (apply to_int_Some; lia).
    simpl. apply IH; lia.
Qed.

(** A returning thread computed indices within [int] only. *)
Lemma thread_loop_Some a T fuel i s s' :
  thread_loop a T fuel i s = Some s' ->
  forall x, x ∈ thread_indices (num_comps a) T fuel i -> x + T < 2 ^ 31.
Proof.
  revert i s. induction fuel as [|fuel IH]; intros i s H x Hx; simpl in *.
  - destruct (i <? num_comps a); [done|by apply elem_of_nil in Hx].
  - destruct (i <? num_comps a); [|by apply elem_of_nil in Hx].
    destruct (update_at a i s) as [s1|]; [|done].
    cbn [mbind option_bind] in H.
    destruct (to_int (i + T)) as [i'|] eqn:Ei; [|done].
    apply to_int_Some in Ei as [-> Hr]. cbn [mbind option_bind] in H.
    apply elem_of_cons in Hx as [->|Hx]; [lia|]. by eapply IH.
Qed.

Lemma run_threads_indices a T tids s :
  0 < T -> num_comps a <= 0 \/ num_comps a + T <= 2 ^ 31 ->
  Forall (fun t => 0 <= t) tids ->
  run_threads a T tids s
  = run_indices a (tids ≫= thread_indices (num_comps a) T
                                (Z.to_nat (num_comps a))) s.
Proof.
  intros HT Hn. revert s.
  induction tids as [|t tids IH]; intros s Hall; [done|].
  apply Forall_cons in Hall as [Ht Hall].
  rewrite bind_cons, run_indices_app. cbn [run_threads].
  rewrite thread_loop_indices by (done || lia).
  destruct (run_indices _ _ s); simpl; [by apply IH|done].
Qed.

Lemma run_threads_Some a T tids s s' :
  run_threads a T tids s = Some s' ->
  forall x, x ∈ tids ≫= thread_indices (num_comps a) T
                          (Z.to_nat (num_comps a)) ->
            x + T < 2 ^ 31.
Proof.
  revert s. induction tids as [|t tids IH]; intros s H x Hx.
  - by apply elem_of_nil in Hx.
  - cbn [run_threads] in H.
    destruct (thread_loop a T (Z.to_nat (num_comps a)) t s) as [s1|] eqn:E;
      [|done].
    cbn [mbind option_bind] in H. rewrite bind_cons in Hx.
    apply elem_of_app in Hx as [Hx|Hx].
    + by eapply thread_loop_Some.
    + by eapply IH.
Qed.

(** The kernel is the sequence of outer-loop bodies at [grid_indices]. *)
Lemma update_kernel_indices gridDim blockDim a s :
  0 < gridDim -> 0 < blockDim ->
  int_launch (num_comps a) (gridDim * blockDim) ->
  update_kernel gridDim blockDim a s
  = run_indices a (grid_indices (num_comps a) (gridDim * blockDim)) s.
Proof.
  intros Hg Hb [HT Hn]. unfold update_kernel, grid_indices.
  destruct (Z.ltb_spec 0 gridDim); [|lia].
  destruct (Z.ltb_spec 0 blockDim); [|lia]. simpl.
  assert (to_int (gridDim * blockDim) = Some (gridDim * blockDim)) as ->
    by (apply to_int_Some; split; [done|nia]).
  simpl. apply run_threads_indices; [nia|done|].
  apply Forall_forall. intros t Ht%elem_of_seqZ. lia.
Qed.

Lemma elem_of_thread_indices n T fuel i x :
  0 < T -> (Z.to_nat (n - i) <= fuel)%nat ->
  x ∈ thread_indices n T fuel i <-> i <= x < n /\ (x - i) mod T = 0.
Proof.
  intros HT. revert i. induction fuel as [|fuel IH]; intros i Hf; simpl.
  - destruct (Z.ltb_spec i n); [lia|]. rewrite elem_of_nil. lia.
  - destruct (Z.ltb_spec i n); [|rewrite elem_of_nil; lia].
    rewrite elem_of_cons, IH by lia. split.
    + intros [->|[Hx Hm]].
      * rewrite Z.sub_diag, Z.mod_0_l by lia. lia.
      * split; [lia|].
        replace (x - i) with (x - (i + T) + 1 * T) by lia.
        by rewrite Z.mod_add by lia.
    + intros [Hx Hm].
      destruct (decide (x = i)) as [->|Hne]; [by left|right].
      assert (x - i = T * ((x - i) / T)) as Hd.
      { rewrite (Z.div_mod (x - i) T) at 1 by lia. lia. }
      assert (1 <= (x - i) / T) as Hk by nia.
      split; [nia|].
      replace (x - (i + T)) with (x - i + (-1) * T) by lia.
      by rewrite Z.mod_add by lia.
Qed.

Lemma NoDup_thread_indices n T fuel i :
  0 < T -> NoDup (thread_indices n T fuel i).
Proof.
  intros HT. revert i. induction fuel as [|fuel IH]; intros i; simpl.
  - destruct (i <? n); constructor.
  - destruct (i <? n); [|constructor]. constructor; [|apply IH].
    clear IH. generalize (i + T), (Z.lt_add_pos_r T i HT).
    induction fuel as [|fuel IH]; intros j Hj; simpl.
    + destruct (j <? n); apply not_elem_of_nil.
    + destruct (j <? n); [|apply not_elem_of_nil].
      apply not_elem_of_cons. split; [lia|]. apply IH. lia.
Qed.

Lemma elem_of_grid_indices n T x :
  0 < T -> x ∈ grid_indices n T <-> 0 <= x < n.
Proof.
  intros HT. unfold grid_indices. rewrite list_elem_of_bind. split.
  - intros (t & Hx & Ht%elem_of_seqZ).
    apply elem_of_thread_indices in Hx; lia.
  - intros Hx. exists (x mod T).
    pose proof (Z.mod_pos_bound x T HT) as Hb.
    pose proof (Z.mod_le x T ltac:(lia) HT) as Hle.
    split.
    + apply elem_of_thread_indices; [done|lia|]. split; [lia|].
      rewrite Zminus_mod_idemp_r, Z.sub_diag. by apply Z.mod_0_l; lia.
    + apply elem_of_seqZ. lia.
Qed.

(** A returning launch is one whose thread count and indices are
    [int]s. *)
Lemma update_kernel_int_launch gridDim blockDim a s s' :
  0 < gridDim -> 0 < blockDim ->
  update_kernel gridDim blockDim a s = Some s' ->
  int_launch (num_comps a) (gridDim * blockDim).
Proof.
  intros Hg Hb H. unfold update_kernel in H.
  destruct (Z.ltb_spec 0 gridDim); [|lia].
  destruct (Z.ltb_spec 0 blockDim); [|lia]. simpl in H.
  destruct (to_int (gridDim * blockDim)) as [T|] eqn:ET; [|done].
  apply to_int_Some in ET as [-> HT]. cbn [mbind option_bind] in H.
  split; [lia|].
  destruct (Z.le_gt_cases (num_comps a) 0) as [|Hn]; [by left|right].
  pose proof (run_threads_Some _ _ _ _ _ H (num_comps a - 1)) as Hx.
  fold (grid_indices (num_comps a) (gridDim * blockDim)) in Hx.
  rewrite elem_of_grid_indices in Hx by nia. lia.
Qed.

Lemma update_kernel_Some_indices gridDim blockDim a s s' :
  0 < gridDim -> 0 < blockDim ->
  update_kernel gridDim blockDim a s = Some s' ->
  run_indices a (grid_indices (num_comps a) (gridDim * blockDim)) s = Some s'.
Proof.
  intros Hg Hb H. rewrite <- H. symmetry. apply update_kernel_indices; [done..|].
  by eapply update_kernel_int_launch.
Qed.

Lemma NoDup_grid_indices n T : 0 < T -> NoDup (grid_indices n T).
Proof.
  intros HT. unfold grid_indices. apply NoDup_bind.
  - intros t1 t2 x Ht1%elem_of_seqZ Ht2%elem_of_seqZ Hx1 Hx2.
    apply elem_of_thread_indices in Hx1 as [_ H1]; [|done|lia].
    apply elem_of_thread_indices in Hx2 as [_ H2]; [|done|lia].
    assert ((t2 - t1) mod T = 0) as Hd.
    { replace (t2 - t1) with ((x - t1) - (x - t2)) by lia.
      by rewrite Zminus_mod, H1, H2. }
    destruct (decide (t1 <= t2)).
    + rewrite Z.mod_small in Hd by lia. lia.
    + assert ((t1 - t2) mod T = 0) as Hd'.
      { replace (t1 - t2) with ((x - t2) - (x - t1)) by lia.
        by rewrite Zminus_mod, H1, H2. }
      rewrite Z.mod_small in Hd' by lia. lia.
  - intros t _. by apply NoDup_thread_indices.
  - apply NoDup_seqZ.
Qed.

(** *** Separation of the arrays *)

Lemma ptr_inj a p q i j :
  separated a ->
  0 <= i < num_comps a -> 0 <= j < num_comps a ->
  ptr a p + i = ptr a q + j -> p = q /\ i = j.
Proof.
  intros Hsep Hi Hj Heq.
  destruct (decide (p = q)) as [->|Hne]; [split; [done|lia]|].
  destruct (Hsep p q Hne); lia.
Qed.

Lemma cells_written_addrs a i r :
  (cells_written a i r).*1 = (fun p => ptr a p + i) <$> written_slots.
Proof. reflexivity. Qed.

Lemma NoDup_written_slots : NoDup written_slots.
Proof. by apply (bool_decide_unpack _). Qed.

Lemma NoDup_cells_written a i r :
  separated a -> 0 <= i < num_comps a -> NoDup (cells_written a i r).*1.
Proof.
  intros Hsep Hi. rewrite cells_written_addrs.
  apply NoDup_fmap_2_strong; [|apply NoDup_written_slots].
  intros p q _ _ Heq. by apply (ptr_inj a p q i i).
Qed.

Lemma final_regs_ext a s1 s2 i :
  (forall p, p ∈ read_slots ->
     mem s1 !! (ptr a p + i) = mem s2 !! (ptr a p + i)) ->
  final_regs a s1 i = final_regs a s2 i.
Proof.
  intros H.
  pose proof (H sI ltac:(unfold read_slots; in_list)) as HI.
  pose proof (H sV ltac:(unfold read_slots; in_list)) as HV.
  pose proof (H sV1 ltac:(unfold read_slots; in_list)) as HV1.
  pose proof (H sV2 ltac:(unfold read_slots; in_list)) as HV2.
  pose proof (H sR ltac:(unfold read_slots; in_list)) as HR.
  simpl in *. unfold final_regs, load_regs, loadF.
  by rewrite HI, HV, HV1, HV2, HR.
Qed.

Lemma final_regs_frame a s s1 i j r :
  separated a ->
  0 <= i < num_comps a -> 0 <= j < num_comps a -> i <> j ->
  mem s1 = apply_writes (mem s) (cells_written a i r) ->
  final_regs a s1 j = final_regs a s j.
Proof.
  intros Hsep Hi Hj Hne Hm. apply final_regs_ext. intros p _.
  rewrite Hm. apply lookup_apply_writes_notin.
  rewrite cells_written_addrs. intros (q & Heq & _)%list_elem_of_fmap.
  apply (ptr_inj a p q j i) in Heq; [lia|done..].
Qed.

Lemma bind_ext_in {A B} (f g : A -> list B) (l : list A) :
  (forall x, x ∈ l -> f x = g x) -> l ≫= f = l ≫= g.
Proof.
  induction l as [|x l IH]; intros H; [done|].
  rewrite !bind_cons, (H x), IH by set_solver. done.
Qed.

(** *** What a run over distinct indices does *)

Lemma run_indices_Some a L s s' :
  separated a -> NoDup L ->
  (forall i, i ∈ L -> 0 <= i < num_comps a) ->
  run_indices a L s = Some s' ->
  (forall i, i ∈ L -> is_Some (final_regs a s i)) /\
  Forall (fun w => is_Some (mem s !! w.1)) (L ≫= stores_at a s) /\
  mem s' = apply_writes (mem s) (L ≫= stores_at a s) /\
  wlog s' = wlog s ++ (L ≫= stores_at a s) /\
  brk s' = brk s.
Proof.
  intros Hsep. revert s.
  induction L as [|i L IH]; intros s Hnd Hrng Hrun.
  - injection Hrun as <-. split_and!; try done.
    + intros i Hi. by apply elem_of_nil in Hi.
    + csimpl. by rewrite app_nil_r.
  - apply NoDup_cons in Hnd as [Hi Hnd].
    cbn [run_indices] in Hrun. rewrite update_at_eq in Hrun.
    destruct (final_regs a s i) as [r|] eqn:Er; [|discriminate].
    cbn [mbind option_bind] in Hrun.
    destruct (store_list (cells_written a i r) s) as [s1|] eqn:Es;
      [|discriminate].
    cbn [mbind option_bind] in Hrun.
    apply store_list_Some in Es as (Hall1 & Hm1 & Hl1 & Hb1).
    apply IH in Hrun as (Hregs & Hall & Hm & Hl & Hb);
      [|done|intros; apply Hrng, elem_of_cons; by right].
    assert (forall j, j ∈ L -> final_regs a s1 j = final_regs a s j) as Hfr.
    { intros j Hj. apply (final_regs_frame a s s1 i j r); try done.
      - apply Hrng, elem_of_cons; by left.
      - apply Hrng, elem_of_cons; by right.
      - intros ->. done. }
    assert (L ≫= stores_at a s1 = L ≫= stores_at a s) as Hst.
    { apply bind_ext_in. intros j Hj. unfold stores_at. by rewrite Hfr. }
    rewrite Hst in *.
    rewrite bind_cons. unfold stores_at at 1 3 5. rewrite Er.
    split_and!.
    + intros j [->|Hj]%elem_of_cons; [by rewrite Er|].
      rewrite <- Hfr by done. by apply Hregs.
    + apply Forall_app. split; [done|].
      eapply Forall_impl; [exact Hall|]. intros w Hw. simpl in Hw.
      rewrite Hm1 in Hw. by apply apply_writes_mapped_inv in Hw.
    + by rewrite apply_writes_app, <- Hm1.
    + by rewrite Hl, Hl1, <- app_assoc.
    + congruence.
Qed.

Lemma run_indices_is_Some a L s :
  separated a -> NoDup L ->
  (forall i, i ∈ L -> 0 <= i < num_comps a) ->
  (forall i, i ∈ L -> is_Some (final_regs a s i)) ->
  (forall i p, i ∈ L -> p ∈ written_slots ->
     is_Some (mem s !! (ptr a p + i))) ->
  is_Some (run_indices a L s).
Proof.
  intros Hsep. revert s.
  induction L as [|i L IH]; intros s Hnd Hrng Hregs Hmap; [by eexists|].
  apply NoDup_cons in Hnd as [Hi Hnd].
  cbn [run_indices]. rewrite update_at_eq.
  destruct (Hregs i) as [r Er]; [apply elem_of_cons; by left|]. rewrite Er. cbn [mbind option_bind].
  destruct (store_list_is_Some (cells_written a i r) s) as [s1 Es].
  { apply Forall_forall. intros [x c] Hx. simpl.
    assert (x ∈ (cells_written a i r).*1) as Hx'.
    { apply list_elem_of_fmap. by exists (x, c). }
    rewrite cells_written_addrs in Hx'.
    apply list_elem_of_fmap in Hx' as (p & -> & Hp).
    apply Hmap; [apply elem_of_cons; by left|done]. }
  rewrite Es. cbn [mbind option_bind].
  apply store_list_Some in Es as (_ & Hm1 & _).
  apply IH; [done|intros; apply Hrng, elem_of_cons; by right| |].
  - intros j Hj. rewrite (final_regs_frame a s s1 i j r); try done.
    + apply Hregs, elem_of_cons; by right.
    + apply Hrng, elem_of_cons; by left.
    + apply Hrng, elem_of_cons; by right.
    + intros ->. done.
  - intros j p Hj Hp. rewrite Hm1. apply apply_writes_mapped.
    apply Hmap; [apply elem_of_cons; by right|done].
Qed.

Lemma fmap_bind_list {A B C} (f : B -> C) (g : A -> list B) (l : list A) :
  f <$> (l ≫= g) = l ≫= (fun x => f <$> g x).
Proof.
  induction l as [|x l IH]; [done|].
  by rewrite !bind_cons, fmap_app, IH.
Qed.

Lemma stores_at_addr a s i x :
  x ∈ (stores_at a s i).*1 -> exists p, p ∈ written_slots /\ x = ptr a p + i.
Proof.
  unfold stores_at. destruct (final_regs a s i) as [r|].
  - rewrite cells_written_addrs. intros (p & -> & Hp)%list_elem_of_fmap.
    eauto.
  - intros H. by apply elem_of_nil in H.
Qed.

Lemma NoDup_stores a s L :
  separated a -> NoDup L ->
  (forall i, i ∈ L -> 0 <= i < num_comps a) ->
  NoDup (L ≫= stores_at a s).*1.
Proof.
  intros Hsep Hnd Hrng. rewrite fmap_bind_list. apply NoDup_bind; [| |done].
  - intros i j x Hi Hj (p & _ & ->)%stores_at_addr (q & _ & Hq)%stores_at_addr.
    apply (ptr_inj a p q i j) in Hq as [_ ?]; auto.
  - intros i Hi. unfold stores_at. destruct (final_regs a s i).
    + apply NoDup_cells_written; auto.
    + constructor.
Qed.

Lemma elem_of_stores a s L i r w :
  i ∈ L -> final_regs a s i = Some r -> w ∈ cells_written a i r ->
  w ∈ L ≫= stores_at a s.
Proof.
  intros Hi Hr Hw. apply list_elem_of_bind. exists i. split; [|done].
  unfold stores_at. by rewrite Hr.
Qed.

(** The content of the six arrays at index [i] after a launch. *)
Definition post_cells (a : kargs) (i : Z) (r : regs) (s' : dstate) : Prop :=
  Forall (fun w => mem s' !! w.1 = Some w.2) (cells_written a i r).

Lemma update_kernel_Some gridDim blockDim a s s' :
  0 < gridDim -> 0 < blockDim -> separated a ->
  update_kernel gridDim blockDim a s = Some s' ->
  let W := grid_indices (num_comps a) (gridDim * blockDim)
             ≫= stores_at a s in
  (forall i, 0 <= i < num_comps a ->
     exists r, final_regs a s i = Some r /\ post_cells a i r s') /\
  NoDup W.*1 /\
  mem s' = apply_writes (mem s) W /\
  wlog s' = wlog s ++ W /\
  brk s' = brk s.
Proof.
  intros Hg Hb Hsep Hrun W.
  assert (0 < gridDim * blockDim) as HT by nia.
  apply update_kernel_Some_indices in Hrun; [|done..].
  pose proof (NoDup_grid_indices (num_comps a) _ HT) as Hnd.
  assert (forall i, i ∈ grid_indices (num_comps a) (gridDim * blockDim) ->
                    0 <= i < num_comps a) as Hrng.
  { intros i. by rewrite elem_of_grid_indices. }
  apply run_indices_Some in Hrun as (Hregs & _ & Hm & Hl & Hbrk); try done.
  pose proof (NoDup_stores a s _ Hsep Hnd Hrng) as HndW.
  split_and!; try done.
  intros i Hi. destruct (Hregs i) as [r Hr]; [by apply elem_of_grid_indices|].
  exists r. split; [done|]. apply Forall_forall. intros [x c] Hw. simpl.
  rewrite Hm. apply lookup_apply_writes_in; [done|].
  eapply elem_of_stores; [|done..]. by apply elem_of_grid_indices.
Qed.

(** *** The inner loop *)

Lemma inner_loop_S n dt I r :
  inner_loop (S n) dt I r = substep dt I (inner_loop n dt I r).
Proof.
  revert r. induction n as [|n IH]; intros r; [done|].
  change (inner_loop (S (S n)) dt I r)
    with (inner_loop (S n) dt I (substep dt I r)).
  by rewrite IH.
Qed.

Lemma inner_loop_mirror n dt I r :
  (0 < n)%nat ->
  r_Vprev1 (inner_loop n dt I r) = r_V (inner_loop n dt I r).
Proof. destruct n; [lia|]. intros _. by rewrite inner_loop_S. Qed.

(** The test of the pass that starts from [r]. *)
Definition spike_detected (dt I : F) (r : regs) : bool :=
  spike_test (r_Vprev2 r) (r_Vprev1 r) (r_V (substep dt I r)).

Lemma spike_detected_true dt I r :
  spike_detected dt I r = true <->
  fle (r_Vprev2 r) (r_Vprev1 r) = true /\
  fge (r_Vprev1 r) (r_V (substep dt I r)) = true /\
  fgt (r_Vprev1 r) (of_double 20) = true.
Proof.
  unfold spike_detected, spike_test. rewrite !andb_true_iff. tauto.
Qed.

Lemma substep_spike dt I r :
  r_spike (substep dt I r)
  = r_spike r + (if spike_detected dt I r then 1 else 0).
Proof. reflexivity. Qed.

(** [spike] counts passes: it stays within [0, nsteps], so the [int]
    arithmetic of the kernel never overflows. *)
Lemma spike_bounds n dt I r :
  r_spike r <= r_spike (inner_loop n dt I r) <= r_spike r + Z.of_nat n.
Proof.
  induction n as [|n IH]; [simpl; lia|].
  rewrite inner_loop_S, substep_spike.
  destruct (spike_detected dt I _); lia.
Qed.

Lemma spike_positive_iff n dt I r :
  r_spike r < r_spike (inner_loop n dt I r) <->
  exists j, (j < n)%nat /\ spike_detected dt I (inner_loop j dt I r) = true.
Proof.
  induction n as [|n IH].
  - simpl. split; [lia|]. intros (j & Hj & _). lia.
  - rewrite inner_loop_S, substep_spike.
    destruct (spike_detected dt I (inner_loop n dt I r)) eqn:E.
    + split; [eauto|]. intros _. pose proof (spike_bounds n dt I r). lia.
    + rewrite Z.add_0_r, IH. split.
      * intros (j & Hj & Hd). exists j. split; [lia|done].
      * intros (j & Hj & Hd). exists j. split; [|done].
        destruct (decide (j = n)) as [->|]; [congruence|lia].
Qed.

Lemma load_regs_spike a s i I r0 :
  load_regs a s i = Some (I, r0) -> r_spike r0 = 0.
Proof.
  unfold load_regs. intros H.
  repeat (match type of H with
          | context [loadF ?s ?x] => destruct (loadF s x); [|discriminate]
          end; cbn [mbind option_bind] in H).
  by injection H as _ <-.
Qed.

Lemma load_regs_Some a s i I r0 :
  load_regs a s i = Some (I, r0) ->
  mem s !! (g_I a + i) = Some (CF I) /\
  mem s !! (g_internalV a + i) = Some (CF (r_V r0)) /\
  mem s !! (g_internalVprev1 a + i) = Some (CF (r_Vprev1 r0)) /\
  mem s !! (g_internalVprev2 a + i) = Some (CF (r_Vprev2 r0)) /\
  mem s !! (g_R a + i) = Some (CF (r_R r0)) /\
  r_spike r0 = 0.
Proof.
  unfold load_regs, loadF. intros H.
  destruct (mem s !! (g_I a + i)) as [[x1| |]|]; try done.
  destruct (mem s !! (g_internalV a + i)) as [[x2| |]|]; try done.
  destruct (mem s !! (g_internalVprev1 a + i)) as [[x3| |]|]; try done.
  destruct (mem s !! (g_internalVprev2 a + i)) as [[x4| |]|]; try done.
  destruct (mem s !! (g_R a + i)) as [[x5| |]|]; try done.
  by injection H as <- <-.
Qed.

Lemma final_regs_load a s i r :
  final_regs a s i = Some r ->
  exists I r0, load_regs a s i = Some (I, r0) /\
    r = inner_loop (Z.to_nat (nsteps a)) (dt a) I r0.
Proof.
  unfold final_regs. destruct (load_regs a s i) as [[I r0]|]; [|done].
  intros [= <-]. eauto.
Qed.

Lemma post_cells_lookup a i r s' :
  post_cells a i r s' ->
  mem s' !! (g_V a + i) = Some (CF (r_V r)) /\
  mem s' !! (g_R a + i) = Some (CF (r_R r)) /\
  mem s' !! (g_internalV a + i) = Some (CF (r_V r)) /\
  mem s' !! (g_internalVprev1 a + i) = Some (CF (r_Vprev1 r)) /\
  mem s' !! (g_internalVprev2 a + i) = Some (CF (r_Vprev2 r)) /\
  mem s' !! (g_spike_state a + i) = Some (CI (spike_flag r)).
Proof.
  unfold post_cells, cells_written. rewrite !Forall_cons. simpl. tauto.
Qed.

Lemma loadF_mapped s x : is_Some (loadF s x) -> is_Some (mem s !! x).
Proof. unfold loadF. destruct (mem s !! x); [eauto|by intros [? ?]]. Qed.

Lemma load_regs_mapped a s i p :
  is_Some (load_regs a s i) -> p ∈ read_slots ->
  is_Some (mem s !! (ptr a p + i)).
Proof.
  unfold load_regs. intros [Ir H] Hp.
  destruct (loadF s (g_I a + i)) eqn:EI; [|done].
  destruct (loadF s (g_internalV a + i)) eqn:EV; [|done].
  destruct (loadF s (g_internalVprev1 a + i)) eqn:EV1; [|done].
  destruct (loadF s (g_internalVprev2 a + i)) eqn:EV2; [|done].
  destruct (loadF s (g_R a + i)) eqn:ER; [|done].
  unfold read_slots in Hp. rewrite !elem_of_cons, elem_of_nil in Hp.
  destruct Hp as [ -> | [ -> | [ -> | [ -> | [ -> | [] ] ] ] ] ];
    simpl; apply loadF_mapped; eauto.
Qed.

(** A launch on a non-empty grid returns: every thread leaves its loop,
    and no access faults when the arrays are as the signature says. *)
Lemma update_kernel_is_Some gridDim blockDim a s :
  0 < gridDim -> 0 < blockDim -> separated a ->
  int_launch (num_comps a) (gridDim * blockDim) ->
  (forall i, 0 <= i < num_comps a -> is_Some (load_regs a s i)) ->
  (forall i, 0 <= i < num_comps a ->
     is_Some (mem s !! (g_V a + i)) /\
     is_Some (mem s !! (g_spike_state a + i))) ->
  is_Some (update_kernel gridDim blockDim a s).
Proof.
  intros Hg Hb Hsep Hint Hld Hout.
  assert (0 < gridDim * blockDim) as HT by nia.
  rewrite update_kernel_indices by done.
  apply run_indices_is_Some; try done.
  - by apply NoDup_grid_indices.
  - intros i. by rewrite elem_of_grid_indices.
  - intros i Hi%elem_of_grid_indices; [|done]. unfold final_regs.
    destruct (Hld i Hi) as [Ir ->]. by eexists.
  - intros i p Hi%elem_of_grid_indices Hp; [|done].
    unfold written_slots in Hp. rewrite !elem_of_cons, elem_of_nil in Hp.
    destruct Hp as [ -> | [ Hp | [ Hp | [ Hp | [ Hp | [ -> | [] ] ] ] ] ] ];
      try (subst p; apply load_regs_mapped;
           [by apply Hld|unfold read_slots; in_list]);
      simpl; by apply Hout.
Qed.

(** C9. After a launch of Wilson's [update] with [nsteps >= 1] on
    non-overlapping arrays, at every component index [i] the published
    voltage [g_V[i]], the persistent voltage [g_internalV[i]] and the
    history [g_internalVprev1[i]] hold one and the same value. *)
Theorem update_output_mirrors_state gridDim blockDim a s s' i :
  0 < gridDim -> 0 < blockDim -> separated a ->
  1 <= nsteps a -> 0 <= i < num_comps a ->
  update_kernel gridDim blockDim a s = Some s' ->
  exists v,
    mem s' !! (g_V a + i) = Some (CF v) /\
    mem s' !! (g_internalV a + i) = Some (CF v) /\
    mem s' !! (g_internalVprev1 a + i) = Some (CF v).
Proof.
  intros Hg Hb Hsep Hn Hi Hrun.
  apply update_kernel_Some in Hrun as (Hpost & _); try done.
  destruct (Hpost i Hi) as (r & Hr & Hc).
  apply post_cells_lookup in Hc as (HV & _ & HiV & HiV1 & _).
  apply final_regs_load in Hr as (I & r0 & _ & ->).
  rewrite inner_loop_mirror in HiV1 by lia. eauto.
Qed.

(** C10. At every component index the launch stores 0 or 1 into
    [g_spike_state]; it stores 1 exactly when some pass [j < nsteps] of
    the inner loop found [Vprev2 <= Vprev1], [Vprev1 >= V] (the voltage
    just updated) and [Vprev1 > 20]: however many passes do, one spike
    is published. *)
Theorem update_spike_state_flag gridDim blockDim a s s' i :
  0 < gridDim -> 0 < blockDim -> separated a ->
  0 <= i < num_comps a ->
  update_kernel gridDim blockDim a s = Some s' ->
  exists I r0 b,
    load_regs a s i = Some (I, r0) /\
    mem s' !! (g_spike_state a + i) = Some (CI b) /\
    (b = 0 \/ b = 1) /\
    (b = 1 <->
     exists j, (j < Z.to_nat (nsteps a))%nat /\
       let rj := inner_loop j (dt a) I r0 in
       let V := r_V (substep (dt a) I rj) in
       fle (r_Vprev2 rj) (r_Vprev1 rj) = true /\
       fge (r_Vprev1 rj) V = true /\
       fgt (r_Vprev1 rj) (of_double 20) = true).
Proof.
  intros Hg Hb Hsep Hi Hrun.
  apply update_kernel_Some in Hrun as (Hpost & _); try done.
  destruct (Hpost i Hi) as (r & Hr & Hc).
  apply post_cells_lookup in Hc as (_ & _ & _ & _ & _ & HS).
  apply final_regs_load in Hr as (I & r0 & Hl & ->).
  exists I, r0, (spike_flag (inner_loop (Z.to_nat (nsteps a)) (dt a) I r0)).
  split_and!; [done|done| |].
  - unfold spike_flag. destruct (0 <? _); auto.
  - pose proof (spike_positive_iff (Z.to_nat (nsteps a)) (dt a) I r0)
      as Hiff.
    rewrite (load_regs_spike a s i I r0 Hl) in Hiff.
    assert (0 < r_spike (inner_loop (Z.to_nat (nsteps a)) (dt a) I r0) <->
            exists j, (j < Z.to_nat (nsteps a))%nat /\
              fle (r_Vprev2 (inner_loop j (dt a) I r0))
                  (r_Vprev1 (inner_loop j (dt a) I r0)) = true /\
              fge (r_Vprev1 (inner_loop j (dt a) I r0))
                  (r_V (substep (dt a) I (inner_loop j (dt a) I r0)))
              = true /\
              fgt (r_Vprev1 (inner_loop j (dt a) I r0)) (of_double 20)
              = true) as Hiff'.
    { rewrite Hiff. split; intros (j & Hj & Hd); exists j;
        (split; [done|]); by apply spike_detected_true. }
    cbv zeta. rewrite <- Hiff'.
    unfold spike_flag. destruct (Z.ltb_spec 0 (r_spike
      (inner_loop (Z.to_nat (nsteps a)) (dt a) I r0))) as [Hp|Hp].
    + split; done.
    + split; [done|lia].
Qed.

End KernelFacts.
End KernelFacts.

(** ** The host monad *)

Module MonadFacts.
Section MonadFacts.
Context {FT : FloatType}.

Lemma bind_Val {A B} (c : M A) (k : A -> M B) s b s' :
  bind c k s = (Val b, s') <->
  exists a s1, c s = (Val a, s1) /\ k a s1 = (Val b, s').
Proof.
  unfold bind. destruct (c s) as [[a|e] s1].
  - split; [eauto|]. by intros (? & ? & [= <- <-] & ?).
  - split; [done|]. by intros (? & ? & ? & ?).
Qed.

Lemma bind_Exn {A B} (c : M A) (k : A -> M B) s e s' :
  bind c k s = (Exn e, s') <->
  c s = (Exn e, s') \/
  exists a s1, c s = (Val a, s1) /\ k a s1 = (Exn e, s').
Proof.
  unfold bind. destruct (c s) as [[a|e'] s1].
  - split; [eauto 10|]. intros [?|(? & ? & [= <- <-] & ?)]; done.
  - split; [intros [= -> ->]; by left|].
    intros [[= -> ->]|(? & ? & ? & ?)]; done.
Qed.

(** A computation that reads the host objects only. *)
Definition pure {A} (c : M A) : Prop := exists o, forall s, c s = (o, s).

Lemma pure_ret {A} (a : A) : pure (ret a).
Proof. by exists (Val a). Qed.

Lemma pure_raise {A} e : pure (raise (A:=A) e).
Proof. by exists (Exn e). Qed.

Lemma pure_lift {A} (o : outcome A) : pure (lift o).
Proof. by exists o. Qed.

Lemma pure_bind {A B} (c : M A) (k : A -> M B) :
  pure c -> (forall a, pure (k a)) -> pure (bind c k).
Proof.
  intros [[a|e] Hc] Hk.
  - destruct (Hk a) as [o Ho]. exists o. intros s. unfold bind.
    by rewrite Hc, Ho.
  - exists (Exn e). intros s. unfold bind. by rewrite Hc.
Qed.

Lemma pure_getitem {A} (d : gmap string A) k : pure (getitem d k).
Proof. unfold getitem. destruct (d !! k); [apply pure_ret|apply pure_raise]. Qed.

Lemma pure_odict_getitem {A} (d : ODict.t A) k : pure (Base.odict_getitem d k).
Proof.
  unfold Base.odict_getitem.
  destruct (ODict.get d k); [apply pure_ret|apply pure_raise].
Qed.

Lemma pure_comprehension {A B} (l : list A) (f : A -> M B) :
  (forall x, pure (f x)) -> pure (comprehension l f).
Proof.
  intros Hf. induction l as [|x l IH]; simpl; [apply pure_ret|].
  apply pure_bind; [done|]. intros y.
  apply pure_bind; [done|]. intros ys. apply pure_ret.
Qed.

Lemma pure_state {A} (c : M A) s o s' : pure c -> c s = (o, s') -> s' = s.
Proof. intros [o' H]. rewrite H. congruence. Qed.

Lemma pure_indep {A} (c : M A) s1 s2 : pure c -> (c s1).1 = (c s2).1.
Proof. intros [o H]. by rewrite !H. Qed.

(** A successful comprehension evaluated its body at every element. *)
Lemma comprehension_Val {A B} (l : list A) (f : A -> M B) s ys s' :
  comprehension l f s = (Val ys, s') ->
  forall x, x ∈ l -> exists s0 y s1, f x s0 = (Val y, s1).
Proof.
  revert s ys s'. induction l as [|x l IH]; intros s ys s' H z Hz.
  - by apply elem_of_nil in Hz.
  - simpl in H. apply bind_Val in H as (y & s1 & Hy & H).
    apply bind_Val in H as (ys' & s2 & Hys & _).
    apply elem_of_cons in Hz as [->|Hz]; [by exists s, y, s1|].
    by apply (IH s1 ys' s2 Hys).
Qed.

(** A loop raises what its first failing pass raises, in the state
    where that pass left off. *)
Lemma for_each_Exn {A} (pre : list A) x (post : list A) body s s0 e s1 :
  for_each pre body s = (Val tt, s0) ->
  body x s0 = (Exn e, s1) ->
  for_each (pre ++ x :: post) body s = (Exn e, s1).
Proof.
  revert s. induction pre as [|y pre IH]; intros s Hpre Hx; simpl in *.
  - injection Hpre as <-. unfold bind. by rewrite Hx.
  - apply bind_Val in Hpre as ([] & s2 & Hy & Hpre).
    unfold bind at 1. rewrite Hy. by apply IH.
Qed.

Lemma for_each_Exn_inv {A} (l : list A) body s e s1 :
  for_each l body s = (Exn e, s1) ->
  exists pre x post s0,
    l = pre ++ x :: post /\
    for_each pre body s = (Val tt, s0) /\ body x s0 = (Exn e, s1).
Proof.
  revert s. induction l as [|y l IH]; intros s H; simpl in H; [done|].
  apply bind_Exn in H as [H|([] & s2 & Hy & H)].
  - exists [], y, l, s. by split_and!.
  - apply IH in H as (pre & x & post & s0 & -> & Hpre & Hx).
    exists (y :: pre), x, post, s0. split_and!; [done| |done].
    simpl. unfold bind. by rewrite Hy.
Qed.

End MonadFacts.
End MonadFacts.

(** ** The constructor *)

Module BaseFacts.
Import MonadFacts Base.
Section BaseFacts.
Context {FT : FloatType}.

Lemma lift_Val {A} (o : outcome A) s a s' :
  lift o s = (Val a, s') -> o = Val a /\ s' = s.
Proof. unfold lift. by intros [= -> ->]. Qed.

(** On a non-negative float [int] is the floor of its value. *)
Lemma int_of_float_floor x q v :
  int_of_float x = Val q -> Q_of_float x = Some v -> (0 <= v)%Q ->
  q = Qfloor v.
Proof.
  unfold int_of_float, Q_of_float.
  destruct (Prim2SF x) as [sg|sg| |sg m e]; try done.
  - by intros [= <-] [= <-] _.
  - intros [= <-] [= <-].
    destruct (Z.leb_spec 0 e) as [He|He].
    + assert (0 < Z.pos m * 2 ^ e) as Hpos.
      { apply Z.mul_pos_pos; [lia|]. by apply Z.pow_pos_nonneg. }
      destruct sg.
      * unfold Qle. simpl. lia.
      * intros _. by rewrite Qfloor_Z, Z.shiftl_mul_pow2.
    + assert (0 < 2 ^ (- e)) as Hpos by (apply Z.pow_pos_nonneg; lia).
      destruct sg.
      * unfold Qle. simpl. lia.
      * intros _. simpl. rewrite Z2Pos.id by done.
        rewrite <- Z.shiftr_opp_r. apply Z.shiftr_div_pow2. lia.
Qed.

Lemma np_int32_small n :
  - 2 ^ 31 <= n < 2 ^ 31 -> np_int32 n = Val n.
Proof.
  intros Hn. unfold np_int32, wrap32.
  destruct (Z.leb_spec (- 2 ^ 63) n); [|lia].
  destruct (Z.ltb_spec n (2 ^ 63)); [|lia]. simpl.
  rewrite Z.mod_small by lia. f_equal. lia.
Qed.

(** What a successful construction went through. *)
Lemma init_Val m pd ab dt s self s' :
  init m pd ab dt s = (Val self, s') ->
  exists p0 a0 q st,
    params_first (params m) = Val p0 /\
    pd !! p0 = Some a0 /\
    int_of_float (dt / 1e-6)%float = Val q /\
    np_int32 (Z.max q 1) = Val st /\
    (forall k, k ∈ params_keys (params m) -> is_Some (pd !! k)) /\
    cls self = m /\
    num_comps self = Z.of_nat (size a0) /\
    Base.dt self = dt /\ ddt self = 1e-6%float /\ steps self = st /\
    params_dict self = pd.
Proof.
  unfold init. intros H.
  apply bind_Val in H as (p0 & s1 & Hp0 & H).
  apply lift_Val in Hp0 as [Hp0 ->].
  apply bind_Val in H as (a0 & s1 & Ha0 & H).
  unfold getitem in Ha0. destruct (pd !! p0) as [a0'|] eqn:Epd; [|done].
  injection Ha0 as -> <-.
  apply bind_Val in H as (q & s1 & Hq & H).
  apply lift_Val in Hq as [Hq ->].
  apply bind_Val in H as (st & s1 & Hst & H).
  apply lift_Val in Hst as [Hst ->].
  apply bind_Val in H as (ints & s1 & _ & H).
  apply bind_Val in H as (istates & s2 & _ & H).
  apply bind_Val in H as (inp & s3 & _ & H).
  apply bind_Val in H as (d_in & s4 & _ & H).
  apply bind_Val in H as (d_par & s5 & Hpar & H).
  apply bind_Val in H as (d_int & s6 & _ & H).
  apply bind_Val in H as (f & s7 & _ & H).
  injection H as <- <-.
  exists p0, a0, q, st. split_and!; try done.
  intros k Hk.
  destruct (comprehension_Val _ _ _ _ _ Hpar k Hk) as (t0 & y & t1 & Hy).
  apply bind_Val in Hy as (a & t2 & Ha & _).
  unfold getitem in Ha. by destruct (pd !! k).
Qed.

(** [Wilson] declares its parameters as an [OrderedDict]: the inherited
    constructor's [self.params[0]] is a [KeyError] before anything else
    runs. *)
Lemma init_Wilson pd ab dt s :
  init Wilson.Wilson pd ab dt s = (Exn (KeyError (IntKey 0)), s).
Proof. reflexivity. Qed.

(** C1, amended. The constructor takes the inner step from the
    constant [ddt = 1e-6], whatever [max_dt] the class declares: the
    sub-step count is [np.int32(max(int(dt / 1e-6), 1))], that is
    [max(1, floor(dt / 1e-6))] for a non-negative quotient below
    [2^31]. *)
Theorem init_substep_count m pd ab dt s self s' :
  init m pd ab dt s = (Val self, s') ->
  ddt self = 1e-6%float /\
  exists q,
    int_of_float (dt / 1e-6)%float = Val q /\
    np_int32 (Z.max q 1) = Val (steps self) /\
    (q < 2 ^ 31 -> steps self = Z.max 1 q) /\
    (forall v, Q_of_float (dt / 1e-6)%float = Some v -> (0 <= v)%Q ->
               q = Qfloor v).
Proof.
  intros H.
  apply init_Val in H
    as (p0 & a0 & q & st & _ & _ & Hq & Hst & _ & _ & _ & _ & Hddt & Hs & _).
  split; [done|]. exists q. subst st. split_and!; try done.
  - intros Hlt. rewrite np_int32_small in Hst by lia.
    injection Hst as <-. lia.
  - intros v Hv Hpos. by eapply int_of_float_floor.
Qed.

(** C7, amended. The instance count is the size of the array of the
    first declared parameter; a declared parameter that the supplied
    dictionary lacks makes construction fail with an exception (the
    [KeyError] of the lookup: for the first parameter before anything
    else runs), so no instance exists.  Sizes of the other parameters
    are not compared. *)
Theorem init_requires_params m pd ab dt s :
  (forall self s',
     init m pd ab dt s = (Val self, s') ->
     exists p0 a0,
       params_first (params m) = Val p0 /\ pd !! p0 = Some a0 /\
       num_comps self = Z.of_nat (size a0)) /\
  (forall k, k ∈ params_keys (params m) -> pd !! k = None ->
     exists e s', init m pd ab dt s = (Exn e, s')) /\
  (forall p0, params_first (params m) = Val p0 -> pd !! p0 = None ->
     init m pd ab dt s = (Exn (KeyError (StrKey p0)), s)).
Proof.
  split_and!.
  - intros self s' H.
    apply init_Val in H as (p0 & a0 & q & st & ? & ? & _ & _ & _ & _ & ? & _).
    by exists p0, a0.
  - intros k Hk Hnone.
    destruct (init m pd ab dt s) as [[self|e] s'] eqn:E;
      [|by exists e, s'].
    apply init_Val in E as (_ & _ & _ & _ & _ & _ & _ & _ & Hall & _).
    destruct (Hall k Hk) as [a Ha]. congruence.
  - intros p0 Hp0 Hnone. unfold init, bind, lift, getitem, raise.
    by rewrite Hp0, Hnone.
Qed.

End BaseFacts.
End BaseFacts.

(** ** Seeding *)

Module SeedFacts.
Import MonadFacts StoreFacts Base.
Section SeedFacts.
Context {FT : FloatType}.

Lemma load_range_Some s p n cs :
  load_range s p n = Some cs ->
  length cs = n /\
  forall j, (j < n)%nat -> mem s !! (p + Z.of_nat j) = cs !! j.
Proof.
  revert p cs. induction n as [|n IH]; intros p cs H; simpl in H.
  - injection H as <-. split; [done|]. lia.
  - destruct (mem s !! p) as [c|] eqn:Ec; [|done].
    cbn [mbind option_bind] in H.
    destruct (load_range s (p + 1) n) as [cs'|] eqn:E; [|done].
    injection H as <-. apply IH in E as [Hlen Hj].
    split; [simpl; lia|]. intros [|j] Hlt.
    + by rewrite Z.add_0_r.
    + simpl. rewrite <- Hj by lia. f_equal. lia.
Qed.

Lemma load_range_ext s1 s2 p n :
  (forall a, p <= a < p + Z.of_nat n -> mem s1 !! a = mem s2 !! a) ->
  load_range s1 p n = load_range s2 p n.
Proof.
  revert p. induction n as [|n IH]; intros p H; [done|].
  simpl. rewrite (H p) by lia. rewrite (IH (p + 1)); [done|].
  intros a Ha. apply H. lia.
Qed.

Lemma store_range_frame p cs s s' :
  store_range p cs s = Some s' ->
  forall a, ~ (p <= a < p + Z.of_nat (length cs)) ->
            mem s' !! a = mem s !! a.
Proof.
  revert p s. induction cs as [|c cs IH]; intros p s H a Ha; simpl in *.
  - by injection H as <-.
  - destruct (store p c s) as [s1|] eqn:E; [|done].
    cbn [mbind option_bind] in H.
    apply store_Some in E as (_ & Hm & _).
    rewrite (IH _ _ H) by lia. rewrite Hm. apply lookup_insert_ne. lia.
Qed.

Lemma store_range_load p cs s s' :
  store_range p cs s = Some s' -> load_range s' p (length cs) = Some cs.
Proof.
  revert p s. induction cs as [|c cs IH]; intros p s H; simpl in *; [done|].
  destruct (store p c s) as [s1|] eqn:E; [|done].
  cbn [mbind option_bind] in H.
  apply store_Some in E as (_ & Hm & _).
  rewrite (store_range_frame _ _ _ _ H) by lia.
  rewrite Hm, lookup_insert_eq. cbn [mbind option_bind].
  by rewrite (IH _ _ H).
Qed.

Lemma store_range_is_Some p cs s :
  (forall a, p <= a < p + Z.of_nat (length cs) -> is_Some (mem s !! a)) ->
  is_Some (store_range p cs s).
Proof.
  revert p s. induction cs as [|c cs IH]; intros p s H; simpl in *; [eauto|].
  destruct (store_is_Some p c s) as [s1 E]; [apply H; lia|].
  rewrite E. cbn [mbind option_bind]. apply IH. intros a Ha.
  apply store_Some in E as (_ & Hm & _). rewrite Hm, lookup_insert.
  case_decide; [eauto|]. apply H. lia.
Qed.

Lemma memcpy_dtod_spec dest src n s cs :
  load_range s src n = Some cs ->
  (forall a, dest <= a < dest + Z.of_nat n -> is_Some (mem s !! a)) ->
  exists s',
    memcpy_dtod dest src n s = (Val tt, s') /\
    load_range s' dest n = Some cs /\
    forall a, ~ (dest <= a < dest + Z.of_nat n) -> mem s' !! a = mem s !! a.
Proof.
  intros Hl Hm. pose proof (load_range_Some _ _ _ _ Hl) as [Hlen _].
  destruct (store_range_is_Some dest cs s) as [s' Hs].
  { intros a Ha. apply Hm. lia. }
  exists s'. unfold memcpy_dtod, device_call. rewrite Hl.
  cbn [mbind option_bind]. rewrite Hs. split_and!; [done| |].
  - rewrite <- Hlen. by eapply store_range_load.
  - intros a Ha. eapply store_range_frame; [done|lia].
Qed.


End SeedFacts.
End SeedFacts.

(** ** The two [run_step] methods *)

Module StepFacts.
Import MonadFacts StoreFacts KernelFacts Base.
Section StepFacts.
Context {FT : FloatType}.

(** Which [run_step] a component runs: the inherited one or
    [Wilson]'s override. *)
Inductive method := BaseStep | WilsonStep.

Definition launch_args_of (m : method) (self : component)
    (update_pointers : gmap string Z) : M launch :=
  match m with
  | BaseStep => Base.launch_args self update_pointers
  | WilsonStep => Wilson.launch_args self update_pointers
  end.

Definition run_step_of (sum : component -> string -> garray -> M unit)
    (m : method) (self : component) (update_pointers : gmap string Z)
    : M unit :=
  match m with
  | BaseStep => Base.run_step sum self update_pointers
  | WilsonStep => Wilson.run_step sum self update_pointers
  end.

Definition launch_of (self : component) (l : launch) : M unit :=
  prepared_async_call (update_func self)
    (f_grid (update_func self)) (f_block (update_func self)) l.

(** The step a [FLOATTYPE] kernel is handed. *)
Definition kernel_dt_of (m : method) (self : component) : F :=
  match m with
  | BaseStep => of_double (ddt self)
  | WilsonStep => of_double (1000.0 * Base.dt self)%float
  end.

Lemma run_step_of_eq sum m self up :
  run_step_of sum m self up
  = (reduce_inputs sum self ;;;
     l <- launch_args_of m self up ;;
     launch_of self l).
Proof. by destruct m. Qed.

Lemma pure_pointers self up :
  pure (input_pointers self) /\ pure (param_pointers self) /\
  pure (update_pointer_list self up).
Proof.
  split_and!; apply pure_comprehension; intros k;
    try apply pure_getitem;
    (apply pure_bind; [|intros; apply pure_ret]);
    [apply pure_odict_getitem|apply pure_getitem].
Qed.

Lemma pure_launch_args m self up : pure (launch_args_of m self up).
Proof.
  destruct (pure_pointers self up) as (Hin & Hpar & Hupd).
  destruct m; simpl; unfold Base.launch_args, Wilson.launch_args.
  - apply pure_bind; [done|]. intros p_in.
    apply pure_bind; [done|]. intros p_par.
    apply pure_bind.
    { destruct (internals (cls self)); [apply pure_ret|apply pure_raise]. }
    intros ints. apply pure_bind.
    { apply pure_comprehension. intros k.
      apply pure_bind; [apply pure_odict_getitem|]. intros; apply pure_ret. }
    intros p_int. apply pure_bind; [done|]. intros; apply pure_ret.
  - apply pure_bind; [done|]. intros p_in.
    apply pure_bind; [done|]. intros p_par.
    apply pure_bind.
    { apply pure_comprehension. intros k.
      apply pure_bind; [apply pure_odict_getitem|]. intros [x|x|x]; simpl;
        first [apply pure_ret|apply pure_raise]. }
    intros p_st. apply pure_bind; [done|]. intros; apply pure_ret.
Qed.

(** The scalar arguments of the launch. *)
Lemma launch_args_scalars m self up s l s' :
  launch_args_of m self up s = (Val l, s') ->
  l_num_comps l = num_comps self /\
  l_dt l = kernel_dt_of m self /\
  l_nsteps l = steps self.
Proof.
  destruct m; simpl; unfold Base.launch_args, Wilson.launch_args; intros H.
  - apply bind_Val in H as (p_in & s1 & _ & H).
    apply bind_Val in H as (p_par & s2 & _ & H).
    apply bind_Val in H as (ints & s3 & _ & H).
    apply bind_Val in H as (p_int & s4 & _ & H).
    apply bind_Val in H as (p_upd & s5 & _ & H).
    by injection H as <- _.
  - apply bind_Val in H as (p_in & s1 & _ & H).
    apply bind_Val in H as (p_par & s2 & _ & H).
    apply bind_Val in H as (p_st & s3 & _ & H).
    apply bind_Val in H as (p_upd & s4 & _ & H).
    by injection H as <- _.
Qed.

(** With [states] as the class holds it (numbers and names, not device
    arrays) the argument list of [Wilson.run_step] is an
    [AttributeError]. *)
Lemma wilson_launch_args_class_states self up s p_in p_par :
  self_states self = states Wilson.Wilson ->
  input_pointers self s = (Val p_in, s) ->
  param_pointers self s = (Val p_par, s) ->
  Wilson.launch_args self up s = (Exn (AttributeError "gpudata"), s).
Proof.
  intros Hst Hin Hpar. unfold Wilson.launch_args, bind.
  by rewrite Hin, Hpar, Hst.
Qed.

(** C8. [run_step] has no handler.  Whatever a reduction, the
    evaluation of the arguments or the launch raises is what [run_step]
    raises, in the state the raising call left: nothing runs
    afterwards, and nothing is run again.  Conversely [run_step] raises
    nothing of its own. *)
Theorem run_step_propagates sum m self up s e s' :
  run_step_of sum m self up s = (Exn e, s') <->
  (exists pre k garr post s0,
     inputs self = pre ++ (k, garr) :: post /\
     for_each pre (fun '(k, garr) => sum self k garr) s = (Val tt, s0) /\
     sum self k garr s0 = (Exn e, s')) \/
  (exists s1,
     reduce_inputs sum self s = (Val tt, s1) /\
     (launch_args_of m self up s1 = (Exn e, s') \/
      exists l s2,
        launch_args_of m self up s1 = (Val l, s2) /\
        launch_of self l s2 = (Exn e, s'))).
Proof.
  rewrite run_step_of_eq. split.
  - intros H. apply bind_Exn in H as [H|([] & s1 & Hr & H)].
    + left. unfold reduce_inputs in H.
      apply for_each_Exn_inv in H as (pre & [k garr] & post & s0 & ? & ? & ?).
      by exists pre, k, garr, post, s0.
    + right. exists s1. split; [done|].
      apply bind_Exn in H as [H|(l & s2 & Hl & H)]; [by left|right].
      by exists l, s2.
  - intros [(pre & k & garr & post & s0 & Hin & Hpre & Hk)|
            (s1 & Hr & [Hl|(l & s2 & Hl & Hc)])].
    + apply bind_Exn. left. unfold reduce_inputs. rewrite Hin.
      by apply (for_each_Exn pre (k, garr) post _ s s0).
    + apply bind_Exn. right. exists tt, s1. split; [done|].
      apply bind_Exn. by left.
    + apply bind_Exn. right. exists tt, s1. split; [done|].
      apply bind_Exn. right. by exists l, s2.
Qed.

End StepFacts.
End StepFacts.

(** ** Input reduction *)

Module ReduceFacts.
Import MonadFacts StoreFacts SeedFacts StepFacts Base.
Section ReduceFacts.
Context {FT : FloatType}.
Variable incoming : string -> Z -> list Z.

Definition in_array (g : garray) (x : Z) : Prop :=
  gpudata g <= x < gpudata g + Z.of_nat (size g).

Definition arrays_disjoint (g g' : garray) : Prop :=
  gpudata g + Z.of_nat (size g) <= gpudata g' \/
  gpudata g' + Z.of_nat (size g') <= gpudata g.

Fixpoint pairwise_disjoint (l : list (string * garray)) : Prop :=
  match l with
  | [] => True
  | kg :: l' =>
      Forall (fun kg' => arrays_disjoint kg.2 kg'.2) l' /\ pairwise_disjoint l'
  end.

(** No connection delivers from inside an input array of the list. *)
Definition sources_outside (l : list (string * garray)) : Prop :=
  forall k g i x k' g',
    (k, g) ∈ l -> 0 <= i < Z.of_nat (size g) -> x ∈ incoming k i ->
    (k', g') ∈ l -> ~ in_array g' x.

Lemma port_sum_ext s1 s2 acc srcs :
  (forall x, x ∈ srcs -> mem s1 !! x = mem s2 !! x) ->
  NDComponent.port_sum s1 acc srcs = NDComponent.port_sum s2 acc srcs.
Proof.
  revert acc. induction srcs as [|a srcs IH]; intros acc H; [done|].
  simpl. unfold loadF. rewrite (H a) by (apply elem_of_cons; by left).
  destruct (mem s2 !! a) as [[x| |]|]; try done. simpl.
  apply IH. intros y Hy. apply H, elem_of_cons. by right.
Qed.

Lemma port_sums_ext s1 s2 var i n :
  (forall j x, i <= j < i + Z.of_nat n -> x ∈ incoming var j ->
               mem s1 !! x = mem s2 !! x) ->
  NDComponent.port_sums incoming s1 var i n
  = NDComponent.port_sums incoming s2 var i n.
Proof.
  revert i. induction n as [|n IH]; intros i H; [done|].
  simpl. rewrite (port_sum_ext s1 s2) by (intros x Hx; apply (H i); [lia|done]).
  rewrite (IH (i + 1)); [done|]. intros j x Hj. apply H. lia.
Qed.

Lemma port_sums_Some s var i n cs :
  NDComponent.port_sums incoming s var i n = Some cs ->
  length cs = n /\
  forall j, (j < n)%nat ->
    exists x,
      NDComponent.port_sum s (of_double 0) (incoming var (i + Z.of_nat j))
      = Some x /\
      cs !! j = Some (CF x).
Proof.
  revert i cs. induction n as [|n IH]; intros i cs H; simpl in H.
  - injection H as <-. split; [done|]. lia.
  - destruct (NDComponent.port_sum s (of_double 0) (incoming var i))
      as [x|] eqn:Ex; [|done].
    cbn [mbind option_bind] in H.
    destruct (NDComponent.port_sums incoming s var (i + 1) n)
      as [xs|] eqn:Exs; [|done].
    injection H as <-. apply IH in Exs as [Hlen Hj].
    split; [simpl; lia|]. intros [|j] Hlt.
    + exists x. by rewrite Z.add_0_r.
    + destruct (Hj j) as (y & Hy & Hc); [lia|]. exists y.
      split; [|done].
      by replace (i + Z.of_nat (S j)) with (i + 1 + Z.of_nat j) by lia.
Qed.

Lemma store_range_writes p cs s s' :
  store_range p cs s = Some s' ->
  exists ws,
    wlog s' = wlog s ++ ws /\ mem s' = apply_writes (mem s) ws /\
    brk s' = brk s /\
    forall w, w ∈ ws -> p <= w.1 < p + Z.of_nat (length cs).
Proof.
  revert p s. induction cs as [|c cs IH]; intros p s H; simpl in H.
  - injection H as <-. exists []. rewrite app_nil_r. split_and!; try done.
    intros w Hw. by apply elem_of_nil in Hw.
  - destruct (store p c s) as [s1|] eqn:E; [|done].
    cbn [mbind option_bind] in H.
    apply store_Some in E as (_ & Hm & Hl & Hb).
    apply IH in H as (ws & Hl' & Hm' & Hb' & Hws).
    exists ((p, c) :: ws). split_and!.
    + by rewrite Hl', Hl, <- app_assoc.
    + by rewrite Hm', Hm.
    + congruence.
    + intros w [->|Hw]%elem_of_cons; simpl; [lia|].
      apply Hws in Hw. lia.
Qed.

(** The reduction stores into the array it is given and nowhere
    else. *)
Lemma sum_in_variable_stores self var g s o s' :
  NDComponent.sum_in_variable incoming self var g s = (o, s') ->
  exists ws,
    wlog s' = wlog s ++ ws /\ mem s' = apply_writes (mem s) ws /\
    brk s' = brk s /\
    forall w, w ∈ ws -> in_array g w.1.
Proof.
  unfold NDComponent.sum_in_variable, device_call.
  destruct (NDComponent.port_sums incoming s var 0 (size g))
    as [cs|] eqn:Ecs; cbn [mbind option_bind].
  - destruct (store_range (gpudata g) cs s) as [s1|] eqn:Es.
    + intros [= <- <-]. apply port_sums_Some in Ecs as [Hlen _].
      apply store_range_writes in Es as (ws & ? & ? & ? & Hws).
      exists ws. split_and!; try done. intros w Hw. apply Hws in Hw.
      unfold in_array. lia.
    + intros [= <- <-]. exists []. rewrite app_nil_r. split_and!; try done.
      intros w Hw. by apply elem_of_nil in Hw.
  - intros [= <- <-]. exists []. rewrite app_nil_r. split_and!; try done.
    intros w Hw. by apply elem_of_nil in Hw.
Qed.

Lemma sum_in_variable_Val self var g s s' :
  NDComponent.sum_in_variable incoming self var g s = (Val tt, s') ->
  (forall i, 0 <= i < Z.of_nat (size g) ->
     exists x,
       NDComponent.port_sum s (of_double 0) (incoming var i) = Some x /\
       mem s' !! (gpudata g + i) = Some (CF x)) /\
  (forall a, ~ in_array g a -> mem s' !! a = mem s !! a).
Proof.
  unfold NDComponent.sum_in_variable, device_call.
  destruct (NDComponent.port_sums incoming s var 0 (size g))
    as [cs|] eqn:Ecs; cbn [mbind option_bind]; [|done].
  destruct (store_range (gpudata g) cs s) as [s1|] eqn:Es; [|done].
  intros [= <-]. apply port_sums_Some in Ecs as [Hlen Hcs]. split.
  - intros i Hi. destruct (Hcs (Z.to_nat i)) as (x & Hx & Hc); [lia|].
    rewrite Z.add_0_l, Z2Nat.id in Hx by lia. exists x. split; [done|].
    apply store_range_load in Es. apply load_range_Some in Es as [_ Hld].
    rewrite <- Hc, <- (Hld (Z.to_nat i)) by lia. f_equal. lia.
  - intros a Ha. eapply store_range_frame; [done|].
    unfold in_array in Ha. lia.
Qed.

Lemma reduce_Val self l s s1 :
  for_each l (fun '(k, g) => NDComponent.sum_in_variable incoming self k g) s
  = (Val tt, s1) ->
  pairwise_disjoint l -> sources_outside l ->
  (forall k g i, (k, g) ∈ l -> 0 <= i < Z.of_nat (size g) ->
     exists x,
       NDComponent.port_sum s (of_double 0) (incoming k i) = Some x /\
       mem s1 !! (gpudata g + i) = Some (CF x)) /\
  (forall a, (forall k g, (k, g) ∈ l -> ~ in_array g a) ->
             mem s1 !! a = mem s !! a).
Proof.
  revert s. induction l as [|[k0 g0] l IH]; intros s H Hdis Hsrc.
  - injection H as <-. split; [|done]. intros k g i Hin.
    by apply elem_of_nil in Hin.
  - simpl in H. apply bind_Val in H as ([] & s0 & H0 & H).
    destruct Hdis as [Hd0 Hdis].
    apply sum_in_variable_Val in H0 as [Hsum0 Hfr0].
    apply IH in H as [Hsum Hfr]; [|done|].
    2:{ intros k g i x k' g' Hkg Hi Hx Hkg'.
        apply (Hsrc k g i x k' g'); try done; apply elem_of_cons; by right. }
    split.
    + intros k g i [[= -> ->]|Hkg]%elem_of_cons Hi.
      * destruct (Hsum0 i Hi) as (x & Hx & Hm). exists x. split; [done|].
        rewrite Hfr; [done|]. intros k' g' Hkg'.
        rewrite Forall_forall in Hd0. specialize (Hd0 _ Hkg'). simpl in Hd0.
        unfold in_array. destruct Hd0; lia.
      * destruct (Hsum k g i Hkg Hi) as (x & Hx & Hm). exists x.
        split; [|done]. rewrite <- Hx. apply port_sum_ext. intros y Hy.
        symmetry. apply Hfr0.
        apply (Hsrc k g i y k0 g0); try done; apply elem_of_cons; auto.
    + intros a Ha. rewrite Hfr, Hfr0; [done| |].
      * apply (Ha k0 g0), elem_of_cons. by left.
      * intros k g Hkg. apply (Ha k g), elem_of_cons. by right.
Qed.

Lemma odict_get_elem_of {A} (d : ODict.t A) k v :
  ODict.get d k = Some v -> (k, v) ∈ d.
Proof.
  induction d as [|[k' v'] d IH]; simpl; [done|].
  case_decide as Hk.
  - intros [= ->]. subst. apply elem_of_cons. by left.
  - intros H. apply elem_of_cons. right. by apply IH.
Qed.

(** C4. A successful [run_step] first ran the reduction of every input
    variable the class accesses: when the kernel is launched, each port
    of each input array holds the sum of the values its incoming
    connections deliver, as they stood when the step began. *)
Theorem run_step_reduces_inputs_first m self update_pointers s s' :
  pairwise_disjoint (inputs self) -> sources_outside (inputs self) ->
  run_step_of (NDComponent.sum_in_variable incoming) m self update_pointers s
  = (Val tt, s') ->
  exists s1 l,
    reduce_inputs (NDComponent.sum_in_variable incoming) self s
    = (Val tt, s1) /\
    (forall k, k ∈ accesses (cls self) ->
       exists g, ODict.get (inputs self) k = Some g) /\
    (forall k g i, (k, g) ∈ inputs self -> 0 <= i < Z.of_nat (size g) ->
       exists x,
         NDComponent.port_sum s (of_double 0) (incoming k i) = Some x /\
         mem s1 !! (gpudata g + i) = Some (CF x)) /\
    launch_args_of m self update_pointers s1 = (Val l, s1) /\
    launch_of self l s1 = (Val tt, s').
Proof.
  intros Hdis Hsrc H. rewrite run_step_of_eq in H.
  apply bind_Val in H as ([] & s1 & Hr & H).
  apply bind_Val in H as (l & s2 & Hl & Hc).
  pose proof (pure_state _ _ _ _ (pure_launch_args m self update_pointers) Hl)
    as ->.
  exists s1, l. split_and!; try done.
  - intros k Hk.
    assert (exists ps t, input_pointers self s1 = (Val ps, t)) as (ps & t & Hps).
    { destruct m; simpl in Hl; unfold Base.launch_args, Wilson.launch_args in Hl;
        apply bind_Val in Hl as (ps & t & Hps & _); eauto. }
    destruct (comprehension_Val _ _ _ _ _ Hps k Hk) as (t0 & y & t1 & Hy).
    apply bind_Val in Hy as (g & t2 & Hg & _).
    unfold odict_getitem in Hg.
    destruct (ODict.get (inputs self) k) as [g'|]; [eauto|done].
  - by apply (reduce_Val self (inputs self) s s1).
Qed.

End ReduceFacts.
End ReduceFacts.

(** ** Publication of the outputs *)

Module PublishFacts.
Import MonadFacts StoreFacts KernelFacts StepFacts ReduceFacts Base Wilson.
Section PublishFacts.
Context {FT : FloatType}.
Variable sum : component -> string -> garray -> M unit.
Variable m : method.
Variable self : component.
Variable update_pointers : gmap string Z.
Variable a : kargs.

(** The inherited reduction stores into the array it is given and
    nowhere else. *)
Definition stores_into_destination : Prop :=
  forall k g s o s',
    sum self k g s = (o, s') ->
    exists ws,
      wlog s' = wlog s ++ ws /\ mem s' = apply_writes (mem s) ws /\
      brk s' = brk s /\
      forall w, w ∈ ws -> in_array g w.1.

(** The component launches [Wilson]'s kernel. *)
Definition launches_update : Prop :=
  prepared_async_call (update_func self)
  = fun g b l => device_call (update g b l).

(** The pointers of the launch are the arrays of [a]. *)
Definition launch_pointers (s : dstate) : Prop :=
  exists l,
    launch_args_of m self update_pointers s = (Val l, s) /\
    kargs_of_launch l = Some a.

(** The input arrays do not reach into the arrays the kernel writes. *)
Definition inputs_clear : Prop :=
  forall k g x p i,
    (k, g) ∈ inputs self -> in_array g x ->
    p ∈ written_slots -> 0 <= i < num_comps a -> x <> ptr a p + i.

Lemma reduce_stores l s o s1 :
  stores_into_destination ->
  for_each l (fun '(k, g) => sum self k g) s = (o, s1) ->
  exists ws,
    wlog s1 = wlog s ++ ws /\ mem s1 = apply_writes (mem s) ws /\
    brk s1 = brk s /\
    forall w, w ∈ ws -> exists k g, (k, g) ∈ l /\ in_array g w.1.
Proof.
  intros Hsum. revert s.
  induction l as [|[k g] l IH]; intros s H; simpl in H.
  - injection H as <- <-. exists []. rewrite app_nil_r. split_and!; try done.
    intros w Hw. by apply elem_of_nil in Hw.
  - unfold bind in H. destruct (sum self k g s) as [[[]|e] s0] eqn:E.
    + apply Hsum in E as (ws0 & Hl0 & Hm0 & Hb0 & Hw0).
      apply IH in H as (ws & Hl & Hm & Hb & Hw).
      exists (ws0 ++ ws). split_and!.
      * by rewrite Hl, Hl0, <- app_assoc.
      * by rewrite Hm, Hm0, apply_writes_app.
      * congruence.
      * intros w [Hin|Hin]%elem_of_app.
        -- exists k, g. split; [apply elem_of_cons; by left|by apply Hw0].
        -- destruct (Hw w Hin) as (k' & g' & ? & ?). exists k', g'.
           split; [apply elem_of_cons; by right|done].
    + injection H as <- <-.
      apply Hsum in E as (ws0 & Hl0 & Hm0 & Hb0 & Hw0).
      exists ws0. split_and!; try done.
      intros w Hin. exists k, g. split; [apply elem_of_cons; by left|auto].
Qed.

Lemma filter_fst_none (ws : list (Z * cell)) x :
  x ∉ ws.*1 -> filter (fun w => w.1 = x) ws = [].
Proof.
  induction ws as [|[y d] ws IH]; intros Hn; [done|].
  simpl in Hn. apply not_elem_of_cons in Hn as [Hne Hn].
  rewrite filter_cons. simpl. rewrite decide_False by done. by apply IH.
Qed.

Lemma filter_fst_unique (ws : list (Z * cell)) x c :
  NoDup ws.*1 -> (x, c) ∈ ws -> filter (fun w => w.1 = x) ws = [(x, c)].
Proof.
  induction ws as [|[y d] ws IH]; intros Hnd Hin.
  - by apply elem_of_nil in Hin.
  - simpl in Hnd. apply NoDup_cons in Hnd as [Hy Hnd].
    rewrite filter_cons. simpl.
    apply elem_of_cons in Hin as [[= <- <-]|Hin].
    + rewrite decide_True by done. f_equal.
      by apply filter_fst_none.
    + rewrite decide_False; [by apply IH|].
      intros ->. apply Hy, list_elem_of_fmap. by exists (x, c).
Qed.

(** C3. In a step that launches [Wilson]'s kernel, every store goes
    to an input array of the component or to one of the six arrays the
    kernel was handed, and the rest of the memory is as before.  At
    each component index the whole step stores once into [V] and once
    into [spike_state], and what it stores is the voltage and the spike
    flag the thread holds when the inner loop has run all its passes. *)
Theorem run_step_publishes_once s s' :
  stores_into_destination -> launches_update ->
  0 < f_grid (update_func self) -> 0 < f_block (update_func self) ->
  launch_pointers s -> separated a -> inputs_clear ->
  run_step_of sum m self update_pointers s = (Val tt, s') ->
  exists ws_in ws_k s1,
    reduce_inputs sum self s = (Val tt, s1) /\
    wlog s' = wlog s ++ ws_in ++ ws_k /\
    mem s' = apply_writes (mem s) (ws_in ++ ws_k) /\
    (forall w, w ∈ ws_in ->
       exists k g, (k, g) ∈ inputs self /\ in_array g w.1) /\
    (forall w, w ∈ ws_k ->
       exists p i, p ∈ written_slots /\ 0 <= i < num_comps a /\
                   w.1 = ptr a p + i) /\
    (forall x,
       (forall k g, (k, g) ∈ inputs self -> ~ in_array g x) ->
       (forall p i, p ∈ written_slots -> 0 <= i < num_comps a ->
                    x <> ptr a p + i) ->
       mem s' !! x = mem s !! x) /\
    forall i, 0 <= i < num_comps a ->
      exists r,
        final_regs a s1 i = Some r /\
        filter (fun w => w.1 = g_V a + i) (ws_in ++ ws_k)
        = [(g_V a + i, CF (r_V r))] /\
        filter (fun w => w.1 = g_spike_state a + i) (ws_in ++ ws_k)
        = [(g_spike_state a + i, CI (spike_flag r))].
Proof.
  intros Hsum Hfun Hg Hb (l & Hl & Ha) Hsep Hclear H.
  rewrite run_step_of_eq in H.
  apply bind_Val in H as ([] & s1 & Hr & H).
  apply bind_Val in H as (l' & s2 & Hl' & Hc).
  pose proof (pure_launch_args m self update_pointers) as Hpure.
  pose proof (pure_state _ _ _ _ Hpure Hl') as ->.
  assert (l' = l) as ->.
  { pose proof (pure_indep _ s1 s Hpure) as Hi. rewrite Hl', Hl in Hi.
    by injection Hi. }
  pose proof Hr as Hr'. unfold reduce_inputs in Hr'.
  apply (reduce_stores _ _ _ _ Hsum) in Hr' as (ws_in & Hl1 & Hm1 & _ & Hw1).
  unfold launch_of in Hc. rewrite Hfun in Hc. unfold device_call in Hc.
  destruct (update _ _ l s1) as [s2|] eqn:Eu; [|done].
  injection Hc as <-. unfold update in Eu. rewrite Ha in Eu.
  cbn [mbind option_bind] in Eu.
  apply update_kernel_Some in Eu as (Hpost & Hnd & Hm2 & Hl2 & _); try done.
  set (W := grid_indices (num_comps a)
              (f_grid (update_func self) * f_block (update_func self))
              ≫= stores_at a s1) in *.
  assert (forall w, w ∈ W ->
            exists p i, p ∈ written_slots /\ 0 <= i < num_comps a /\
                        w.1 = ptr a p + i) as HW.
  { intros w (i & Hw & Hi)%list_elem_of_bind.
    apply elem_of_grid_indices in Hi; [|nia].
    assert (w.1 ∈ (stores_at a s1 i).*1) as Hw'.
    { apply list_elem_of_fmap. by exists w. }
    apply stores_at_addr in Hw' as (p & Hp & ->). by exists p, i. }
  exists ws_in, W, s1. split_and!; try done.
  - by rewrite Hl2, Hl1, <- app_assoc.
  - by rewrite Hm2, Hm1, apply_writes_app.
  - intros x Hin Hk. rewrite Hm2, Hm1, !lookup_apply_writes_notin; [done| |].
    + intros (w & -> & Hw)%list_elem_of_fmap.
      destruct (Hw1 w Hw) as (k & g & Hkg & Hgw). by apply (Hin k g).
    + intros (w & -> & Hw)%list_elem_of_fmap.
      destruct (HW w Hw) as (p & i & Hp & Hi & Heq). by apply (Hk p i).
  - intros i Hi. destruct (Hpost i Hi) as (r & Hr0 & _).
    exists r. split; [done|].
    assert (forall p, p ∈ written_slots ->
              filter (fun w => w.1 = ptr a p + i) ws_in = []) as Hnone.
    { intros p Hp. apply filter_fst_none.
      intros (w & Hw & Hin)%list_elem_of_fmap.
      destruct (Hw1 w Hin) as (k & g & Hkg & Hgw).
      apply (Hclear k g (w.1) p i); done. }
    assert (i ∈ grid_indices (num_comps a)
              (f_grid (update_func self) * f_block (update_func self))) as HiL.
    { apply elem_of_grid_indices; [nia|done]. }
    pose proof (Hnone sO ltac:(unfold written_slots; in_list)) as HO.
    pose proof (Hnone sS ltac:(unfold written_slots; in_list)) as HS.
    simpl in HO, HS. rewrite !filter_app, HO, HS. simpl. split.
    + apply filter_fst_unique; [done|].
      eapply elem_of_stores; [done..|]. unfold cells_written. in_list.
    + apply filter_fst_unique; [done|].
      eapply elem_of_stores; [done..|]. unfold cells_written. in_list.
Qed.

End PublishFacts.
End PublishFacts.

(** ** Determinism *)

Module DeterminismFacts.
Import MonadFacts StoreFacts SeedFacts KernelFacts StepFacts ReduceFacts.
Import PublishFacts Base Wilson.
Section DeterminismFacts.
Context {FT : FloatType}.
Variable incoming : string -> Z -> list Z.

Lemma store_range_mapped p cs s s' x :
  store_range p cs s = Some s' ->
  is_Some (mem s' !! x) <-> is_Some (mem s !! x).
Proof.
  revert p s. induction cs as [|c cs IH]; intros p s H; simpl in H.
  - by injection H as <-.
  - destruct (store p c s) as [s1|] eqn:E; [|done].
    cbn [mbind option_bind] in H.
    apply store_Some in E as (Hp & Hm & _).
    rewrite (IH _ _ H), Hm, lookup_insert. case_decide; [|done].
    subst. split; eauto.
Qed.

Lemma store_range_Some_mapped p cs s s' :
  store_range p cs s = Some s' ->
  forall x, p <= x < p + Z.of_nat (length cs) -> is_Some (mem s !! x).
Proof.
  revert p s. induction cs as [|c cs IH]; intros p s H x Hx; simpl in *.
  - lia.
  - destruct (store p c s) as [s1|] eqn:E; [|done].
    cbn [mbind option_bind] in H.
    apply store_Some in E as (Hp & Hm & _).
    destruct (decide (x = p)) as [->|Hne]; [done|].
    assert (is_Some (mem s1 !! x)) as Hs1 by (apply (IH _ _ H); lia).
    rewrite Hm, lookup_insert_ne in Hs1; done.
Qed.

(** A reduction that succeeds on [s1] succeeds on every state with the
    same source values and the same mapped input arrays. *)
Lemma reduce_transfer self l s1 s1' s2 :
  for_each l (fun '(k, g) => NDComponent.sum_in_variable incoming self k g) s1
  = (Val tt, s1') ->
  sources_outside incoming l ->
  (forall k g i x, (k, g) ∈ l -> 0 <= i < Z.of_nat (size g) ->
     x ∈ incoming k i -> mem s1 !! x = mem s2 !! x) ->
  (forall k g x, (k, g) ∈ l -> in_array g x ->
     is_Some (mem s1 !! x) -> is_Some (mem s2 !! x)) ->
  exists s2',
    for_each l (fun '(k, g) => NDComponent.sum_in_variable incoming self k g)
      s2 = (Val tt, s2').
Proof.
  revert s1 s2. induction l as [|[k0 g0] l IH]; intros s1 s2 H Hsrc Hag Hmap.
  - by exists s2.
  - simpl in H. apply bind_Val in H as ([] & s1a & H0 & H).
    pose proof H0 as H0'. apply sum_in_variable_Val in H0' as [_ Hfr1].
    unfold NDComponent.sum_in_variable, device_call in H0.
    destruct (NDComponent.port_sums incoming s1 k0 0 (size g0))
      as [cs|] eqn:Ecs; cbn [mbind option_bind] in H0; [|done].
    destruct (store_range (gpudata g0) cs s1) as [t|] eqn:Es; [|done].
    injection H0 as ->.
    pose proof (port_sums_Some _ _ _ _ _ _ Ecs) as [Hlen _].
    assert (NDComponent.port_sums incoming s2 k0 0 (size g0) = Some cs)
      as Ecs2.
    { rewrite <- Ecs. symmetry. apply port_sums_ext. intros j x Hj Hx.
      apply (Hag k0 g0 j x); [apply elem_of_cons; by left|lia|done]. }
    destruct (store_range_is_Some (gpudata g0) cs s2) as [s2a Es2].
    { intros x Hx. apply (Hmap k0 g0); [apply elem_of_cons; by left| |].
      - unfold in_array. lia.
      - by apply (store_range_Some_mapped _ _ _ _ Es). }
    assert (NDComponent.sum_in_variable incoming self k0 g0 s2
            = (Val tt, s2a)) as H2.
    { unfold NDComponent.sum_in_variable, device_call.
      rewrite Ecs2. cbn [mbind option_bind]. by rewrite Es2. }
    pose proof H2 as H2'. apply sum_in_variable_Val in H2' as [_ Hfr2].
    destruct (IH s1a s2a H) as [s2' Hs2'].
    + intros k g i x k' g' Hkg Hi Hx Hkg'.
      apply (Hsrc k g i x k' g'); try done; apply elem_of_cons; by right.
    + intros k g i x Hkg Hi Hx.
      assert (~ in_array g0 x) as Hout.
      { apply (Hsrc k g i x k0 g0); try done; apply elem_of_cons; auto. }
      rewrite Hfr1, Hfr2 by done.
      apply (Hag k g i x); [apply elem_of_cons; by right|done..].
    + intros k g x Hkg Hx Hs.
      apply (store_range_mapped _ _ _ _ x Es2).
      apply (Hmap k g); [apply elem_of_cons; by right|done|].
      by apply (store_range_mapped _ _ _ _ x Es).
    + exists s2'. simpl. unfold bind. by rewrite H2.
Qed.

Lemma written_cell a i r p :
  p ∈ written_slots -> exists c, (ptr a p + i, c) ∈ cells_written a i r.
Proof.
  unfold written_slots, cells_written. rewrite !elem_of_cons, elem_of_nil.
  intros [->|[->|[->|[->|[->|[->|[]]]]]]]; simpl; eexists; in_list.
Qed.

Lemma post_cells_agree a i r s s' p :
  post_cells a i r s -> post_cells a i r s' -> p ∈ written_slots ->
  mem s !! (ptr a p + i) = mem s' !! (ptr a p + i).
Proof.
  intros (? & ? & ? & ? & ? & ?)%post_cells_lookup
         (? & ? & ? & ? & ? & ?)%post_cells_lookup.
  unfold written_slots. rewrite !elem_of_cons, elem_of_nil.
  intros [->|[->|[->|[->|[->|[->|[]]]]]]]; simpl; congruence.
Qed.

(** The order in which the threads reach the indices is immaterial:
    any other order of the same indices returns as well, with the same
    memory. *)
Lemma run_indices_permutation a L1 L2 s s1 :
  separated a -> NoDup L1 -> L1 ≡ₚ L2 ->
  (forall i, i ∈ L1 -> 0 <= i < num_comps a) ->
  run_indices a L1 s = Some s1 ->
  exists s2, run_indices a L2 s = Some s2 /\ mem s2 = mem s1.
Proof.
  intros Hsep Hnd1 Hperm Hrng1 H1.
  assert (NoDup L2) as Hnd2 by (by rewrite <- Hperm).
  assert (forall i, i ∈ L2 -> 0 <= i < num_comps a) as Hrng2.
  { intros i Hi. apply Hrng1. by rewrite Hperm. }
  pose proof (run_indices_Some a L1 s s1 Hsep Hnd1 Hrng1 H1)
    as (Hregs & Hall & Hm1 & _).
  destruct (run_indices_is_Some a L2 s) as [s2 H2]; try done.
  - intros i Hi. apply Hregs. by rewrite Hperm.
  - intros i p Hi Hp. rewrite <- Hperm in Hi.
    destruct (Hregs i Hi) as [r Hr].
    destruct (written_cell a i r p Hp) as [c Hc].
    rewrite Forall_forall in Hall.
    apply (Hall (ptr a p + i, c)). by eapply elem_of_stores.
  - exists s2. split; [done|].
    pose proof (run_indices_Some a L2 s s2 Hsep Hnd2 Hrng2 H2)
      as (_ & _ & Hm2 & _).
    pose proof (NoDup_stores a s L1 Hsep Hnd1 Hrng1) as HW1.
    pose proof (NoDup_stores a s L2 Hsep Hnd2 Hrng2) as HW2.
    rewrite Hm1, Hm2. apply map_eq. intros x.
    destruct (decide (x ∈ (L1 ≫= stores_at a s).*1)) as [Hx|Hx].
    + apply list_elem_of_fmap in Hx as ([y c] & -> & Hw). simpl.
      rewrite (lookup_apply_writes_in _ _ y c HW1 Hw).
      apply lookup_apply_writes_in; [done|].
      apply list_elem_of_bind in Hw as (i & Hw & Hi).
      apply list_elem_of_bind. exists i. split; [done|]. by rewrite <- Hperm.
    + rewrite (lookup_apply_writes_notin _ _ x Hx).
      apply lookup_apply_writes_notin.
      intros ([y c] & -> & Hw)%list_elem_of_fmap. apply Hx.
      apply list_elem_of_fmap. exists (y, c). split; [done|].
      apply list_elem_of_bind in Hw as (i & Hw & Hi).
      apply list_elem_of_bind. exists i. split; [done|]. by rewrite Hperm.
Qed.

(** A launch that succeeds on [s1] succeeds on every state that holds
    the same values in the arrays the kernel reads and maps the arrays
    it writes; the six written arrays end up equal. *)
Lemma update_kernel_transfer gridDim blockDim a s1 s1' s2 :
  0 < gridDim -> 0 < blockDim -> separated a ->
  update_kernel gridDim blockDim a s1 = Some s1' ->
  (forall p i, p ∈ read_slots -> 0 <= i < num_comps a ->
     mem s1 !! (ptr a p + i) = mem s2 !! (ptr a p + i)) ->
  (forall p i, p ∈ written_slots -> 0 <= i < num_comps a ->
     is_Some (mem s1 !! (ptr a p + i)) -> is_Some (mem s2 !! (ptr a p + i))) ->
  exists s2',
    update_kernel gridDim blockDim a s2 = Some s2' /\
    forall p i, p ∈ written_slots -> 0 <= i < num_comps a ->
      mem s1' !! (ptr a p + i) = mem s2' !! (ptr a p + i).
Proof.
  intros Hg Hb Hsep H1 Hag Hmap.
  assert (0 < gridDim * blockDim) as HT by nia.
  pose proof (update_kernel_int_launch _ _ _ _ _ Hg Hb H1) as Hint.
  pose proof H1 as H1'. rewrite update_kernel_indices in H1' by done.
  set (L := grid_indices (num_comps a) (gridDim * blockDim)) in *.
  pose proof (NoDup_grid_indices (num_comps a) _ HT) as Hnd.
  assert (forall i, i ∈ L -> 0 <= i < num_comps a) as Hrng.
  { intros i Hi. unfold L in Hi. by apply elem_of_grid_indices in Hi. }
  apply run_indices_Some in H1' as (Hregs & Hall & _); try done.
  assert (forall i, 0 <= i < num_comps a ->
            final_regs a s2 i = final_regs a s1 i) as Hfr.
  { intros i Hi. apply final_regs_ext. intros p Hp. symmetry. by apply Hag. }
  destruct (run_indices_is_Some a L s2) as [s2' H2]; try done.
  - intros i Hi. rewrite Hfr by auto. by apply Hregs.
  - intros i p Hi Hp. apply Hmap; [done|by apply Hrng|].
    destruct (Hregs i Hi) as [r Hr].
    destruct (written_cell a i r p Hp) as [c Hc].
    rewrite Forall_forall in Hall.
    apply (Hall (ptr a p + i, c)). by eapply elem_of_stores.
  - exists s2'. rewrite update_kernel_indices by done. split; [done|].
    unfold L in H2. rewrite <- update_kernel_indices in H2 by done.
    apply update_kernel_Some in H1 as (Hp1 & _); try done.
    apply update_kernel_Some in H2 as (Hp2 & _); try done.
    intros p i Hp Hi.
    destruct (Hp1 i Hi) as (r1 & Hr1 & Hc1).
    destruct (Hp2 i Hi) as (r2 & Hr2 & Hc2).
    rewrite Hfr, Hr1 in Hr2 by done. injection Hr2 as <-.
    by apply (post_cells_agree a i r1).
Qed.

Variable m : method.
Variable self : component.
Variable update_pointers : gmap string Z.
Variable a : kargs.

(** The two states deliver the same values to the input ports. *)
Definition agree_sources (s1 s2 : dstate) : Prop :=
  forall k g i x,
    (k, g) ∈ inputs self -> 0 <= i < Z.of_nat (size g) ->
    x ∈ incoming k i -> mem s1 !! x = mem s2 !! x.

(** The two states hold the same persistent state. *)
Definition agree_state (s1 s2 : dstate) : Prop :=
  forall p i,
    p ∈ [sV; sV1; sV2; sR] -> 0 <= i < num_comps a ->
    mem s1 !! (ptr a p + i) = mem s2 !! (ptr a p + i).

(** The cells of the component: its input arrays and the arrays the
    kernel writes. *)
Definition own_cell (x : Z) : Prop :=
  (exists k g, (k, g) ∈ inputs self /\ in_array g x) \/
  (exists p i, p ∈ written_slots /\ 0 <= i < num_comps a /\
               x = ptr a p + i).

Definition mapped_alike (s1 s2 : dstate) : Prop :=
  forall x, own_cell x -> is_Some (mem s1 !! x) -> is_Some (mem s2 !! x).

(** The kernel reads its input from the input arrays. *)
Definition kernel_input_reduced : Prop :=
  forall i, 0 <= i < num_comps a ->
    exists k g, (k, g) ∈ inputs self /\ in_array g (g_I a + i).

(** With the reduction of the specification the whole step, reduction
    included, is a function of the delivered values and the persistent
    state. *)
Lemma run_step_deterministic_from_sources s1 s2 s1' :
  launches_update self ->
  0 < f_grid (update_func self) -> 0 < f_block (update_func self) ->
  launch_pointers m self update_pointers a s1 ->
  separated a -> inputs_clear self a ->
  pairwise_disjoint (inputs self) -> sources_outside incoming (inputs self) ->
  kernel_input_reduced ->
  agree_sources s1 s2 -> agree_state s1 s2 -> mapped_alike s1 s2 ->
  run_step_of (NDComponent.sum_in_variable incoming) m self update_pointers s1
  = (Val tt, s1') ->
  exists s2',
    run_step_of (NDComponent.sum_in_variable incoming) m self update_pointers
      s2 = (Val tt, s2') /\
    forall p i, p ∈ written_slots -> 0 <= i < num_comps a ->
      mem s1' !! (ptr a p + i) = mem s2' !! (ptr a p + i).
Proof.
  intros Hfun Hg Hb (l & Hl & Ha) Hsep Hclear Hdis Hsrc Hin Hag Hst Hmap H.
  rewrite run_step_of_eq in H.
  apply bind_Val in H as ([] & t1 & Hr1 & H).
  apply bind_Val in H as (l' & t1' & Hl' & Hc).
  pose proof (pure_launch_args m self update_pointers) as Hpure.
  pose proof (pure_state _ _ _ _ Hpure Hl') as ->.
  assert (l' = l) as ->.
  { pose proof (pure_indep _ t1 s1 Hpure) as Hi. rewrite Hl', Hl in Hi.
    by injection Hi. }
  unfold reduce_inputs in Hr1.
  destruct (reduce_transfer self _ s1 t1 s2 Hr1 Hsrc Hag) as [t2 Hr2].
  { intros k g x Hkg Hx. apply Hmap. left. by exists k, g. }
  destruct (reduce_Val incoming self _ _ _ Hr1 Hdis Hsrc) as [Hsum1 Hfr1].
  destruct (reduce_Val incoming self _ _ _ Hr2 Hdis Hsrc) as [Hsum2 Hfr2].
  assert (forall p i, p ∈ written_slots -> 0 <= i < num_comps a ->
            mem t1 !! (ptr a p + i) = mem s1 !! (ptr a p + i) /\
            mem t2 !! (ptr a p + i) = mem s2 !! (ptr a p + i)) as Hkeep.
  { intros p i Hp Hi.
    split; [apply Hfr1|apply Hfr2]; intros k g Hkg Hx;
      by apply (Hclear k g (ptr a p + i) p i). }
  unfold launch_of in Hc. rewrite Hfun in Hc. unfold device_call in Hc.
  destruct (update _ _ l t1) as [u|] eqn:Eu; [|done].
  injection Hc as ->. unfold update in Eu. rewrite Ha in Eu.
  cbn [mbind option_bind] in Eu.
  destruct (update_kernel_transfer _ _ a t1 s1' t2 Hg Hb Hsep Eu)
    as (s2' & Eu2 & Hout).
  - intros p i Hp Hi. unfold read_slots in Hp.
    rewrite !elem_of_cons, elem_of_nil in Hp.
    destruct Hp as [->|Hp].
    + destruct (Hin i Hi) as (k & g & Hkg & Hx). simpl.
      unfold in_array in Hx.
      replace (g_I a + i) with (gpudata g + (g_I a + i - gpudata g)) by lia.
      destruct (Hsum1 k g (g_I a + i - gpudata g) Hkg) as (x1 & Hx1 & ->);
        [lia|].
      destruct (Hsum2 k g (g_I a + i - gpudata g) Hkg) as (x2 & Hx2 & ->);
        [lia|].
      rewrite (port_sum_ext s1 s2) in Hx1; [congruence|].
      intros y Hy. apply (Hag k g (g_I a + i - gpudata g)); [done|lia|done].
    + assert (p ∈ written_slots /\ p ∈ [sV; sV1; sV2; sR]) as [Hw Hs].
      { unfold written_slots. rewrite !elem_of_cons.
        destruct Hp as [->|[->|[->|[->|[]]]]]; auto 10. }
      destruct (Hkeep p i Hw Hi) as [-> ->]. by apply Hst.
  - intros p i Hp Hi. destruct (Hkeep p i Hp Hi) as [-> ->].
    apply Hmap. right. by exists p, i.
  - exists s2'. split; [|done]. rewrite run_step_of_eq.
    apply bind_Val. exists tt, t2. split; [done|].
    apply bind_Val. exists l, t2. split.
    + destruct Hpure as [o Ho]. rewrite Ho in Hl |- *. by injection Hl as ->.
    + unfold launch_of. rewrite Hfun. unfold device_call, update.
      rewrite Ha. cbn [mbind option_bind]. by rewrite Eu2.
Qed.

End DeterminismFacts.

Section StepDeterminism.
Context {FT : FloatType}.
Variable sum : component -> string -> garray -> M unit.
Variable m : method.
Variable self : component.
Variable update_pointers : gmap string Z.
Variable a : kargs.

(** The input buffer and the persistent state the kernel reads. *)
Definition same_inputs_and_state (t1 t2 : dstate) : Prop :=
  forall p i,
    p ∈ read_slots -> 0 <= i < num_comps a ->
    mem t1 !! (ptr a p + i) = mem t2 !! (ptr a p + i).

(** The arrays the kernel writes exist in the second state where they
    do in the first. *)
Definition same_arrays (t1 t2 : dstate) : Prop :=
  forall p i,
    p ∈ written_slots -> 0 <= i < num_comps a ->
    is_Some (mem t1 !! (ptr a p + i)) -> is_Some (mem t2 !! (ptr a p + i)).

(** C6. Two calls of [run_step] on one component: when the reductions
    leave the same input buffer contents and the persistent state is
    the same, the second call succeeds as the first does, and both
    publish the same [V] and [spike_state] and leave the same persistent
    state.  Nothing else in the two memories has any influence, and the
    step consults no other source. *)
Theorem run_step_deterministic s1 s2 t1 t2 s1' :
  launches_update self ->
  0 < f_grid (update_func self) -> 0 < f_block (update_func self) ->
  launch_pointers m self update_pointers a s1 -> separated a ->
  reduce_inputs sum self s1 = (Val tt, t1) ->
  reduce_inputs sum self s2 = (Val tt, t2) ->
  same_inputs_and_state t1 t2 -> same_arrays t1 t2 ->
  run_step_of sum m self update_pointers s1 = (Val tt, s1') ->
  exists s2',
    run_step_of sum m self update_pointers s2 = (Val tt, s2') /\
    forall p i, p ∈ written_slots -> 0 <= i < num_comps a ->
      mem s1' !! (ptr a p + i) = mem s2' !! (ptr a p + i).
Proof.
  intros Hfun Hg Hb (l & Hl & Ha) Hsep Hr1 Hr2 Hag Hmap H.
  rewrite run_step_of_eq in H.
  apply bind_Val in H as ([] & t1' & Hr1' & H).
  rewrite Hr1 in Hr1'. injection Hr1' as <-.
  apply bind_Val in H as (l' & t1' & Hl' & Hc).
  pose proof (pure_launch_args m self update_pointers) as Hpure.
  pose proof (pure_state _ _ _ _ Hpure Hl') as ->.
  assert (l' = l) as ->.
  { pose proof (pure_indep _ t1 s1 Hpure) as Hi. rewrite Hl', Hl in Hi.
    by injection Hi. }
  unfold launch_of in Hc. rewrite Hfun in Hc. unfold device_call in Hc.
  destruct (update _ _ l t1) as [u|] eqn:Eu; [|done].
  injection Hc as ->. unfold update in Eu. rewrite Ha in Eu.
  cbn [mbind option_bind] in Eu.
  destruct (update_kernel_transfer _ _ a t1 s1' t2 Hg Hb Hsep Eu Hag Hmap)
    as (s2' & Eu2 & Hout).
  exists s2'. split; [|done]. rewrite run_step_of_eq.
  apply bind_Val. exists tt, t2. split; [done|].
  apply bind_Val. exists l, t2. split.
  - destruct Hpure as [o Ho]. rewrite Ho in Hl |- *. by injection Hl as ->.
  - unfold launch_of. rewrite Hfun. unfold device_call, update.
    rewrite Ha. cbn [mbind option_bind]. by rewrite Eu2.
Qed.

End StepDeterminism.
End DeterminismFacts.

(** ** The sub-steps of a round *)

Module SubstepFacts.
Import MonadFacts StoreFacts KernelFacts BaseFacts StepFacts.
Section SubstepFacts.
Context {FT : FloatType}.

Lemma inner_loop_iter n dt I r :
  Wilson.inner_loop n dt I r = Nat.iter n (Wilson.substep dt I) r.
Proof.
  induction n as [|n IH]; [done|]. by rewrite inner_loop_S, IH.
Qed.


End SubstepFacts.
End SubstepFacts.

(** * Concrete components *)

Module Demo.
Import StoreFacts KernelFacts StepFacts ReduceFacts PublishFacts.
Import DeterminismFacts.

#[local] Existing Instance double_FloatType.

Definition f64 (p : Z) (n : nat) : garray :=
  {| gpudata := p; size := n; dtype_of := float64 |}.

(** *** A model built by the inherited constructor *)

(** A class with one parameter and one internal state, a declared
    [max_dt] equal to [Wilson]'s, and a kernel that does nothing. *)
Definition relay : Base.model := {|
  Base.accesses := ["I"%string];
  Base.updates := ["spike_state"%string; "V"%string];
  Base.params := Base.ParamList ["initV"%string];
  Base.internals := Some [("internalV"%string, (-65.0)%float)];
  Base.states := [];
  Base.max_dt := Some 1e-5%float;
  Base.get_update_func :=
    Base.base_get_update_func 80 (Some (fun _ _ _ s => Some s));
|}.

(** A class with two parameters. *)
Definition relay2 : Base.model := {|
  Base.accesses := ["I"%string];
  Base.updates := ["spike_state"%string; "V"%string];
  Base.params := Base.ParamList ["a"%string; "b"%string];
  Base.internals := Some [("internalV"%string, (-65.0)%float)];
  Base.states := [];
  Base.max_dt := Some 1e-5%float;
  Base.get_update_func :=
    Base.base_get_update_func 80 (Some (fun _ _ _ s => Some s));
|}.

Definition relay_params : gmap string garray :=
  {[ "initV"%string := f64 0 3 ]}.

(** Two parameter arrays of different sizes. *)
Definition relay2_params : gmap string garray :=
  {[ "a"%string := f64 0 3; "b"%string := f64 3 2 ]}.

Definition relay_buffers : gmap string garray :=
  {[ "I"%string := f64 100 13 ]}.

(** The LPU's memory before construction: the parameter array, the
    published [V] at 18..20 and the buffer of source values. *)
Definition relay_mem : dstate :=
  {| mem := fill (fill (fill ∅ 0 (replicate 6 (CF (-60.0)%float)))
                       18 (replicate 3 (CF 0%float)))
                 100 (replicate 13 (CF 20%float));
     wlog := [];
     brk := 200 |}.

(** An instance with its internal state at 6..8. *)
Definition relay_self : Base.component := {|
  Base.cls := relay;
  Base.num_comps := 3;
  Base.params_dict := relay_params;
  Base.access_buffers := relay_buffers;
  Base.dtype_self := float64;
  Base.dt := 1e-4%float;
  Base.ddt := 1e-6%float;
  Base.steps := 100;
  Base.internal_states := [("internalV"%string, f64 6 3)];
  Base.inputs := [("I"%string, f64 9 3)];
  Base.self_states := [];
  Base.update_func :=
    {| f_grid := 1; f_block := 128;
       prepared_async_call := fun _ _ _ => ret tt |};
|}.

Definition relay_pointers : gmap string Z :=
  {[ "spike_state"%string := 15; "V"%string := 18 ]}.

Definition relay_self_mem : dstate :=
  {| mem := fill ∅ 0 (replicate 3 (CF (-60.0)%float)
                      ++ replicate 3 CU
                      ++ replicate 3 (CF (-65.0)%float)
                      ++ replicate 3 CU
                      ++ replicate 3 CU
                      ++ replicate 3 (CI 0)
                      ++ replicate 3 (CF 0%float));
     wlog := [];
     brk := 200 |}.

(** *** A [Wilson] instance

    Its arrays: the input at 0..2, [R] at 3..5, [V] at 6..8, [Vprev1]
    at 9..11, [Vprev2] at 12..14, the published [spike_state] at
    15..17 and the published [V] at 18..20.  The sub-step count is the
    one line 37 of the constructor gives for [dt = 1e-4]. *)
Definition wilson_self : Base.component := {|
  Base.cls := Wilson.Wilson;
  Base.num_comps := 3;
  Base.params_dict := ∅;
  Base.access_buffers := relay_buffers;
  Base.dtype_self := float64;
  Base.dt := 1e-4%float;
  Base.ddt := 1e-6%float;
  Base.steps := 100;
  Base.internal_states := [];
  Base.inputs := [("I"%string, f64 0 3)];
  Base.self_states :=
    [("R"%string, Base.PyArr (f64 3 3));
     ("V"%string, Base.PyArr (f64 6 3));
     ("Vprev1"%string, Base.PyArr (f64 9 3));
     ("Vprev2"%string, Base.PyArr (f64 12 3))];
  Base.update_func := Wilson.wilson_update_func 80 3;
|}.

Definition wilson_kargs : Wilson.kargs := {|
  Wilson.num_comps := 3;
  Wilson.dt := (1000.0 * 1e-4)%float;
  Wilson.nsteps := 100;
  Wilson.g_I := 0;
  Wilson.g_R := 3;
  Wilson.g_internalV := 6;
  Wilson.g_internalVprev1 := 9;
  Wilson.g_internalVprev2 := 12;
  Wilson.g_spike_state := 15;
  Wilson.g_V := 18;
|}.

(** Two connections into every port. *)
Definition wilson_incoming (var : string) (i : Z) : list Z :=
  [100 + i; 110 + i].

Definition wilson_mem : dstate :=
  {| mem := fill (fill ∅ 0 (replicate 3 CU
                            ++ replicate 3 (CF 0.088%float)
                            ++ replicate 9 (CF (-70.0)%float)
                            ++ replicate 3 (CI 0)
                            ++ replicate 3 (CF 0%float)))
                 100 (replicate 13 (CF 20%float));
     wlog := [];
     brk := 200 |}.

(** The same memory after another round left other values in the
    published [V], and with a cell of another component changed. *)
Definition wilson_mem' : dstate :=
  {| mem := <[18 := CF 1%float]> (<[999 := CI 5]> (mem wilson_mem));
     wlog := [];
     brk := 200 |}.

(** The memory when the kernel starts: the input reduced. *)
Definition wilson_kernel_mem : dstate :=
  {| mem := fill (mem wilson_mem) 0 (replicate 3 (CF 40%float));
     wlog := [];
     brk := 200 |}.

(** The initial condition of [relay_self]. *)
Definition relay_seed : list cell := replicate 3 (CF (-60.0)%float).

Lemma wilson_separated : separated wilson_kargs.
Proof. intros p q Hne. destruct p, q; first [done | simpl; lia]. Qed.

(** *** Further classes built by the inherited constructor *)

(** [relay] with a declared [max_dt] below the inner step of the base
    class. *)
Definition fine : Base.model := {|
  Base.accesses := ["I"%string];
  Base.updates := ["spike_state"%string; "V"%string];
  Base.params := Base.ParamList ["initV"%string];
  Base.internals := Some [("internalV"%string, (-65.0)%float)];
  Base.states := [];
  Base.max_dt := Some 1e-7%float;
  Base.get_update_func :=
    Base.base_get_update_func 80 (Some (fun _ _ _ s => Some s));
|}.

(** [relay] with an internal state under another name. *)
Definition flat : Base.model := {|
  Base.accesses := ["I"%string];
  Base.updates := ["spike_state"%string; "V"%string];
  Base.params := Base.ParamList ["initV"%string];
  Base.internals := Some [("R"%string, 0.088%float)];
  Base.states := [];
  Base.max_dt := Some 1e-5%float;
  Base.get_update_func :=
    Base.base_get_update_func 80 (Some (fun _ _ _ s => Some s));
|}.

(** *** Four instances around a voltage peak

    The input at 0..3, [R] at 4..7, [V] at 8..11, [Vprev1] at 12..15,
    [Vprev2] at 16..19, [spike_state] at 20..23 and the published [V]
    at 24..27.  Instance 0 has passed a maximum above 20; instance 1 a
    maximum of exactly 20; instance 2 has a falling history; instance
    3 is still above its last voltage after one pass. *)
Definition peak_kargs (n : Z) : Wilson.kargs := {|
  Wilson.num_comps := 4;
  Wilson.dt := 0.01%float;
  Wilson.nsteps := n;
  Wilson.g_I := 0;
  Wilson.g_R := 4;
  Wilson.g_internalV := 8;
  Wilson.g_internalVprev1 := 12;
  Wilson.g_internalVprev2 := 16;
  Wilson.g_spike_state := 20;
  Wilson.g_V := 24;
|}.

Definition peak_mem : dstate :=
  {| mem := fill ∅ 0
       (replicate 4 (CF 0%float)
        ++ replicate 4 (CF 0.5%float)
        ++ [CF 30%float; CF 20%float; CF 30%float; CF 40%float]
        ++ [CF 30%float; CF 20%float; CF 30%float; CF 25%float]
        ++ [CF 25%float; CF 15%float; CF 35%float; CF 24%float]
        ++ replicate 4 (CI 0)
        ++ replicate 4 (CF 0%float));
     wlog := [];
     brk := 28 |}.

Lemma peak_separated n : separated (peak_kargs n).
Proof. intros p q Hne. destruct p, q; first [done | simpl; lia]. Qed.

End Demo.

(** * The properties at the concrete components *)

Module Cases.
Import StoreFacts KernelFacts StepFacts ReduceFacts PublishFacts.
Import DeterminismFacts Demo.

#[local] Existing Instance double_FloatType.

(** The count of the specification: [max(1, floor(dt / max_dt))] with
    the step the class declares. *)
Definition spec_substeps (m : Base.model) (dt : float) : option Z :=
  h ← Base.max_dt m;
  match int_of_float (dt / h)%float with
  | Val q => Some (Z.max 1 q)
  | Exn _ => None
  end.

(** C1 as stated fails: a class that declares [max_dt = 1e-5], built
    with [dt = 1e-4], gets 100 sub-steps where the declared step gives
    10. *)
Lemma substeps_ignore_max_dt :
  ~ (forall m pd ab dt s self s' n,
       PrimFloat.ltb 0 dt = true ->
       Base.init m pd ab dt s = (Val self, s') ->
       spec_substeps m dt = Some n ->
       Base.steps self = n).
Proof.
  intros H.
  destruct (Base.init relay relay_params relay_buffers 1e-4 relay_mem)
    as [[self|e] s'] eqn:E; [|vm_compute in E; discriminate].
  specialize (H relay relay_params relay_buffers 1e-4%float relay_mem
                self s' 10 eq_refl E eq_refl).
  vm_compute in E. injection E as <- _. vm_compute in H. discriminate.
Qed.

Lemma init_substep_count_witness :
  exists self s',
    Base.init relay relay_params relay_buffers 1e-4 relay_mem = (Val self, s')
    /\ Base.ddt self = 1e-6%float /\ Base.steps self = 100.
Proof.
  destruct (Base.init relay relay_params relay_buffers 1e-4 relay_mem)
    as [[self|e] s'] eqn:E; [|vm_compute in E; discriminate].
  exists self, s'. split; [reflexivity|].
  destruct (BaseFacts.init_substep_count _ _ _ _ _ _ _ E)
    as (Hddt & q & Hq & _ & Hsmall & _).
  vm_compute in Hq. injection Hq as <-.
  split; [exact Hddt|]. apply Hsmall. reflexivity.
Defined.

(** C7 as stated fails: two declared parameters with arrays of three and
    of two elements, and the constructor returns an instance. *)
Lemma shape_mismatch_accepted :
  ~ (forall m pd ab dt s k1 k2 a1 a2,
       k1 ∈ Base.params_keys (Base.params m) ->
       k2 ∈ Base.params_keys (Base.params m) ->
       pd !! k1 = Some a1 -> pd !! k2 = Some a2 ->
       size a1 <> size a2 ->
       exists e s', Base.init m pd ab dt s = (Exn e, s')).
Proof.
  intros H.
  destruct (H relay2 relay2_params relay_buffers 1e-4%float relay_mem
              "a"%string "b"%string (f64 0 3) (f64 3 2))
    as (e & s' & E).
  - simpl. in_list.
  - simpl. in_list.
  - reflexivity.
  - reflexivity.
  - simpl. lia.
  - vm_compute in E. discriminate.
Qed.

Lemma init_requires_params_witness :
  (exists e s', Base.init relay ∅ relay_buffers 1e-4 relay_mem = (Exn e, s'))
  /\ Base.init relay ∅ relay_buffers 1e-4 relay_mem
     = (Exn (KeyError (StrKey "initV")), relay_mem).
Proof.
  destruct (BaseFacts.init_requires_params relay ∅ relay_buffers 1e-4%float
              relay_mem) as (_ & Hany & Hfirst).
  split.
  - apply (Hany "initV"%string); [simpl; in_list|reflexivity].
  - apply Hfirst; reflexivity.
Defined.



(** *** The kernel *)

Lemma update_output_mirrors_state_witness :
  exists s' v,
    Wilson.update_kernel 1 128 wilson_kargs wilson_kernel_mem = Some s' /\
    mem s' !! 19 = Some (CF v) /\
    mem s' !! 7 = Some (CF v) /\
    mem s' !! 10 = Some (CF v).
Proof.
  destruct (Wilson.update_kernel 1 128 wilson_kargs wilson_kernel_mem)
    as [s'|] eqn:E; [|vm_compute in E; discriminate].
  destruct (update_output_mirrors_state 1 128 wilson_kargs wilson_kernel_mem
              s' 1) as (v & HV & HiV & HiV1).
  - lia.
  - lia.
  - exact wilson_separated.
  - simpl. lia.
  - simpl. lia.
  - exact E.
  - exists s', v. split; [reflexivity|]. split; [exact HV|].
    split; [exact HiV|exact HiV1].
Defined.

Lemma update_spike_state_flag_witness :
  exists s' I r0,
    Wilson.update_kernel 1 128 (peak_kargs 1) peak_mem = Some s' /\
    load_regs (peak_kargs 1) peak_mem 0 = Some (I, r0) /\
    mem s' !! 20 = Some (CI 1) /\ mem s' !! 21 = Some (CI 0) /\
    mem s' !! 22 = Some (CI 0) /\ mem s' !! 23 = Some (CI 0) /\
    PrimFloat.leb (Wilson.r_Vprev2 r0) (Wilson.r_Vprev1 r0) = true /\
    PrimFloat.leb (Wilson.r_V (Wilson.substep 0.01%float I r0))
      (Wilson.r_Vprev1 r0) = true /\
    PrimFloat.ltb 20 (Wilson.r_Vprev1 r0) = true.
Proof.
  destruct (Wilson.update_kernel 1 128 (peak_kargs 1) peak_mem)
    as [s'|] eqn:E; [|vm_compute in E; discriminate].
  destruct (update_spike_state_flag 1 128 (peak_kargs 1) peak_mem s' 0)
    as (I & r0 & b & Hl & HS & _ & Hiff).
  - lia.
  - lia.
  - exact (peak_separated 1).
  - simpl. lia.
  - exact E.
  - assert (forall k, mem s' !! k
                = (t ← Wilson.update_kernel 1 128 (peak_kargs 1) peak_mem;
                   mem t !! k)) as Hm.
    { intros k. rewrite E. reflexivity. }
    assert (b = 1) as Hb.
    { rewrite Hm in HS. vm_compute in HS. injection HS as <-. reflexivity. }
    destruct (proj1 Hiff Hb) as (j & Hj & H1 & H2 & H3).
    assert (j = 0%nat) as -> by (simpl in Hj; lia).
    exists s', I, r0. split; [reflexivity|]. split; [exact Hl|].
    split; [rewrite Hm; vm_compute; reflexivity|].
    split; [rewrite Hm; vm_compute; reflexivity|].
    split; [rewrite Hm; vm_compute; reflexivity|].
    split; [rewrite Hm; vm_compute; reflexivity|].
    split; [exact H1|]. split; [exact H2|exact H3].
Defined.

(** *** The step *)

Definition wilson_sum : Base.component -> string -> garray -> M unit :=
  NDComponent.sum_in_variable wilson_incoming.

Definition wilson_launch : launch :=
  {| l_num_comps := 3;
     l_dt := (1000.0 * 1e-4)%float;
     l_nsteps := 100;
     l_ptrs := [0; 3; 6; 9; 12; 15; 18] |}.

Lemma wilson_launch_pointers s :
  launch_pointers WilsonStep wilson_self relay_pointers wilson_kargs s.
Proof. exists wilson_launch. split; reflexivity. Qed.

Lemma wilson_inputs_clear : inputs_clear wilson_self wilson_kargs.
Proof.
  intros k g x p i Hkg Hx Hp Hi.
  apply list_elem_of_singleton in Hkg. injection Hkg as -> ->.
  unfold in_array in Hx. simpl in Hx, Hi.
  unfold written_slots in Hp. rewrite !elem_of_cons, elem_of_nil in Hp.
  destruct Hp as [ -> | [ -> | [ -> | [ -> | [ -> | [ -> | [] ] ] ] ] ] ];
    simpl; lia.
Qed.

Lemma wilson_sources_outside :
  sources_outside wilson_incoming (Base.inputs wilson_self).
Proof.
  intros k g i x k' g' Hkg Hi Hx Hkg' Hin.
  apply list_elem_of_singleton in Hkg. injection Hkg as -> ->.
  apply list_elem_of_singleton in Hkg'. injection Hkg' as -> ->.
  unfold in_array in Hin. simpl in Hi, Hin.
  unfold wilson_incoming in Hx. rewrite !elem_of_cons, elem_of_nil in Hx.
  lia.
Qed.

Lemma wilson_pairwise_disjoint : pairwise_disjoint (Base.inputs wilson_self).
Proof. simpl. split; [constructor|exact I]. Qed.



Lemma run_step_publishes_once_witness :
  exists s' r,
    run_step_of wilson_sum WilsonStep wilson_self relay_pointers wilson_mem
    = (Val tt, s') /\
    filter (fun w => w.1 = 19) (wlog s') = [(19, CF (Wilson.r_V r))] /\
    filter (fun w => w.1 = 16) (wlog s') = [(16, CI (spike_flag r))].
Proof.
  destruct (run_step_of wilson_sum WilsonStep wilson_self relay_pointers
              wilson_mem) as [[[]|e] s'] eqn:E; [|vm_compute in E; discriminate].
  destruct (run_step_publishes_once wilson_sum WilsonStep wilson_self
              relay_pointers wilson_kargs wilson_mem s')
    as (ws_in & ws_k & s1 & _ & Hlog & _ & _ & _ & _ & Hidx).
  - intros k g s o t H.
    exact (sum_in_variable_stores wilson_incoming wilson_self k g s o t H).
  - reflexivity.
  - reflexivity.
  - reflexivity.
  - apply wilson_launch_pointers.
  - exact wilson_separated.
  - exact wilson_inputs_clear.
  - exact E.
  - destruct (Hidx 1) as (r & _ & HV & HS); [simpl; lia|].
    exists s', r. split; [reflexivity|]. rewrite Hlog. simpl.
    split; [exact HV|exact HS].
Defined.

Lemma run_step_reduces_inputs_first_witness :
  exists s' s1,
    run_step_of wilson_sum WilsonStep wilson_self relay_pointers wilson_mem
    = (Val tt, s') /\
    Base.reduce_inputs wilson_sum wilson_self wilson_mem = (Val tt, s1) /\
    mem s1 !! 1 = Some (CF 40%float).
Proof.
  destruct (run_step_of wilson_sum WilsonStep wilson_self relay_pointers
              wilson_mem) as [[[]|e] s'] eqn:E; [|vm_compute in E; discriminate].
  destruct (run_step_reduces_inputs_first wilson_incoming WilsonStep
              wilson_self relay_pointers wilson_mem s')
    as (s1 & l & Hr & _ & Hsum & _).
  - exact wilson_pairwise_disjoint.
  - exact wilson_sources_outside.
  - exact E.
  - destruct (Hsum "I"%string (f64 0 3) 1) as (x & Hx & Hm).
    + simpl. in_list.
    + simpl. lia.
    + vm_compute in Hx. injection Hx as <-.
      exists s', s1. split; [reflexivity|]. split; [exact Hr|exact Hm].
Defined.

(** The two memories after the reduction. *)
Definition wilson_reduced : dstate :=
  (Base.reduce_inputs wilson_sum wilson_self wilson_mem).2.

Definition wilson_reduced' : dstate :=
  (Base.reduce_inputs wilson_sum wilson_self wilson_mem').2.

Lemma wilson_reduce :
  Base.reduce_inputs wilson_sum wilson_self wilson_mem
  = (Val tt, wilson_reduced).
Proof. vm_compute. reflexivity. Qed.

Lemma wilson_reduce' :
  Base.reduce_inputs wilson_sum wilson_self wilson_mem'
  = (Val tt, wilson_reduced').
Proof. vm_compute. reflexivity. Qed.

Lemma wilson_same_inputs :
  same_inputs_and_state wilson_kargs wilson_reduced wilson_reduced'.
Proof.
  intros p i Hp Hi. unfold read_slots in Hp.
  rewrite !elem_of_cons, elem_of_nil in Hp. simpl in Hi.
  assert (i = 0 \/ i = 1 \/ i = 2) as [ -> | [ -> | -> ] ] by lia;
    destruct Hp as [ -> | [ -> | [ -> | [ -> | [ -> | [] ] ] ] ] ];
    vm_compute; reflexivity.
Qed.

Lemma wilson_same_arrays :
  same_arrays wilson_kargs wilson_reduced wilson_reduced'.
Proof.
  intros p i Hp Hi _. unfold written_slots in Hp.
  rewrite !elem_of_cons, elem_of_nil in Hp. simpl in Hi.
  assert (i = 0 \/ i = 1 \/ i = 2) as [ -> | [ -> | -> ] ] by lia;
    destruct Hp as [ -> | [ -> | [ -> | [ -> | [ -> | [ -> | [] ] ] ] ] ] ];
    vm_compute; eauto.
Qed.

Lemma run_step_deterministic_witness :
  exists s1' s2',
    run_step_of wilson_sum WilsonStep wilson_self relay_pointers wilson_mem
    = (Val tt, s1') /\
    run_step_of wilson_sum WilsonStep wilson_self relay_pointers wilson_mem'
    = (Val tt, s2') /\
    mem s1' !! 18 = mem s2' !! 18 /\ mem s1' !! 15 = mem s2' !! 15.
Proof.
  destruct (run_step_of wilson_sum WilsonStep wilson_self relay_pointers
              wilson_mem) as [[[]|e] s1'] eqn:E; [|vm_compute in E; discriminate].
  destruct (run_step_deterministic wilson_sum WilsonStep wilson_self
              relay_pointers wilson_kargs wilson_mem wilson_mem'
              wilson_reduced wilson_reduced' s1')
    as (s2' & Hrun & Hout).
  - reflexivity.
  - reflexivity.
  - reflexivity.
  - apply wilson_launch_pointers.
  - exact wilson_separated.
  - exact wilson_reduce.
  - exact wilson_reduce'.
  - exact wilson_same_inputs.
  - exact wilson_same_arrays.
  - exact E.
  - exists s1', s2'. split; [reflexivity|]. split; [exact Hrun|].
    split.
    + apply (Hout sO 0); [unfold written_slots; in_list|simpl; lia].
    + apply (Hout sS 0); [unfold written_slots; in_list|simpl; lia].
Defined.

End Cases.

(** * Further properties of the kernel *)

Module KernelMore.
Import StoreFacts KernelFacts DeterminismFacts Wilson.
Section KernelMore.
Context {FT : FloatType}.

Lemma grid_indices_perm n T : 0 < T -> grid_indices n T ≡ₚ seqZ 0 n.
Proof.
  intros HT. apply NoDup_Permutation.
  - by apply NoDup_grid_indices.
  - apply NoDup_seqZ.
  - intros x. rewrite elem_of_grid_indices, elem_of_seqZ by done. lia.
Qed.


Lemma seqZ_range n i : i ∈ seqZ 0 n -> 0 <= i < n.
Proof. rewrite elem_of_seqZ. lia. Qed.

(** X2. On non-overlapping arrays the memory a returning launch
    leaves does not depend on the launch configuration: two returning
    launches with different grids and blocks leave the same memory, the
    one the plain loop [for i = 0 .. num_comps - 1] leaves. *)
Theorem update_independent_of_grid g1 b1 g2 b2 a s s1 s2 :
  0 < g1 -> 0 < b1 -> 0 < g2 -> 0 < b2 -> separated a ->
  update_kernel g1 b1 a s = Some s1 ->
  update_kernel g2 b2 a s = Some s2 ->
  mem s2 = mem s1 /\
  exists s3, run_indices a (seqZ 0 (num_comps a)) s = Some s3 /\
             mem s3 = mem s1.
Proof.
  intros Hg1 Hb1 Hg2 Hb2 Hsep H1 H2.
  assert (0 < g1 * b1) as HT1 by nia. assert (0 < g2 * b2) as HT2 by nia.
  apply update_kernel_Some_indices in H1; [|done..].
  apply update_kernel_Some_indices in H2; [|done..].
  pose proof (grid_indices_perm (num_comps a) _ HT1) as Hp1.
  pose proof (grid_indices_perm (num_comps a) _ HT2) as Hp2.
  assert (forall i, i ∈ grid_indices (num_comps a) (g1 * b1) ->
                    0 <= i < num_comps a) as Hrng.
  { intros i. by rewrite elem_of_grid_indices. }
  split.
  - destruct (run_indices_permutation a
                (grid_indices (num_comps a) (g1 * b1))
                (grid_indices (num_comps a) (g2 * b2)) s s1)
      as (s2' & H2' & Hm); [done|by apply NoDup_grid_indices| |done|done|].
    + by rewrite Hp1, Hp2.
    + congruence.
  - eapply run_indices_permutation; [done| | |done|done].
    + by apply NoDup_grid_indices.
    + done.
Qed.

(** X3. A launch on non-overlapping arrays writes the six arrays it
    publishes and nothing else: the input array [g_I] and every other
    cell keep their content, no cell is mapped or unmapped, and the
    allocator is not moved. *)
Theorem update_writes_only_its_arrays gridDim blockDim a s s' :
  0 < gridDim -> 0 < blockDim -> separated a ->
  update_kernel gridDim blockDim a s = Some s' ->
  brk s' = brk s /\
  (forall i, 0 <= i < num_comps a ->
     mem s' !! (g_I a + i) = mem s !! (g_I a + i)) /\
  (forall x,
     (forall p i, p ∈ written_slots -> 0 <= i < num_comps a ->
                  x <> ptr a p + i) ->
     mem s' !! x = mem s !! x) /\
  (forall x, is_Some (mem s' !! x) <-> is_Some (mem s !! x)).
Proof.
  intros Hg Hb Hsep H. assert (0 < gridDim * blockDim) as HT by nia.
  apply update_kernel_Some_indices in H; [|done..].
  set (L := grid_indices (num_comps a) (gridDim * blockDim)) in *.
  assert (forall i, i ∈ L -> 0 <= i < num_comps a) as Hrng.
  { intros i Hi. unfold L in Hi. by apply elem_of_grid_indices in Hi. }
  apply run_indices_Some in H as (_ & Hall & Hm & _ & Hbrk);
    [|done|by apply NoDup_grid_indices|done].
  assert (forall x,
            (forall p i, p ∈ written_slots -> 0 <= i < num_comps a ->
                         x <> ptr a p + i) ->
            mem s' !! x = mem s !! x) as Hframe.
  { intros x Hx. rewrite Hm. apply lookup_apply_writes_notin.
    rewrite fmap_bind_list. intros (i & Hin & Hi)%list_elem_of_bind.
    apply stores_at_addr in Hin as (p & Hp & ->).
    by apply (Hx p i Hp (Hrng i Hi)). }
  split_and!; [done| |done|].
  - intros i Hi. apply Hframe. intros p j Hp Hj Heq.
    apply (ptr_inj a sI p i j) in Heq as [<- _]; [|done..].
    unfold written_slots in Hp. rewrite !elem_of_cons, elem_of_nil in Hp.
    destruct Hp as [ ? | [ ? | [ ? | [ ? | [ ? | [ ? | [] ] ] ] ] ] ];
      discriminate.
  - intros x. rewrite Hm. split.
    + by apply apply_writes_mapped_inv.
    + apply apply_writes_mapped.
Qed.

(** What a returning launch found when it started. *)
Lemma update_writes_only_its_arrays_aux gridDim blockDim a s s' :
  0 < gridDim -> 0 < blockDim -> separated a ->
  update_kernel gridDim blockDim a s = Some s' ->
  (forall i, 0 <= i < num_comps a -> is_Some (load_regs a s i)) /\
  (forall p i, p ∈ written_slots -> 0 <= i < num_comps a ->
     is_Some (mem s !! (ptr a p + i))).
Proof.
  intros Hg Hb Hsep H. assert (0 < gridDim * blockDim) as HT by nia.
  apply update_kernel_Some_indices in H; [|done..].
  set (L := grid_indices (num_comps a) (gridDim * blockDim)) in *.
  assert (forall i, i ∈ L <-> 0 <= i < num_comps a) as Hrng.
  { intros i. unfold L. by apply elem_of_grid_indices. }
  apply run_indices_Some in H as (Hregs & Hall & _);
    [|done|by apply NoDup_grid_indices|by intros i Hi%Hrng].
  split.
  - intros i Hi%Hrng. destruct (Hregs i Hi) as [r Hr].
    apply final_regs_load in Hr as (I & r0 & -> & _). by eexists.
  - intros p i Hp Hi%Hrng. destruct (Hregs i Hi) as [r Hr].
    destruct (written_cell a i r p Hp) as [c Hc].
    rewrite Forall_forall in Hall.
    apply (Hall (ptr a p + i, c)). by eapply elem_of_stores.
Qed.

(** X4. A launch with [nsteps <= 0] runs no pass: it publishes the
    stored [internalV] as [V] and 0 as [spike_state], and stores back
    the state it read. *)
Theorem update_without_passes gridDim blockDim a s s' i :
  0 < gridDim -> 0 < blockDim -> separated a ->
  nsteps a <= 0 -> 0 <= i < num_comps a ->
  update_kernel gridDim blockDim a s = Some s' ->
  mem s' !! (g_V a + i) = mem s !! (g_internalV a + i) /\
  mem s' !! (g_spike_state a + i) = Some (CI 0) /\
  mem s' !! (g_internalV a + i) = mem s !! (g_internalV a + i) /\
  mem s' !! (g_internalVprev1 a + i) = mem s !! (g_internalVprev1 a + i) /\
  mem s' !! (g_internalVprev2 a + i) = mem s !! (g_internalVprev2 a + i) /\
  mem s' !! (g_R a + i) = mem s !! (g_R a + i).
Proof.
  intros Hg Hb Hsep Hn Hi H.
  apply update_kernel_Some in H as (Hpost & _); try done.
  destruct (Hpost i Hi) as (r & Hr & Hc).
  apply final_regs_load in Hr as (I & r0 & Hl & ->).
  replace (Z.to_nat (nsteps a)) with 0%nat in Hc by lia. simpl in Hc.
  apply post_cells_lookup in Hc as (HV & HR & HiV & HiV1 & HiV2 & HS).
  apply load_regs_Some in Hl as (_ & -> & -> & -> & -> & Hsp).
  unfold spike_flag in HS. rewrite Hsp in HS. by split_and!.
Qed.

(** X6. The counter [spike] starts at 0 and after [j] passes of the
    inner loop lies between 0 and [j]: for a pass count that fits an
    [int], the additions [spike += ...] never leave the range of
    [INTTYPE], at no pass. *)
Theorem spike_counter_bounded n dt I r0 j :
  r_spike r0 = 0 -> Z.of_nat n < 2 ^ 31 -> (j <= n)%nat ->
  0 <= r_spike (inner_loop j dt I r0) <= Z.of_nat j /\
  r_spike (inner_loop j dt I r0) < 2 ^ 31.
Proof.
  intros H0 Hn Hj. pose proof (spike_bounds j dt I r0) as Hb. lia.
Qed.

(** *** Rounds compose *)

(** The same launch with another number of passes. *)
Definition with_nsteps (a : kargs) (n : Z) : kargs :=
  {| num_comps := num_comps a; dt := dt a; nsteps := n;
     g_I := g_I a; g_R := g_R a; g_internalV := g_internalV a;
     g_internalVprev1 := g_internalVprev1 a;
     g_internalVprev2 := g_internalVprev2 a;
     g_spike_state := g_spike_state a; g_V := g_V a |}.

Lemma ptr_with_nsteps a n p : ptr (with_nsteps a n) p = ptr a p.
Proof. by destruct p. Qed.

Lemma separated_with_nsteps a n : separated a -> separated (with_nsteps a n).
Proof. intros H p q Hne. rewrite !ptr_with_nsteps. by apply H. Qed.

(** The variables of two threads agree but for [spike]. *)
Definition same_state (r r' : regs) : Prop :=
  r_V r = r_V r' /\ r_Vprev1 r = r_Vprev1 r' /\
  r_Vprev2 r = r_Vprev2 r' /\ r_R r = r_R r'.

Lemma substep_same_state dt I r r' :
  same_state r r' ->
  same_state (substep dt I r) (substep dt I r') /\
  r_spike (substep dt I r) - r_spike r
  = r_spike (substep dt I r') - r_spike r'.
Proof.
  destruct r, r'. intros (HV & HV1 & HV2 & HR). simpl in *. subst.
  unfold substep, same_state. simpl. split; [done|lia].
Qed.

Lemma inner_loop_same_state n dt I r r' :
  same_state r r' ->
  same_state (inner_loop n dt I r) (inner_loop n dt I r') /\
  r_spike (inner_loop n dt I r) - r_spike r
  = r_spike (inner_loop n dt I r') - r_spike r'.
Proof.
  revert r r'. induction n as [|n IH]; intros r r' Hs; simpl.
  - split; [done|lia].
  - destruct (substep_same_state dt I r r' Hs) as [Hs' Hd].
    destruct (IH _ _ Hs') as [Hs'' Hd']. split; [done|lia].
Qed.

Lemma inner_loop_add n1 n2 dt I r :
  inner_loop (n1 + n2) dt I r = inner_loop n2 dt I (inner_loop n1 dt I r).
Proof.
  revert r. induction n1 as [|n1 IH]; intros r; [done|]. simpl. apply IH.
Qed.

Lemma update_keeps_input gridDim blockDim a s s' i :
  0 < gridDim -> 0 < blockDim -> separated a -> 0 <= i < num_comps a ->
  update_kernel gridDim blockDim a s = Some s' ->
  mem s' !! (g_I a + i) = mem s !! (g_I a + i).
Proof.
  intros Hg Hb Hsep Hi H.
  apply update_kernel_Some in H as (_ & _ & Hm & _); try done.
  rewrite Hm. apply lookup_apply_writes_notin. rewrite fmap_bind_list.
  intros (j & Hin & Hj)%list_elem_of_bind.
  apply elem_of_grid_indices in Hj; [|nia].
  apply stores_at_addr in Hin as (p & Hp & Heq).
  apply (ptr_inj a sI p i j) in Heq as [<- _]; [|done..].
  unfold written_slots in Hp. rewrite !elem_of_cons, elem_of_nil in Hp.
  destruct Hp as [ ? | [ ? | [ ? | [ ? | [ ? | [ ? | [] ] ] ] ] ] ];
    discriminate.
Qed.

(** X7. Rounds compose.  A launch of [n1] passes followed by a launch
    of [n2] passes on the same arrays leaves the voltage, the two
    history values, [R] and the published [V] that one launch of
    [n1 + n2] passes leaves (which returns as well): the state arrays
    carry everything a thread holds across a round.  The long launch
    publishes a spike exactly when one of the two short ones does. *)
Theorem update_rounds_compose gridDim blockDim a n1 n2 s s1 s2 :
  0 < gridDim -> 0 < blockDim -> separated a -> 0 <= n1 -> 0 <= n2 ->
  update_kernel gridDim blockDim (with_nsteps a n1) s = Some s1 ->
  update_kernel gridDim blockDim (with_nsteps a n2) s1 = Some s2 ->
  exists s12,
    update_kernel gridDim blockDim (with_nsteps a (n1 + n2)) s = Some s12 /\
    forall i, 0 <= i < num_comps a ->
      (forall p, p ∈ [sO; sR; sV; sV1; sV2] ->
         mem s12 !! (ptr a p + i) = mem s2 !! (ptr a p + i)) /\
      (mem s12 !! (g_spike_state a + i) = Some (CI 1) <->
       mem s1 !! (g_spike_state a + i) = Some (CI 1) \/
       mem s2 !! (g_spike_state a + i) = Some (CI 1)).
Proof.
  intros Hg Hb Hsep Hn1 Hn2 H1 H2.
  pose proof (separated_with_nsteps a n1 Hsep) as Hsep1.
  pose proof (separated_with_nsteps a n2 Hsep) as Hsep2.
  pose proof (separated_with_nsteps a (n1 + n2) Hsep) as Hsep12.
  destruct (update_writes_only_its_arrays_aux _ _ _ _ _ Hg Hb Hsep1 H1)
    as [Hld Hmp].
  pose proof (update_kernel_int_launch _ _ _ _ _ Hg Hb H1) as Hint.
  destruct (update_kernel_is_Some gridDim blockDim (with_nsteps a (n1 + n2)) s)
    as [s12 H12]; try done.
  { intros i Hi. split.
    - apply (Hmp sO i); [unfold written_slots; in_list|done].
    - apply (Hmp sS i); [unfold written_slots; in_list|done]. }
  exists s12. split; [done|]. intros i Hi.
  pose proof (update_keeps_input _ _ _ _ _ i Hg Hb Hsep1 Hi H1) as HI.
  apply update_kernel_Some in H1 as (Hp1 & _); try done.
  apply update_kernel_Some in H2 as (Hp2 & _); try done.
  apply update_kernel_Some in H12 as (Hp12 & _); try done.
  destruct (Hp1 i Hi) as (r1 & Hr1 & Hc1).
  destruct (Hp2 i Hi) as (r2 & Hr2 & Hc2).
  destruct (Hp12 i Hi) as (r12 & Hr12 & Hc12).
  apply final_regs_load in Hr1 as (I & r0 & Hl0 & ->).
  apply final_regs_load in Hr12 as (I' & r0' & Hl0' & ->).
  change (load_regs (with_nsteps a (n1 + n2)) s i)
    with (load_regs (with_nsteps a n1) s i) in Hl0'.
  rewrite Hl0 in Hl0'. injection Hl0' as <- <-.
  apply final_regs_load in Hr2 as (I2 & r1' & Hl1 & ->).
  apply post_cells_lookup in Hc1 as (_ & HR1 & HV1 & HV11 & HV21 & HS1).
  apply post_cells_lookup in Hc2 as (HO2 & HR2 & HV2 & HV12 & HV22 & HS2).
  apply post_cells_lookup in Hc12 as (HO & HR & HV & HV1' & HV2' & HS).
  apply load_regs_Some in Hl1 as (HI2 & HlV & HlV1 & HlV2 & HlR & Hsp1).
  pose proof (load_regs_Some _ _ _ _ _ Hl0) as (HI0 & _ & _ & _ & _ & Hsp0).
  simpl in *.
  assert (I2 = I) as -> by congruence.
  set (ra := inner_loop (Z.to_nat n1) (dt a) I r0) in *.
  assert (same_state ra r1') as Hs.
  { unfold same_state. split_and!; congruence. }
  replace (Z.to_nat (n1 + n2)) with (Z.to_nat n1 + Z.to_nat n2)%nat in *
    by lia.
  rewrite inner_loop_add in *. fold ra in HO, HR, HV, HV1', HV2', HS.
  destruct (inner_loop_same_state (Z.to_nat n2) (dt a) I ra r1' Hs)
    as [(EV & EV1 & EV2 & ER) Hd].
  split.
  - intros p Hp. rewrite !elem_of_cons, elem_of_nil in Hp.
    destruct Hp as [ -> | [ -> | [ -> | [ -> | [ -> | [] ] ] ] ] ]; simpl;
      congruence.
  - rewrite HS, HS1, HS2. unfold spike_flag. fold ra.
    pose proof (spike_bounds (Z.to_nat n1) (dt a) I r0) as B1.
    pose proof (spike_bounds (Z.to_nat n2) (dt a) I r1') as B2.
    fold ra in B1. rewrite Hsp0 in B1. rewrite Hsp1 in B2, Hd.
    destruct (Z.ltb_spec 0 (r_spike (inner_loop (Z.to_nat n2) (dt a) I ra)));
      destruct (Z.ltb_spec 0 (r_spike ra));
      destruct (Z.ltb_spec 0 (r_spike (inner_loop (Z.to_nat n2) (dt a) I r1')));
      split; try tauto; try (intros [?|?]; discriminate); try lia;
      try discriminate.
Qed.

End KernelMore.
End KernelMore.
(** * Further properties of the constructor *)

Module InitFacts.
Import MonadFacts StoreFacts BaseFacts SeedFacts ReduceFacts Base.
Section InitFacts.
Context {FT : FloatType}.

Lemma fill_lookup_below m p l a : a < p -> fill m p l !! a = m !! a.
Proof.
  revert p. induction l as [|c l IH]; intros p H; simpl; [done|].
  rewrite lookup_insert_ne by lia. apply IH. lia.
Qed.

Lemma fill_lookup_above m p l a :
  p + Z.of_nat (length l) <= a -> fill m p l !! a = m !! a.
Proof.
  revert p. induction l as [|c l IH]; intros p H; simpl in *; [done|].
  rewrite lookup_insert_ne by lia. apply IH. lia.
Qed.

Lemma fill_lookup_in m p l j :
  (j < length l)%nat -> fill m p l !! (p + Z.of_nat j) = l !! j.
Proof.
  revert p j. induction l as [|c l IH]; intros p j H; simpl in *; [lia|].
  destruct j as [|j].
  - rewrite Z.add_0_r. apply lookup_insert_eq.
  - rewrite lookup_insert_ne by lia. simpl.
    replace (p + Z.of_nat (S j)) with (p + 1 + Z.of_nat j) by lia.
    apply IH. lia.
Qed.

Lemma load_range_lookup s p n cs :
  length cs = n ->
  (forall j, (j < n)%nat -> mem s !! (p + Z.of_nat j) = cs !! j) ->
  load_range s p n = Some cs.
Proof.
  revert p cs. induction n as [|n IH]; intros p cs Hlen H; simpl.
  - by destruct cs.
  - destruct cs as [|c cs]; [done|]. simpl in Hlen.
    pose proof (H 0%nat ltac:(lia)) as H0. rewrite Z.add_0_r in H0.
    simpl in H0. rewrite H0. cbn [mbind option_bind].
    rewrite (IH (p + 1) cs); [done|lia|].
    intros j Hj. specialize (H (S j) ltac:(lia)). simpl in H.
    rewrite <- H. f_equal. lia.
Qed.

(** An allocation returns the addresses from [brk] on and touches no
    other address. *)
Lemma alloc_spec l d s :
  exists s',
    alloc l d s
    = (Val {| gpudata := brk s; size := length l; dtype_of := d |}, s') /\
    brk s' = brk s + Z.of_nat (length l) /\
    load_range s' (brk s) (length l) = Some l /\
    forall a, ~ (brk s <= a < brk s') -> mem s' !! a = mem s !! a.
Proof.
  eexists. split; [reflexivity|]. simpl. split_and!; [done| |].
  - apply load_range_lookup; [done|]. intros j Hj. simpl.
    by apply fill_lookup_in.
  - intros a Ha. destruct (Z.lt_ge_cases a (brk s)).
    + by apply fill_lookup_below.
    + apply fill_lookup_above. lia.
Qed.

(** An array within the addresses from [lo] up to [hi]. *)
Definition within (lo hi : Z) (g : garray) : Prop :=
  lo <= gpudata g /\ gpudata g + Z.of_nat (size g) <= hi.

(** A loop body that returns a freshly allocated array whose content
    satisfies [P]. *)
Definition allocates (f : string -> M garray) (l : list string)
    (P : string -> garray -> list cell -> Prop) : Prop :=
  forall k s, k ∈ l ->
    exists g s',
      f k s = (Val g, s') /\ within (brk s) (brk s') g /\
      (exists cs, load_range s' (gpudata g) (size g) = Some cs /\ P k g cs) /\
      forall a, a < brk s -> mem s' !! a = mem s !! a.

(** A dictionary of arrays allocated from [lo] on, under distinct
    names, with contents satisfying [P]. *)
Definition fresh_arrays (lo : Z) (P : string -> garray -> list cell -> Prop)
    (d : ODict.t garray) (s : dstate) : Prop :=
  (forall k g, ODict.get d k = Some g ->
     within lo (brk s) g /\
     exists cs, load_range s (gpudata g) (size g) = Some cs /\ P k g cs) /\
  (forall k1 k2 g1 g2, k1 <> k2 ->
     ODict.get d k1 = Some g1 -> ODict.get d k2 = Some g2 ->
     arrays_disjoint g1 g2).

Lemma odict_get_set {A} (d : ODict.t A) k v k' :
  ODict.get (ODict.set d k v) k'
  = if decide (k = k') then Some v else ODict.get d k'.
Proof.
  induction d as [|[k0 v0] d IH]; simpl.
  - by repeat case_decide.
  - repeat (case_decide; simpl; subst); try done.
Qed.

Lemma odict_get_keys {A} (d : ODict.t A) k :
  is_Some (ODict.get d k) <-> k ∈ ODict.keys d.
Proof.
  unfold ODict.keys. induction d as [|[k0 v0] d IH]; simpl.
  - split; [by intros [? ?]|by intros ?%elem_of_nil].
  - rewrite elem_of_cons. case_decide; subst.
    + split; eauto.
    + rewrite IH. split; [by right|]. by intros [?|?].
Qed.

Lemma dict_comprehension_allocates l f P lo acc s :
  allocates f l P -> lo <= brk s -> fresh_arrays lo P acc s ->
  exists d s',
    dict_comprehension l f acc s = (Val d, s') /\
    brk s <= brk s' /\ fresh_arrays lo P d s' /\
    (forall k, is_Some (ODict.get d k) <->
               k ∈ l \/ is_Some (ODict.get acc k)) /\
    (forall a, a < brk s -> mem s' !! a = mem s !! a).
Proof.
  revert acc s. induction l as [|k l IH]; intros acc s Hf Hlo Hacc.
  - exists acc, s. split_and!; [done|lia|done| |done].
    intros k. rewrite elem_of_nil. tauto.
  - destruct (Hf k s) as (g & s1 & Hk & [Hg1 Hg2] & (cs & Hcs & HP) & Hfr);
      [by left|].
    destruct Hacc as [Hacc1 Hacc2].
    destruct (IH (ODict.set acc k g) s1) as (d & s' & Hd & Hb & Hfresh & Hkeys & Hfr').
    + intros k' s0 Hk'. apply Hf. by right.
    + lia.
    + split.
      * intros k' g'. rewrite odict_get_set. case_decide as Hkk.
        -- intros [= <-]. subst k'. split; [split; lia|]. by exists cs.
        -- intros Hg'. destruct (Hacc1 _ _ Hg') as ([? ?] & cs' & Hcs' & HP').
           split; [split; lia|]. exists cs'. split; [|done].
           rewrite <- Hcs'. apply load_range_ext. intros a Ha.
           apply Hfr. lia.
      * intros k1 k2 g1 g2 Hne. rewrite !odict_get_set.
        repeat case_decide; subst; try done.
        -- intros [= <-] Hg2'. destruct (Hacc1 _ _ Hg2') as ([? ?] & _).
           right. lia.
        -- intros Hg1' [= <-]. destruct (Hacc1 _ _ Hg1') as ([? ?] & _).
           left. lia.
        -- by apply Hacc2.
    + exists d, s'. split_and!; try done.
      * simpl. unfold bind. by rewrite Hk.
      * lia.
      * intros k'. rewrite Hkeys, odict_get_set, elem_of_cons.
        case_decide; subst; [split; eauto|]. split; [tauto|].
        intros [[?|?]|?]; eauto. done.
      * intros a Ha. rewrite Hfr' by lia. by apply Hfr.
Qed.

Lemma comprehension_pure_Val {A B} (l : list A) (f : A -> M B) :
  (forall x, x ∈ l -> exists y, forall s, f x s = (Val y, s)) ->
  exists ys, forall s, comprehension l f s = (Val ys, s).
Proof.
  induction l as [|x l IH]; intros H; simpl; [by exists []|].
  destruct (H x) as [y Hy]; [by left|].
  destruct IH as [ys Hys]; [intros z Hz; apply H; by right|].
  exists (y :: ys). intros s. unfold bind. by rewrite Hy, Hys.
Qed.

Lemma bind_eq {A B} (c : M A) (k : A -> M B) s a s1 :
  c s = (Val a, s1) -> bind c k s = k a s1.
Proof. unfold bind. by intros ->. Qed.

Lemma map_add_scalar_replicate v n x :
  map (add_scalar v) (replicate n (CF x))
  = replicate n (CF (x + of_double v)%fl).
Proof. induction n as [|n IH]; simpl; [done|]. by rewrite IH. Qed.

(** The body of the comprehension that builds [internal_states]. *)
Lemma internal_body_allocates n dtype ints :
  allocates
    (fun c => z <- garray_zeros n dtype ;;
              v <- odict_getitem ints c ;;
              garray_add z v)
    (ODict.keys ints)
    (fun c g cs =>
       size g = n /\ dtype_of g = dtype /\
       exists v, ODict.get ints c = Some v /\
         cs = replicate n (CF (of_double 0 + of_double v)%fl)).
Proof.
  intros c s Hc. apply odict_get_keys in Hc as [v Hv].
  destruct (alloc_spec (replicate n (CF (of_double 0))) dtype s)
    as (s1 & Ha & Hb & Hl & Hfr).
  destruct (alloc_spec (map (add_scalar v) (replicate n (CF (of_double 0))))
              dtype s1) as (s2 & Ha2 & Hb2 & Hl2 & Hfr2).
  rewrite length_replicate in Hb.
  rewrite length_map, length_replicate in Hb2.
  eexists _, s2. split_and!.
  - unfold garray_zeros. rewrite (bind_eq _ _ _ _ _ Ha).
    unfold odict_getitem. rewrite Hv. unfold bind at 1, ret at 1.
    unfold garray_add. simpl gpudata. simpl size. simpl dtype_of.
    rewrite Hl. exact Ha2.
  - split; simpl; [lia|]. rewrite length_map, length_replicate. lia.
  - eexists. split; [exact Hl2|]. simpl.
    rewrite length_map, length_replicate. split_and!; [done|done|].
    exists v. split; [done|]. apply map_add_scalar_replicate.
  - intros a Ha'. rewrite Hfr2 by lia. apply Hfr. lia.
Qed.

(** The body of the comprehension that builds [inputs]. *)
Lemma input_body_allocates n (ab : gmap string garray) l :
  (forall k, k ∈ l -> is_Some (ab !! k)) ->
  allocates
    (fun k => b <- getitem ab k ;; alloc (replicate n CU) (dtype_of b))
    l
    (fun k g cs =>
       size g = n /\
       (exists b, ab !! k = Some b /\ dtype_of g = dtype_of b) /\
       cs = replicate n CU).
Proof.
  intros Hab k s Hk. destruct (Hab k Hk) as [b Hb].
  destruct (alloc_spec (replicate n CU) (dtype_of b) s)
    as (s1 & Ha & Hbrk & Hl & Hfr).
  rewrite length_replicate in Hbrk.
  eexists _, s1. split_and!.
  - unfold getitem. rewrite Hb. unfold bind at 1, ret at 1. exact Ha.
  - split; simpl; [lia|]. rewrite length_replicate. lia.
  - eexists. split; [exact Hl|]. simpl. rewrite length_replicate.
    split_and!; [done| |done]. by exists b.
  - intros a Ha'. apply Hfr. lia.
Qed.

Lemma np_int32_Val n :
  - 2 ^ 63 <= n < 2 ^ 63 -> np_int32 n = Val (wrap32 n).
Proof.
  intros Hn. unfold np_int32.
  destruct (Z.leb_spec (- 2 ^ 63) n); [|lia].
  by destruct (Z.ltb_spec n (2 ^ 63)); [|lia].
Qed.

(** X8. When the class declares [params] as a non-empty list and
    [internals], the dictionaries hold every declared parameter and
    every accessed variable, [int(dt / ddt)] fits a C [long] and
    [get_update_func] returns a kernel without touching device memory,
    the constructor returns an instance.  Every array of
    [internal_states] and of [inputs] then has [num_comps] elements and
    lies in memory allocated by this call; an internal state has the
    dtype of the first parameter and holds [0 + internals[c]] in every
    element, an input array has the dtype of its access buffer and is
    not initialised; arrays under different names do not overlap; and
    memory allocated before the call is unchanged. *)
Theorem init_allocates m pd ab dt s p0 ps a0 q ints :
  params m = ParamList (p0 :: ps) ->
  pd !! p0 = Some a0 ->
  (forall k, k ∈ ps -> is_Some (pd !! k)) ->
  int_of_float (dt / 1e-6)%float = Val q -> q < 2 ^ 63 ->
  internals m = Some ints ->
  (forall k, k ∈ accesses m -> is_Some (ab !! k)) ->
  (forall dtypes n s0, exists f, get_update_func m dtypes n s0 = (Val f, s0)) ->
  exists self s',
    init m pd ab dt s = (Val self, s') /\
    num_comps self = Z.of_nat (size a0) /\
    brk s <= brk s' /\
    (forall a, a < brk s -> mem s' !! a = mem s !! a) /\
    (forall c v, ODict.get ints c = Some v ->
       exists g,
         ODict.get (internal_states self) c = Some g /\
         Z.of_nat (size g) = num_comps self /\ dtype_of g = dtype_of a0 /\
         within (brk s) (brk s') g /\
         load_range s' (gpudata g) (size g)
         = Some (replicate (size a0)
                   (CF (of_double 0 + of_double v)%fl))) /\
    (forall k b, k ∈ accesses m -> ab !! k = Some b ->
       exists g,
         ODict.get (inputs self) k = Some g /\
         Z.of_nat (size g) = num_comps self /\ dtype_of g = dtype_of b /\
         within (brk s) (brk s') g /\
         load_range s' (gpudata g) (size g)
         = Some (replicate (size a0) CU)) /\
    (forall k1 k2 g1 g2, k1 <> k2 ->
       ODict.get (internal_states self) k1 = Some g1 ->
       ODict.get (internal_states self) k2 = Some g2 ->
       arrays_disjoint g1 g2) /\
    (forall k1 k2 g1 g2, k1 <> k2 ->
       ODict.get (inputs self) k1 = Some g1 ->
       ODict.get (inputs self) k2 = Some g2 ->
       arrays_disjoint g1 g2) /\
    (forall k1 k2 g1 g2,
       ODict.get (internal_states self) k1 = Some g1 ->
       ODict.get (inputs self) k2 = Some g2 ->
       arrays_disjoint g1 g2).
Proof.
  intros Hpar Hp0 Hps Hq Hq63 Hints Hab Hguf.
  destruct (dict_comprehension_allocates (ODict.keys ints) _ _ (brk s) [] s
              (internal_body_allocates (size a0) (dtype_of a0) ints))
    as (d1 & s1 & Hd1 & Hb1 & [Hf1 Hdis1] & Hk1 & Hfr1); [lia|by split|].
  destruct (dict_comprehension_allocates (accesses m) _ _ (brk s1) [] s1
              (input_body_allocates (size a0) ab _ Hab))
    as (d2 & s2 & Hd2 & Hb2 & [Hf2 Hdis2] & Hk2 & Hfr2); [lia|by split|].
  destruct (comprehension_pure_Val (accesses m)
              (fun k => a <- odict_getitem d2 k ;; ret (k, dtype_of a)))
    as [din Hdin].
  { intros k Hk. destruct (proj2 (Hk2 k)) as [g Hg]; [by left|].
    exists (k, dtype_of g). intros s0. unfold bind, odict_getitem.
    by rewrite Hg. }
  destruct (comprehension_pure_Val (params_keys (params m))
              (fun k => a <- getitem pd k ;; ret (k, dtype_of a)))
    as [dpar Hdpar].
  { rewrite Hpar. simpl. intros k Hk.
    assert (is_Some (pd !! k)) as [g Hg].
    { apply elem_of_cons in Hk as [->|Hk]; [eauto|by apply Hps]. }
    exists (k, dtype_of g). intros s0. unfold bind, getitem. by rewrite Hg. }
  destruct (comprehension_pure_Val (ODict.keys ints)
              (fun k => a <- odict_getitem d1 k ;; ret (k, dtype_of a)))
    as [dint Hdint].
  { intros k Hk. destruct (proj2 (Hk1 k)) as [g Hg]; [by left|].
    exists (k, dtype_of g). intros s0. unfold bind, odict_getitem.
    by rewrite Hg. }
  destruct (Hguf (("dt"%string, dtype_of a0)
                    :: din ++ dpar ++ dint
                    ++ map (fun k => (k, dtype_of a0)) (updates m))
              (Z.of_nat (size a0)) s2) as [f Hf].
  eexists _, s2. split.
  { unfold init. rewrite Hpar. simpl params_first.
    unfold bind at 1, lift at 1. unfold getitem. rewrite Hp0.
    unfold bind at 1, ret at 1. rewrite Hq. unfold bind at 1, lift at 1.
    rewrite np_int32_Val by lia. unfold bind at 1, lift at 1.
    rewrite Hints. unfold bind at 1, ret at 1.
    rewrite (bind_eq _ _ _ _ _ Hd1). rewrite (bind_eq _ _ _ _ _ Hd2).
    rewrite (bind_eq _ _ _ _ _ (Hdin s2)).
    rewrite <- Hpar. rewrite (bind_eq _ _ _ _ _ (Hdpar s2)).
    rewrite (bind_eq _ _ _ _ _ (Hdint s2)).
    rewrite (bind_eq _ _ _ _ _ Hf). reflexivity. }
  simpl. split_and!; [done|lia| | | |done|done|].
  - intros a Ha. rewrite Hfr2 by lia. by apply Hfr1.
  - intros c v Hv. destruct (proj2 (Hk1 c)) as [g Hg].
    { left. apply odict_get_keys. eauto. }
    destruct (Hf1 c g Hg) as ([? ?] & cs & Hcs & Hsz & Hdt & v' & Hv' & ->).
    exists g. split_and!; [done|by rewrite Hsz|done|split; lia|].
    assert (v' = v) as -> by congruence.
    rewrite <- Hcs. apply load_range_ext. intros a Ha. apply Hfr2. lia.
  - intros k b Hk Hb. destruct (proj2 (Hk2 k)) as [g Hg]; [by left|].
    destruct (Hf2 k g Hg)
      as ([? ?] & cs & Hcs & Hsz & (b' & Hb' & Hdt) & ->).
    exists g. split_and!; [done|by rewrite Hsz| |split; lia|done].
    congruence.
  - intros k1 k2 g1 g2 Hg1 Hg2.
    destruct (Hf1 _ _ Hg1) as ([? ?] & _).
    destruct (Hf2 _ _ Hg2) as ([? ?] & _). left. lia.
Qed.

Lemma int_of_float_nan : int_of_float (nan / 1e-6)%float = Exn ValueError.
Proof. vm_compute. reflexivity. Qed.

Lemma int_of_float_infinity :
  int_of_float (infinity / 1e-6)%float = Exn OverflowError /\
  int_of_float (neg_infinity / 1e-6)%float = Exn OverflowError.
Proof. split; vm_compute; reflexivity. Qed.

(** X9. A round step the sub-step count cannot be computed from is
    rejected before anything is allocated.  Whatever [int] raises on
    [dt / ddt] is what the constructor raises, and a quotient of
    [2^63] or more is an [OverflowError] of [np.int32]; in particular a
    NaN step is a [ValueError] and an infinite one an [OverflowError].
    The device state is untouched in each case. *)
Theorem init_rejects_bad_dt m pd ab dt s p0 a0 :
  params_first (params m) = Val p0 -> pd !! p0 = Some a0 ->
  (forall e, int_of_float (dt / 1e-6)%float = Exn e ->
             init m pd ab dt s = (Exn e, s)) /\
  (forall q, int_of_float (dt / 1e-6)%float = Val q -> 2 ^ 63 <= q ->
             init m pd ab dt s = (Exn OverflowError, s)) /\
  init m pd ab nan s = (Exn ValueError, s) /\
  init m pd ab infinity s = (Exn OverflowError, s) /\
  init m pd ab neg_infinity s = (Exn OverflowError, s).
Proof.
  intros Hp0 Ha0.
  assert (forall dt' e, int_of_float (dt' / 1e-6)%float = Exn e ->
                        init m pd ab dt' s = (Exn e, s)) as Hexn.
  { intros dt' e He. unfold init, bind, lift, getitem, ret.
    by rewrite Hp0, Ha0, He. }
  split_and!.
  - apply Hexn.
  - intros q Hq Hbig. unfold init, bind, lift, getitem, ret.
    rewrite Hp0, Ha0, Hq. unfold np_int32.
    destruct (Z.ltb_spec (Z.max q 1) (2 ^ 63)); [lia|].
    by rewrite andb_false_r.
  - apply Hexn, int_of_float_nan.
  - apply Hexn, int_of_float_infinity.
  - apply Hexn, int_of_float_infinity.
Qed.

End InitFacts.
End InitFacts.
(** * The launch configuration and the prepared signature *)

Module PrepareFacts.
Import MonadFacts StoreFacts BaseFacts SeedFacts ReduceFacts InitFacts Base.
Section PrepareFacts.
Context {FT : FloatType}.

(** X11. Both [get_update_func] methods launch blocks of 128 threads
    on a grid of [ceil(num_comps / 128)] blocks, capped at six blocks
    per multiprocessor: the grid is empty exactly for a component
    without instances; otherwise it is the least grid with a thread per
    instance as long as [num_comps <= 768 * MULTIPROCESSOR_COUNT], and
    never holds a block without work. *)
Theorem update_func_grid MP n f :
  1 <= MP ->
  (f = Wilson.wilson_update_func MP n \/
   exists k dtypes s s',
     base_get_update_func MP (Some k) dtypes n s = (Val f, s')) ->
  f_block f = 128 /\
  (f_grid f <= 0 <-> n <= 0) /\
  (1 <= n ->
   1 <= f_grid f <= 6 * MP /\ 128 * (f_grid f - 1) < n /\
   (n <= 768 * MP -> n <= 128 * f_grid f)).
Proof.
  intros HMP Hf.
  assert (f_block f = 128 /\
          f_grid f = Z.min (6 * MP) ((n - 1) / 128 + 1)) as [Hb ->].
  { destruct Hf as [->|(k & dtypes & s & s' & [= <- _])]; by split. }
  pose proof (Z.div_mod (n - 1) 128 ltac:(lia)) as Hdm.
  pose proof (Z.mod_pos_bound (n - 1) 128 ltac:(lia)) as Hmod.
  split; [done|]. split; [lia|]. intros Hn. lia.
Qed.

(** *** The signature the kernel is prepared with *)

Lemma odict_keys_set {A} (d : ODict.t A) k v :
  ODict.keys (ODict.set d k v)
  = if decide (k ∈ ODict.keys d) then ODict.keys d else ODict.keys d ++ [k].
Proof.
  unfold ODict.keys. induction d as [|[k0 v0] d IH].
  - reflexivity.
  - cbn [ODict.set]. destruct (decide (k0 = k)) as [->|H0].
    + cbn [map fst]. rewrite decide_True; [done|by left].
    + cbn [map fst]. rewrite IH.
      destruct (decide (k ∈ map fst d)) as [H1|H1].
      * rewrite decide_True; [done|by right].
      * rewrite decide_False; [done|].
        intros [?|?]%elem_of_cons; congruence.
Qed.

Lemma odict_length_keys {A} (d : ODict.t A) : length (ODict.keys d) = length d.
Proof. apply length_map. Qed.

Lemma as_dict_keys {A} (l : list (string * A)) acc :
  NoDup (ODict.keys acc) ->
  (forall k, k ∈ ODict.keys (as_dict l acc) <->
             k ∈ ODict.keys acc \/ k ∈ map fst l) /\
  (length (as_dict l acc) <= length acc + length l)%nat /\
  (length (as_dict l acc) = (length acc + length l)%nat <->
   NoDup (ODict.keys acc ++ map fst l)).
Proof.
  revert acc. induction l as [|[k v] l IH]; intros acc Hnd; simpl.
  - split_and!.
    + intros k. rewrite elem_of_nil. tauto.
    + lia.
    + rewrite app_nil_r. split; [done|lia].
  - pose proof (odict_keys_set acc k v) as Hks.
    pose proof (odict_length_keys (ODict.set acc k v)) as Hlen.
    pose proof (odict_length_keys acc) as Hlen0.
    destruct (decide (k ∈ ODict.keys acc)) as [Hin|Hout].
    + destruct (IH (ODict.set acc k v)) as (Hk & Hle & Heq);
        [by rewrite Hks|].
      rewrite Hks in Hk, Hlen. split_and!.
      * intros k'. rewrite Hk, elem_of_cons. split; [tauto|].
        intros [?|[->|?]]; auto.
      * lia.
      * split; [lia|]. intros Hnd'. apply NoDup_app in Hnd' as (_ & Hd & _).
        exfalso. apply (Hd k Hin). by left.
    + assert (NoDup (ODict.keys acc ++ [k])) as Hnd1.
      { apply NoDup_app. split_and!; [done| |apply NoDup_singleton].
        intros x Hx ->%list_elem_of_singleton. done. }
      destruct (IH (ODict.set acc k v)) as (Hk & Hle & Heq);
        [by rewrite Hks|].
      rewrite Hks in Hk, Heq, Hlen. rewrite length_app in Hlen.
      simpl in Hlen. split_and!.
      * intros k'. rewrite Hk, elem_of_app, list_elem_of_singleton,
          elem_of_cons. tauto.
      * lia.
      * rewrite <- app_assoc in Heq. simpl in Heq. rewrite <- Heq. lia.
Qed.

Lemma comprehension_length {A B} (l : list A) (f : A -> M B) s ys s' :
  comprehension l f s = (Val ys, s') -> length ys = length l.
Proof.
  revert s ys s'. induction l as [|x l IH]; intros s ys s' H; simpl in H.
  - by injection H as <- _.
  - apply bind_Val in H as (y & s1 & _ & H).
    apply bind_Val in H as (ys' & s2 & Hys & H).
    injection H as <- _. simpl. f_equal. exact (IH _ _ _ Hys).
Qed.

Lemma comprehension_fst {B} (l : list string) (f : string -> M (string * B))
    s ys s' :
  (forall k t y t', f k t = (Val y, t') -> y.1 = k) ->
  comprehension l f s = (Val ys, s') -> map fst ys = l.
Proof.
  intros Hf. revert s ys s'.
  induction l as [|x l IH]; intros s ys s' H; simpl in H.
  - by injection H as <- _.
  - apply bind_Val in H as (y & s1 & Hy & H).
    apply bind_Val in H as (ys' & s2 & Hys & H).
    injection H as <- _. simpl. f_equal; [exact (Hf _ _ _ _ Hy)|exact (IH _ _ _ Hys)].
Qed.

(** The names [__init__] enters into [dtypes], in the order of its
    [update] calls. *)
Definition dtype_names (m : model) (ints : ODict.t float) : list string :=
  "dt"%string :: accesses m ++ params_keys (params m)
                 ++ ODict.keys ints ++ updates m.

Lemma init_dtypes m pd ab dt s self s' :
  init m pd ab dt s = (Val self, s') ->
  exists ints lst s0 s1,
    cls self = m /\ internals m = Some ints /\
    map fst lst = dtype_names m ints /\
    get_update_func m lst (num_comps self) s0 = (Val (update_func self), s1).
Proof.
  unfold init. intros H.
  do 4 (apply bind_Val in H as (? & ? & _ & H)).
  apply bind_Val in H as (ints & s1 & Hints & H).
  do 2 (apply bind_Val in H as (? & ? & _ & H)).
  apply bind_Val in H as (d_in & s4 & Hin & H).
  apply bind_Val in H as (d_par & s5 & Hpar & H).
  apply bind_Val in H as (d_int & s6 & Hint & H).
  apply bind_Val in H as (f & s7 & Hf & H).
  injection H as <- <-. simpl.
  destruct (internals m) as [ints'|] eqn:Ei; [|done].
  injection Hints as -> _.
  eexists ints, _, s6, s7. split_and!; [done|done| |exact Hf].
  unfold dtype_names. simpl. f_equal. rewrite !map_app. f_equal; [|f_equal; [|f_equal]].
  - eapply comprehension_fst; [|exact Hin]. intros k t y t' Hy.
    apply bind_Val in Hy as (? & ? & _ & Hy). by injection Hy as <- _.
  - eapply comprehension_fst; [|exact Hpar]. intros k t y t' Hy.
    apply bind_Val in Hy as (? & ? & _ & Hy). by injection Hy as <- _.
  - eapply comprehension_fst; [|exact Hint]. intros k t y t' Hy.
    apply bind_Val in Hy as (? & ? & _ & Hy). by injection Hy as <- _.
  - rewrite map_map. simpl. apply map_id.
Qed.

Lemma launch_args_length self up ints s l s' :
  internals (cls self) = Some ints ->
  launch_args self up s = (Val l, s') ->
  S (length (l_ptrs l)) = length (dtype_names (cls self) ints).
Proof.
  intros Hints H. unfold launch_args in H.
  apply bind_Val in H as (p_in & s1 & Hin & H).
  apply bind_Val in H as (p_par & s2 & Hpar & H).
  apply bind_Val in H as (ints' & s3 & Hi & H).
  rewrite Hints in Hi. injection Hi as <- _.
  apply bind_Val in H as (p_int & s4 & Hint & H).
  apply bind_Val in H as (p_upd & s5 & Hupd & H).
  injection H as <- _. simpl. unfold dtype_names. simpl.
  apply comprehension_length in Hin, Hpar, Hint, Hupd.
  rewrite !length_app. congruence.
Qed.

Lemma length_two {A} (l : list A) x y :
  x <> y -> x ∈ l -> y ∈ l -> (2 <= length l)%nat.
Proof.
  destruct l as [|a [|b l]]; simpl; intros Hne Hx Hy; [..|lia].
  - by apply elem_of_nil in Hx.
  - apply list_elem_of_singleton in Hx, Hy. congruence.
Qed.

Lemma prepare_format_Val (lst : list (string * dtype)) p0 s fmt s' :
  prepare_format (as_dict lst []) p0 s = (Val fmt, s') ->
  exists d k,
    fmt = ("i" ++ dtype_char d ++ "i" ++ repeat_string "P" k)%string /\
    "dt"%string ∈ map fst lst /\
    (S k <= length lst)%nat /\
    (S k = length lst <-> NoDup ("fletter"%string :: map fst lst)).
Proof.
  unfold prepare_format, type_dict. intros H.
  apply bind_Val in H as (td' & s1 & Htd & H).
  apply bind_Val in Htd as (c0 & s2 & _ & Htd). injection Htd as <- _.
  apply bind_Val in H as (d & s3 & Hd & H). injection H as <- _.
  unfold odict_getitem in Hd.
  destruct (ODict.get (as_dict lst []) "dt") as [d'|] eqn:Edt; [|done].
  injection Hd as -> _.
  destruct (as_dict_keys lst []) as (Hk0 & Hle & Heq); [constructor|].
  assert (forall k, k ∈ ODict.keys (as_dict lst []) <-> k ∈ map fst lst)
    as Hk.
  { intros k. rewrite Hk0. split; [|by right].
    by intros [?%elem_of_nil|?]. }
  clear Hk0. change (length []) with 0%nat in Hle, Heq.
  change (ODict.keys [] ++ map fst lst) with (map fst lst) in Heq.
  assert ("dt"%string ∈ map fst lst) as Hdt.
  { apply Hk, odict_get_keys. eauto. }
  set (td := map (fun kv => (kv.1, dtype_to_ctype kv.2)) (as_dict lst [])).
  set (fl := if decide (c0 = "float"%string) then "f"%string else ""%string).
  assert (ODict.keys td = ODict.keys (as_dict lst [])) as Hkeys.
  { unfold td, ODict.keys. by rewrite map_map. }
  pose proof (odict_keys_set td "fletter" fl) as Hks.
  pose proof (odict_length_keys (ODict.set td "fletter" fl)) as Hlen.
  rewrite Hks, Hkeys in Hlen.
  pose proof (odict_length_keys (as_dict lst [])) as Hlen0.
  exists d. eexists. split; [reflexivity|]. split; [done|].
  rewrite <- Hlen. rewrite NoDup_cons.
  destruct (decide ("fletter"%string ∈ ODict.keys (as_dict lst [])))
    as [Hfl|Hfl].
  - assert (2 <= length (ODict.keys (as_dict lst [])))%nat as H2.
    { apply (length_two _ "dt"%string "fletter"%string);
        [done|by apply Hk|done]. }
    apply Hk in Hfl. split; [lia|]. split; [lia|tauto].
  - rewrite length_app. simpl.
    assert (1 <= length (ODict.keys (as_dict lst [])))%nat as H1.
    { apply Hk in Hdt.
      destruct (ODict.keys (as_dict lst [])); [|simpl; lia].
      by apply elem_of_nil in Hdt. }
    assert ("fletter"%string ∉ map fst lst) as Hfl'.
    { intros Hc. by apply Hfl, Hk. }
    rewrite <- Heq. split; [lia|]. split; [intros ?; split; [done|lia]|lia].
Qed.

(** X12. The constructor hands [get_update_func] one dtype for each of
    the names ['dt'], [accesses], [params], [internals], [updates].  The
    signature prepared from that dictionary has one pointer ['P'] for
    each pointer [run_step] passes exactly when these names and
    ['fletter'] are pairwise distinct; when two coincide it has fewer. *)
Theorem prepared_signature_matches_launch m pd ab dt s self s' :
  init m pd ab dt s = (Val self, s') ->
  exists ints lst s0 s1,
    internals m = Some ints /\
    map fst lst = dtype_names m ints /\
    get_update_func m lst (num_comps self) s0 = (Val (update_func self), s1) /\
    forall p0 t fmt t' up u l u',
      prepare_format (as_dict lst []) p0 t = (Val fmt, t') ->
      launch_args self up u = (Val l, u') ->
      exists d k,
        fmt = ("i" ++ dtype_char d ++ "i" ++ repeat_string "P" k)%string /\
        (k <= length (l_ptrs l))%nat /\
        (k = length (l_ptrs l) <->
         NoDup ("fletter"%string :: dtype_names m ints)).
Proof.
  intros H.
  destruct (init_dtypes _ _ _ _ _ _ _ H)
    as (ints & lst & s0 & s1 & Hcls & Hints & Hnames & Hcall).
  exists ints, lst, s0, s1. split_and!; try done.
  intros p0 t fmt t' up u l u' Hfmt Hl.
  apply prepare_format_Val in Hfmt as (d & k & -> & _ & Hle & Heq).
  rewrite <- Hcls in Hints.
  pose proof (launch_args_length _ _ _ _ _ _ Hints Hl) as Hlen.
  rewrite Hcls, <- Hnames, length_map in Hlen.
  exists d, k. split; [done|]. rewrite <- Hnames, <- Heq. lia.
Qed.

End PrepareFacts.
End PrepareFacts.
(** * Further properties of seeding *)

Module SeedMore.
Import MonadFacts StoreFacts BaseFacts SeedFacts DeterminismFacts Base.
Section SeedMore.
Context {FT : FloatType}.

Lemma memcpy_dtod_Val dest src n s s' :
  memcpy_dtod dest src n s = (Val tt, s') ->
  exists cs, load_range s src n = Some cs /\ store_range dest cs s = Some s'.
Proof.
  unfold memcpy_dtod, device_call.
  destruct (load_range s src n) as [cs|]; [|done].
  cbn [mbind option_bind].
  destruct (store_range dest cs s) as [s1|] eqn:E; [|done].
  intros [= <-]. eauto.
Qed.

Lemma memcpy_dtod_Exn dest src n s e s' :
  memcpy_dtod dest src n s = (Exn e, s') -> e = CudaError /\ s' = s.
Proof.
  unfold memcpy_dtod, device_call.
  destruct (_ ≫= _) as [s1|]; [done|]. by intros [= <- <-].
Qed.

(** The cells of a range after a copy into it. *)
Lemma store_range_lookup p cs s s' a :
  store_range p cs s = Some s' ->
  p <= a < p + Z.of_nat (length cs) ->
  mem s' !! a = cs !! Z.to_nat (a - p).
Proof.
  intros H Ha. apply store_range_load, load_range_Some in H as [_ H].
  rewrite <- (H (Z.to_nat (a - p))) by lia. f_equal. lia.
Qed.


(** X14. Seeding twice is seeding once: when ['initV'] overlaps
    neither destination, a second [pre_run] after a returning one
    returns as well and leaves the memory as the first left it. *)
Theorem pre_run_idempotent self up s s1 :
  (forall initV pV iv,
     params_dict self !! "initV"%string = Some initV ->
     up !! "V"%string = Some pV ->
     ODict.get (internal_states self) "internalV" = Some iv ->
     let n := Z.of_nat (size initV) in
     (pV + n <= gpudata initV \/ gpudata initV + n <= pV) /\
     (gpudata iv + n <= gpudata initV \/ gpudata initV + n <= gpudata iv)) ->
  pre_run self up s = (Val tt, s1) ->
  exists s2, pre_run self up s1 = (Val tt, s2) /\ mem s2 = mem s1.
Proof.
  intros Hdis H. unfold pre_run in *.
  destruct (params_dict self !! "initV"%string) as [initV|] eqn:Hinit.
  2: { injection H as <-. by exists s. }
  apply bind_Val in H as (pV & s0 & HpV & H).
  unfold getitem in HpV. destruct (up !! "V"%string) as [pV'|] eqn:HV; [|done].
  injection HpV as -> <-.
  apply bind_Val in H as ([] & sa & Hc1 & H).
  apply bind_Val in H as (iv & s0 & Hiv & H).
  unfold odict_getitem in Hiv.
  destruct (ODict.get (internal_states self) "internalV") as [iv'|] eqn:Eiv;
    [|done].
  injection Hiv as -> <-.
  destruct (Hdis initV pV iv eq_refl eq_refl eq_refl) as [HdV Hdi].
  set (n := Z.of_nat (size initV)) in *.
  apply memcpy_dtod_Val in Hc1 as (cs & Hl & Hst1).
  apply memcpy_dtod_Val in H as (cs' & Hl' & Hst2).
  pose proof (load_range_Some _ _ _ _ Hl) as [Hlen _].
  assert (cs' = cs) as ->.
  { rewrite (load_range_ext sa s) in Hl'; [congruence|].
    intros a Ha. eapply store_range_frame; [done|]. rewrite Hlen. lia. }
  assert (load_range s1 (gpudata initV) (size initV) = Some cs) as Hl1.
  { rewrite <- Hl'. apply load_range_ext. intros a Ha.
    eapply store_range_frame; [done|]. rewrite Hlen. lia. }
  destruct (memcpy_dtod_spec pV (gpudata initV) (size initV) s1 cs Hl1)
    as (sb & Hcb & Hlb & Hfb).
  { intros a Ha. apply (store_range_mapped _ _ _ _ a Hst2).
    apply (store_range_mapped _ _ _ _ a Hst1).
    apply (store_range_Some_mapped _ _ _ _ Hst1). rewrite Hlen. done. }
  destruct (memcpy_dtod_spec (gpudata iv) (gpudata initV) (size initV) sb cs)
    as (s2 & Hc2 & Hl2 & Hf2).
  { rewrite <- Hl1. apply load_range_ext. intros a Ha. apply Hfb.
    fold n. lia. }
  { intros a Ha.
    pose proof (memcpy_dtod_Val _ _ _ _ _ Hcb) as (cs0 & _ & Hstb).
    apply (store_range_mapped _ _ _ _ a Hstb).
    apply (store_range_mapped _ _ _ _ a Hst2).
    apply (store_range_Some_mapped _ _ _ _ Hst2). rewrite Hlen. done. }
  exists s2. split.
  - unfold bind, getitem, odict_getitem, ret. by rewrite HV, Hcb, Eiv, Hc2.
  - apply map_eq. intros a.
    apply load_range_Some in Hl2 as [_ Hl2], Hlb as [_ Hlb].
    destruct (decide (gpudata iv <= a < gpudata iv + n)) as [Hi|Hi].
    + rewrite (store_range_lookup _ _ _ _ a Hst2) by (rewrite Hlen; done).
      rewrite <- (Hl2 (Z.to_nat (a - gpudata iv))) by lia. f_equal. lia.
    + rewrite Hf2 by done.
      destruct (decide (pV <= a < pV + n)) as [Hp|Hp].
      * rewrite (store_range_frame _ _ _ _ Hst2 a) by (rewrite Hlen; done).
        rewrite (store_range_lookup _ _ _ _ a Hst1) by (rewrite Hlen; done).
        rewrite <- (Hlb (Z.to_nat (a - pV))) by lia. f_equal. lia.
      * by rewrite Hfb.
Qed.


(** X16. [pre_run] is two initialisers in a row.  When ['V'] names no
    internal state and ['internalV'] no update pointer, and the two
    destinations of [pre_run] exist (or ['initV'] does not),
    [pre_run] does what [add_initializer('initV', 'V')] followed by
    [add_initializer('initV', 'internalV')] does, stores and exceptions
    included. *)
Theorem pre_run_as_initializers self up s :
  ODict.get (internal_states self) "V" = None ->
  up !! "internalV"%string = None ->
  (params_dict self !! "initV"%string = None \/
   (is_Some (up !! "V"%string) /\
    is_Some (ODict.get (internal_states self) "internalV"))) ->
  pre_run self up s
  = (add_initializer self "initV" "V" up ;;;
     add_initializer self "initV" "internalV" up) s.
Proof.
  intros HV Hi Hc. unfold pre_run, add_initializer. rewrite HV, Hi.
  destruct (params_dict self !! "initV"%string) as [initV|]; [|done].
  unfold getitem, odict_getitem.
  destruct Hc as [|[[pV ->] [iv ->]]]; [done|].
  unfold bind, ret. cbv beta iota.
  destruct (memcpy_dtod pV (gpudata initV) (size initV) s) as [[[]|e] s1];
    [|done].
  by destruct (memcpy_dtod (gpudata iv) (gpudata initV) (size initV) s1)
    as [[[]|e] s2].
Qed.

End SeedMore.
End SeedMore.
(** * Further properties of [Wilson.run_step] *)

Module WilsonMore.
Import MonadFacts StoreFacts KernelFacts StepFacts KernelMore InitFacts Base.
Section WilsonMore.
Context {FT : FloatType}.

Lemma comprehension_cons_Val {A B} (x : A) l (f : A -> M B) s ys s' :
  comprehension (x :: l) f s = (Val ys, s') ->
  exists y ys' s1,
    f x s = (Val y, s1) /\ comprehension l f s1 = (Val ys', s') /\
    ys = y :: ys'.
Proof.
  simpl. intros H. apply bind_Val in H as (y & s1 & Hy & H).
  apply bind_Val in H as (ys' & s2 & Hys & H). injection H as <- <-.
  by exists y, ys', s1.
Qed.

Lemma comprehension_nil_Val {A B} (f : A -> M B) s ys s' :
  comprehension [] f s = (Val ys, s') -> ys = [] /\ s' = s.
Proof. by intros [= <- <-]. Qed.

(** [[self.states[k].gpudata for k in self.states]] over a table
    that holds something other than an array. *)
Lemma state_pointers_Exn (st : ODict.t pyval) l k s :
  (forall k', k' ∈ l -> k' ∈ ODict.keys st) ->
  k ∈ l -> (forall a, ODict.get st k <> Some (PyArr a)) ->
  comprehension l (fun k => v <- odict_getitem st k ;; Wilson.gpudata_of v) s
  = (Exn (AttributeError "gpudata"), s).
Proof.
  set (F := fun k => v <- odict_getitem st k ;; Wilson.gpudata_of v).
  induction l as [|k0 l IH]; intros Hsub Hk Hbad.
  - by apply elem_of_nil in Hk.
  - destruct (proj2 (odict_get_keys st k0)) as [v Hv]; [apply Hsub; by left|].
    cbn [comprehension].
    destruct v as [x|x|a].
    + unfold bind at 1. unfold F at 1, bind at 1, odict_getitem.
      by rewrite Hv.
    + unfold bind at 1. unfold F at 1, bind at 1, odict_getitem.
      by rewrite Hv.
    + assert (F k0 s = (Val (gpudata a), s)) as HF.
      { unfold F, bind, odict_getitem. by rewrite Hv. }
      rewrite (bind_eq _ _ _ _ _ HF).
      apply elem_of_cons in Hk as [->|Hk]; [by destruct (Hbad a)|].
      unfold bind at 1. rewrite IH; [done| |done|done].
      intros k' Hk'. apply Hsub. by right.
Qed.

(** X17. [Wilson.run_step] reads [.gpudata] of every value of
    [self.states].  When one of them is not a device array (the table
    of the class holds numbers and names) the step raises
    [AttributeError] once the inputs have been reduced, and launches
    nothing: the memory is the one the reductions left. *)
Theorem wilson_run_step_needs_arrays sum self up s s1 p_in p_par k :
  reduce_inputs sum self s = (Val tt, s1) ->
  input_pointers self s1 = (Val p_in, s1) ->
  param_pointers self s1 = (Val p_par, s1) ->
  k ∈ ODict.keys (self_states self) ->
  (forall a, ODict.get (self_states self) k <> Some (PyArr a)) ->
  Wilson.run_step sum self up s = (Exn (AttributeError "gpudata"), s1).
Proof.
  intros Hr Hin Hpar Hk Hbad. unfold Wilson.run_step.
  rewrite (bind_eq _ _ _ _ _ Hr). unfold Wilson.launch_args.
  unfold bind at 1. unfold bind at 1.
  rewrite Hin. unfold bind at 1. rewrite Hpar. unfold bind at 1.
  by rewrite (state_pointers_Exn _ _ k).
Qed.

(** X18. The positional arguments of [Wilson.run_step] line up with
    the parameters of the kernel.  With the tables [Wilson] declares,
    a returning evaluation of the argument list hands [g_I] the input
    array, [g_R], [g_internalV], [g_internalVprev1], [g_internalVprev2]
    the arrays of the states ['R'], ['V'], ['Vprev1'], ['Vprev2'], and
    [g_spike_state], [g_V] the two update pointers; the scalars are the
    instance count, [1000 * dt] and the sub-step count. *)
Theorem wilson_pointers_match_signature self up s l s' :
  accesses (cls self) = accesses Wilson.Wilson ->
  params (cls self) = params Wilson.Wilson ->
  updates (cls self) = updates Wilson.Wilson ->
  ODict.keys (self_states self) = ODict.keys (states Wilson.Wilson) ->
  Wilson.launch_args self up s = (Val l, s') ->
  exists a gI gR gV gV1 gV2,
    Wilson.kargs_of_launch l = Some a /\
    ODict.get (inputs self) "I" = Some gI /\
    Wilson.g_I a = gpudata gI /\
    ODict.get (self_states self) "R" = Some (PyArr gR) /\
    Wilson.g_R a = gpudata gR /\
    ODict.get (self_states self) "V" = Some (PyArr gV) /\
    Wilson.g_internalV a = gpudata gV /\
    ODict.get (self_states self) "Vprev1" = Some (PyArr gV1) /\
    Wilson.g_internalVprev1 a = gpudata gV1 /\
    ODict.get (self_states self) "Vprev2" = Some (PyArr gV2) /\
    Wilson.g_internalVprev2 a = gpudata gV2 /\
    up !! "spike_state"%string = Some (Wilson.g_spike_state a) /\
    up !! "V"%string = Some (Wilson.g_V a) /\
    Wilson.num_comps a = num_comps self /\
    Wilson.dt a = of_double (1000.0 * dt self)%float /\
    Wilson.nsteps a = steps self.
Proof.
  intros Hacc Hpar Hupd Hst H. unfold Wilson.launch_args in H.
  unfold input_pointers, param_pointers, update_pointer_list in H.
  rewrite Hacc, Hpar, Hupd, Hst in H.
  apply bind_Val in H as (p_in & s1 & Hin & H).
  apply bind_Val in H as (p_par & s2 & Hp & H).
  apply bind_Val in H as (p_st & s3 & Hs & H).
  apply bind_Val in H as (p_upd & s4 & Hu & H).
  injection H as <- _.
  apply comprehension_cons_Val in Hin as (pI & ? & ? & HI & [-> _]%comprehension_nil_Val & ->).
  apply comprehension_nil_Val in Hp as [-> _].
  apply comprehension_cons_Val in Hs as (pR & ? & ? & HR & Hs & ->).
  apply comprehension_cons_Val in Hs as (pV & ? & ? & HV & Hs & ->).
  apply comprehension_cons_Val in Hs as (pV1 & ? & ? & HV1 & Hs & ->).
  apply comprehension_cons_Val in Hs as (pV2 & ? & ? & HV2 & [-> _]%comprehension_nil_Val & ->).
  apply comprehension_cons_Val in Hu as (pS & ? & ? & HS & Hu & ->).
  apply comprehension_cons_Val in Hu as (pO & ? & ? & HO & [-> _]%comprehension_nil_Val & ->).
  assert (forall k p t t',
            (v <- odict_getitem (self_states self) k ;; Wilson.gpudata_of v) t
            = (Val p, t') ->
            exists g, ODict.get (self_states self) k = Some (PyArr g) /\
                      p = gpudata g) as Hget.
  { intros k p t t' Hk. apply bind_Val in Hk as (v & t1 & Hv & Hk).
    unfold odict_getitem in Hv.
    destruct (ODict.get (self_states self) k) as [v'|]; [|done].
    injection Hv as -> _. destruct v as [x|x|g]; try done.
    injection Hk as <- _. by exists g. }
  apply Hget in HR as (gR & HR & ->), HV as (gV & HV & ->),
    HV1 as (gV1 & HV1 & ->), HV2 as (gV2 & HV2 & ->).
  apply bind_Val in HI as (gI & t1 & HI & HI').
  unfold odict_getitem in HI.
  destruct (ODict.get (inputs self) "I") as [gI'|] eqn:EI; [|done].
  injection HI as -> _. injection HI' as <- _.
  unfold getitem in HS, HO.
  destruct (up !! "spike_state"%string) as [pS'|] eqn:ES; [|done].
  destruct (up !! "V"%string) as [pO'|] eqn:EO; [|done].
  injection HS as -> _. injection HO as -> _.
  eexists _, gI, gR, gV, gV1, gV2. split; [reflexivity|]. simpl.
  by split_and!.
Qed.


(** X5. The launch [Wilson.get_update_func] configures returns when
    the arrays it is handed do not overlap, the five cells it reads at
    every index hold floating-point values, the published cells are
    mapped, and the instance count and the thread count together stay
    within an [int]. *)
Theorem wilson_launch_returns MP n l a s :
  1 <= MP -> 1 <= n -> Wilson.kargs_of_launch l = Some a ->
  0 <= Wilson.num_comps a ->
  Wilson.num_comps a + 128 * Z.min (6 * MP) ((n - 1) / 128 + 1) < 2 ^ 31 ->
  separated a ->
  (forall i, 0 <= i < Wilson.num_comps a ->
     (forall p, p ∈ read_slots ->
        exists x, mem s !! (ptr a p + i) = Some (CF x)) /\
     is_Some (mem s !! (Wilson.g_V a + i)) /\
     is_Some (mem s !! (Wilson.g_spike_state a + i))) ->
  exists s',
    prepared_async_call (Wilson.wilson_update_func MP n)
      (f_grid (Wilson.wilson_update_func MP n))
      (f_block (Wilson.wilson_update_func MP n)) l s
    = (Val tt, s').
Proof.
  intros HMP Hn Hk Hpos Hint Hsep Hcells. simpl.
  set (g := Z.min (6 * MP) ((n - 1) / 128 + 1)) in *.
  assert (0 < g) as Hg.
  { pose proof (Z.div_pos (n - 1) 128 ltac:(lia) ltac:(lia)). unfold g. lia. }
  destruct (update_kernel_is_Some g 128 a s) as [s' Hs']; try done.
  - split; [lia|right; lia].
  - intros i Hi. destruct (Hcells i Hi) as (Hr & _).
    destruct (Hr sI) as [x1 H1]; [unfold read_slots; in_list|].
    destruct (Hr sV) as [x2 H2]; [unfold read_slots; in_list|].
    destruct (Hr sV1) as [x3 H3]; [unfold read_slots; in_list|].
    destruct (Hr sV2) as [x4 H4]; [unfold read_slots; in_list|].
    destruct (Hr sR) as [x5 H5]; [unfold read_slots; in_list|].
    simpl in H1, H2, H3, H4, H5. unfold load_regs, loadF.
    rewrite H1, H2, H3, H4, H5. by eexists.
  - intros i Hi. by destruct (Hcells i Hi) as (_ & ? & ?).
  - exists s'. unfold device_call, Wilson.update. rewrite Hk.
    cbn [mbind option_bind option_ret]. by rewrite Hs'.
Qed.

End WilsonMore.
End WilsonMore.
(** * The further properties at the concrete components *)

Module MoreCases.
Import StoreFacts KernelFacts StepFacts ReduceFacts DeterminismFacts.
Import KernelMore InitFacts PrepareFacts SeedMore WilsonMore Demo.

#[local] Existing Instance double_FloatType.

(** *** The kernel *)


Lemma update_independent_of_grid_witness :
  exists s1 s2,
    Wilson.update_kernel 1 128 wilson_kargs wilson_kernel_mem = Some s1 /\
    Wilson.update_kernel 2 64 wilson_kargs wilson_kernel_mem = Some s2 /\
    mem s2 = mem s1.
Proof.
  destruct (Wilson.update_kernel 1 128 wilson_kargs wilson_kernel_mem)
    as [s1|] eqn:E1; [|vm_compute in E1; discriminate].
  destruct (Wilson.update_kernel 2 64 wilson_kargs wilson_kernel_mem)
    as [s2|] eqn:E2; [|vm_compute in E2; discriminate].
  destruct (update_independent_of_grid 1 128 2 64 wilson_kargs
              wilson_kernel_mem s1 s2) as [Hm _].
  - lia.
  - lia.
  - lia.
  - lia.
  - exact wilson_separated.
  - exact E1.
  - exact E2.
  - exists s1, s2. split; [reflexivity|]. split; [reflexivity|exact Hm].
Defined.

Lemma update_writes_only_its_arrays_witness :
  exists s',
    Wilson.update_kernel 1 128 wilson_kargs wilson_kernel_mem = Some s' /\
    brk s' = 200 /\ mem s' !! 1 = Some (CF 40%float).
Proof.
  destruct (Wilson.update_kernel 1 128 wilson_kargs wilson_kernel_mem)
    as [s'|] eqn:E; [|vm_compute in E; discriminate].
  destruct (update_writes_only_its_arrays 1 128 wilson_kargs
              wilson_kernel_mem s') as (Hb & HI & _).
  - lia.
  - lia.
  - exact wilson_separated.
  - exact E.
  - exists s'. split; [reflexivity|]. split; [exact Hb|].
    transitivity (mem wilson_kernel_mem !! 1);
      [apply (HI 1); simpl; lia|vm_compute; reflexivity].
Defined.

Lemma update_without_passes_witness :
  exists s',
    Wilson.update_kernel 1 128 (with_nsteps wilson_kargs 0) wilson_kernel_mem
    = Some s' /\
    mem s' !! 19 = Some (CF (-70.0)%float) /\ mem s' !! 16 = Some (CI 0).
Proof.
  destruct (Wilson.update_kernel 1 128 (with_nsteps wilson_kargs 0)
              wilson_kernel_mem) as [s'|] eqn:E;
    [|vm_compute in E; discriminate].
  destruct (update_without_passes 1 128 (with_nsteps wilson_kargs 0)
              wilson_kernel_mem s' 1) as (HV & HS & _).
  - lia.
  - lia.
  - exact (separated_with_nsteps wilson_kargs 0 wilson_separated).
  - simpl. lia.
  - simpl. lia.
  - exact E.
  - exists s'. split; [reflexivity|]. split; [|exact HS].
    transitivity (mem wilson_kernel_mem !! 7);
      [exact HV|vm_compute; reflexivity].
Defined.

(** The variables of a thread at rest. *)
Definition rest_regs : Wilson.regs :=
  {| Wilson.r_V := (-70.0)%float; Wilson.r_Vprev1 := (-70.0)%float;
     Wilson.r_Vprev2 := (-70.0)%float; Wilson.r_R := 0.088%float;
     Wilson.r_spike := 0 |}.

(** A step of a microsecond, in milliseconds, and an input current. *)
Definition rest_dt : F := 1e-3%float.

Definition rest_I : F := 40%float.

Lemma spike_counter_bounded_witness :
  0 <= Wilson.r_spike (Wilson.inner_loop 100 rest_dt rest_I rest_regs) <= 100.
Proof.
  destruct (spike_counter_bounded 100 rest_dt rest_I rest_regs 100)
    as [H _].
  - reflexivity.
  - simpl. lia.
  - lia.
  - exact H.
Defined.

Lemma update_rounds_compose_witness :
  exists s1 s2 s12,
    Wilson.update_kernel 1 128 (with_nsteps wilson_kargs 60) wilson_kernel_mem
    = Some s1 /\
    Wilson.update_kernel 1 128 (with_nsteps wilson_kargs 40) s1 = Some s2 /\
    Wilson.update_kernel 1 128 (with_nsteps wilson_kargs 100)
      wilson_kernel_mem = Some s12 /\
    mem s12 !! 19 = mem s2 !! 19.
Proof.
  destruct (Wilson.update_kernel 1 128 (with_nsteps wilson_kargs 60)
              wilson_kernel_mem) as [s1|] eqn:E1;
    [|vm_compute in E1; discriminate].
  destruct (Wilson.update_kernel 1 128 (with_nsteps wilson_kargs 40) s1)
    as [s2|] eqn:E2.
  2: { vm_compute in E1. injection E1 as <-. vm_compute in E2. discriminate. }
  destruct (update_rounds_compose 1 128 wilson_kargs 60 40 wilson_kernel_mem
              s1 s2) as (s12 & H12 & Hall).
  - lia.
  - lia.
  - exact wilson_separated.
  - lia.
  - lia.
  - exact E1.
  - exact E2.
  - exists s1, s2, s12. split; [reflexivity|]. split; [exact E2|].
    split; [exact H12|].
    destruct (Hall 1) as [Heq _]; [simpl; lia|].
    apply (Heq sO). in_list.
Defined.

(** *** The constructor *)

Lemma init_allocates_witness :
  exists self s' g,
    Base.init relay relay_params relay_buffers 1e-4 relay_mem = (Val self, s')
    /\ ODict.get (Base.internal_states self) "internalV" = Some g
    /\ size g = 3%nat
    /\ load_range s' (gpudata g) 3
       = Some (replicate 3 (CF (0 + -65.0)%float)).
Proof.
  destruct (init_allocates relay relay_params relay_buffers 1e-4%float
              relay_mem "initV"%string [] (f64 0 3) 100
              [("internalV"%string, (-65.0)%float)])
    as (self & s' & Hinit & Hn & _ & _ & Hint & _).
  - reflexivity.
  - reflexivity.
  - intros k Hk. apply elem_of_nil in Hk. destruct Hk.
  - vm_compute. reflexivity.
  - lia.
  - reflexivity.
  - intros k Hk. apply list_elem_of_singleton in Hk. subst k.
    exists (f64 100 13). reflexivity.
  - intros dtypes n s0. eexists. reflexivity.
  - destruct (Hint "internalV"%string (-65.0)%float eq_refl)
      as (g & Hg & Hsz & _ & _ & Hl).
    exists self, s', g. split; [exact Hinit|]. split; [exact Hg|].
    assert (size g = 3%nat) as Hsz'.
    { rewrite Hn in Hsz. simpl in Hsz. lia. }
    split; [exact Hsz'|]. rewrite Hsz' in Hl. exact Hl.
Defined.

Lemma init_rejects_bad_dt_witness :
  Base.init relay relay_params relay_buffers nan relay_mem
  = (Exn ValueError, relay_mem) /\
  Base.init relay relay_params relay_buffers infinity relay_mem
  = (Exn OverflowError, relay_mem).
Proof.
  destruct (init_rejects_bad_dt relay relay_params relay_buffers 1e-4%float
              relay_mem "initV"%string (f64 0 3))
    as (_ & _ & Hnan & Hinf & _).
  - reflexivity.
  - reflexivity.
  - split; [exact Hnan|exact Hinf].
Defined.

Lemma update_func_grid_witness :
  f_block (Wilson.wilson_update_func 80 1000) = 128 /\
  1000 <= 128 * f_grid (Wilson.wilson_update_func 80 1000).
Proof.
  destruct (update_func_grid 80 1000 (Wilson.wilson_update_func 80 1000))
    as (Hb & _ & Hg).
  - lia.
  - left. reflexivity.
  - split; [exact Hb|]. destruct Hg as (_ & _ & Hc); [lia|].
    apply Hc. lia.
Defined.

Lemma prepared_signature_matches_launch_witness :
  exists self s' ints (lst : list (string * dtype)),
    Base.init relay relay_params relay_buffers 1e-4 relay_mem = (Val self, s')
    /\ Base.internals relay = Some ints
    /\ map fst lst = dtype_names relay ints.
Proof.
  destruct (Base.init relay relay_params relay_buffers 1e-4 relay_mem)
    as [[self|e] s'] eqn:E; [|vm_compute in E; discriminate].
  destruct (prepared_signature_matches_launch _ _ _ _ _ _ _ E)
    as (ints & lst & _ & _ & Hints & Hnames & _).
  exists self, s', ints, lst. split; [reflexivity|].
  split; [exact Hints|exact Hnames].
Defined.

(** *** Seeding *)

(** [relay_self] without its internal state. *)
Definition stateless_self : Base.component := {|
  Base.cls := relay;
  Base.num_comps := 3;
  Base.params_dict := relay_params;
  Base.access_buffers := relay_buffers;
  Base.dtype_self := float64;
  Base.dt := 1e-4%float;
  Base.ddt := 1e-6%float;
  Base.steps := 100;
  Base.internal_states := [];
  Base.inputs := [("I"%string, f64 9 3)];
  Base.self_states := [];
  Base.update_func := Base.update_func relay_self;
|}.


Lemma pre_run_idempotent_witness :
  exists s1 s2,
    Base.pre_run relay_self relay_pointers relay_self_mem = (Val tt, s1) /\
    Base.pre_run relay_self relay_pointers s1 = (Val tt, s2) /\
    mem s2 = mem s1.
Proof.
  destruct (Base.pre_run relay_self relay_pointers relay_self_mem)
    as [[[]|e] s1] eqn:E; [|vm_compute in E; discriminate].
  destruct (pre_run_idempotent relay_self relay_pointers relay_self_mem s1)
    as (s2 & H2 & Hm).
  - intros initV pV iv H1 HV Hiv.
    vm_compute in H1. injection H1 as <-.
    vm_compute in HV. injection HV as <-.
    vm_compute in Hiv. injection Hiv as <-.
    simpl. lia.
  - exact E.
  - exists s1, s2. split; [reflexivity|]. split; [exact H2|exact Hm].
Defined.

Lemma pre_run_as_initializers_witness :
  Base.pre_run relay_self relay_pointers relay_self_mem
  = (Base.add_initializer relay_self "initV" "V" relay_pointers ;;;
     Base.add_initializer relay_self "initV" "internalV" relay_pointers)
      relay_self_mem.
Proof.
  apply pre_run_as_initializers.
  - reflexivity.
  - reflexivity.
  - right. split; eexists; reflexivity.
Defined.

(** *** The step *)

(** A [Wilson] instance whose [states] is the table of the class. *)
Definition wilson_class_self : Base.component := {|
  Base.cls := Wilson.Wilson;
  Base.num_comps := 3;
  Base.params_dict := ∅;
  Base.access_buffers := relay_buffers;
  Base.dtype_self := float64;
  Base.dt := 1e-4%float;
  Base.ddt := 1e-6%float;
  Base.steps := 100;
  Base.internal_states := [];
  Base.inputs := [("I"%string, f64 0 3)];
  Base.self_states := Base.states Wilson.Wilson;
  Base.update_func := Wilson.wilson_update_func 80 3;
|}.

Lemma wilson_run_step_needs_arrays_witness :
  exists s1,
    Wilson.run_step (NDComponent.sum_in_variable wilson_incoming)
      wilson_class_self relay_pointers wilson_mem
    = (Exn (AttributeError "gpudata"), s1) /\
    mem s1 !! 1 = Some (CF 40%float).
Proof.
  destruct (Base.reduce_inputs (NDComponent.sum_in_variable wilson_incoming)
              wilson_class_self wilson_mem) as [[[]|e] s1] eqn:E;
    [|vm_compute in E; discriminate].
  exists s1. split.
  - apply (wilson_run_step_needs_arrays _ wilson_class_self relay_pointers
             wilson_mem s1 [0] [] "R"%string).
    + exact E.
    + reflexivity.
    + reflexivity.
    + simpl. in_list.
    + intros a Ha. discriminate Ha.
  - vm_compute in E. injection E as <-. vm_compute. reflexivity.
Defined.

Lemma wilson_pointers_match_signature_witness :
  exists a,
    Wilson.kargs_of_launch Cases.wilson_launch = Some a /\
    Wilson.g_I a = 0 /\ Wilson.g_R a = 3 /\ Wilson.g_internalV a = 6 /\
    Wilson.g_spike_state a = 15 /\ Wilson.g_V a = 18.
Proof.
  destruct (wilson_pointers_match_signature wilson_self relay_pointers
              wilson_mem Cases.wilson_launch wilson_mem)
    as (a & gI & gR & gV & gV1 & gV2 & Ha & HI & HgI & HR & HgR & HV & HgV
        & _ & _ & _ & _ & HS & HO & _).
  - reflexivity.
  - reflexivity.
  - reflexivity.
  - reflexivity.
  - reflexivity.
  - exists a. split; [exact Ha|].
    injection HI as <-. injection HR as <-. injection HV as <-.
    vm_compute in HS. injection HS as HS. vm_compute in HO.
    injection HO as HO.
    split; [exact HgI|]. split; [exact HgR|]. split; [exact HgV|].
    split; [symmetry; exact HS|symmetry; exact HO].
Defined.


Lemma wilson_launch_returns_witness :
  exists s',
    prepared_async_call (Wilson.wilson_update_func 80 3) 1 128
      Cases.wilson_launch wilson_kernel_mem
    = (Val tt, s').
Proof.
  apply (wilson_launch_returns 80 3 Cases.wilson_launch wilson_kargs
           wilson_kernel_mem).
  - lia.
  - lia.
  - reflexivity.
  - simpl. lia.
  - vm_compute. reflexivity.
  - exact wilson_separated.
  - intros i Hi. simpl in Hi.
    assert (i = 0 \/ i = 1 \/ i = 2) as [ -> | [ -> | -> ] ] by lia;
      (split; [|split; vm_compute; eauto]);
      intros p Hp; unfold read_slots in Hp;
      rewrite !elem_of_cons, elem_of_nil in Hp;
      destruct Hp as [ -> | [ -> | [ -> | [ -> | [ -> | [] ] ] ] ] ];
      vm_compute; eauto.
Defined.

End MoreCases.
